(** * libcxx/utils/libcxx/graph.py: directed graph, DOT codec, cycle finder

    A shallow embedding of [utils/libcxx/graph.py] and the properties of
    its specification.

    Modelling conventions.
    - Text is a list of characters with code points 0..255.  The classes
      used by [str.strip], [str.splitlines] and the [re] escapes [\s] and
      [\w] are the ones CPython uses on that range.
    - A Python [set] is a list without repetitions: its members in one
      order of iteration.  CPython iterates a set in an order of its own,
      so where an operation builds or changes a set the list it yields
      has the members in one possible order (a new member last).  The
      statements are made for every list, so for every order in which a
      set may iterate, and they speak of the members of a set that an
      operation yields, not of their order.  A [dict] is an association
      list in insertion order, which is the order a [dict] keeps.
    - A [Node] is compared and hashed by its [id] only, and every use the
      module makes of an element of [Node.edges] reads its [id]
      ([DotEmitter.addEdge], [DirectedGraph.getNode], the filter in
      [removeNode]).  An edge set is therefore a set of ids.
    - Exceptions are values of [exn]; a call that may raise returns a
      [result].
    - The module uses f-strings and an assignment expression, so it
      loads under Python 3.8 or later only, and it is modelled as that
      interpreter runs it.  There a [dict] has no [iteritems], the view
      that [keys()] returns has no [sort], and the truth value of an
      object comes from [__bool__] or [__len__], never from
      [__nonzero__]: [DotEmitter.addNode] raises [AttributeError] for a
      node with attributes, [DotEmitter.emit] raises [AttributeError],
      and [while bfs:] holds for every [BFS] object, so the traversal
      loop ends by an exception only.
    - The traversal loop is given fuel; [findCycleForNode] grants it one
      turn per resident node and one more, which is shown to suffice. *)

From Stdlib Require Import Ascii String.
From Stdlib Require Import List Bool Arith Lia.
From Stdlib Require Import Permutation.
Import ListNotations.

Set Implicit Arguments.

(* ------------------------------------------------------------------ *)
(** ** Text *)

Module Text.

Definition str := list ascii.

Definition lit (x : string) : str := list_ascii_of_string x.

Definition code (c : ascii) : nat := nat_of_ascii c.

Definition LF : ascii := Eval cbv in ascii_of_nat 10.
Definition CR : ascii := Eval cbv in ascii_of_nat 13.
Definition SP : ascii := Eval cbv in ascii_of_nat 32.
Definition DQUOTE : ascii := Eval cbv in ascii_of_nat 34.
Definition COMMA : ascii := Eval cbv in ascii_of_nat 44.
Definition RBRACKET : ascii := Eval cbv in ascii_of_nat 93.

Definition between (lo hi n : nat) : bool := (lo <=? n) && (n <=? hi).

(** [Py_UNICODE_ISSPACE]: used by [strip] and by [\s]. *)
Definition is_space (c : ascii) : bool :=
  let n := code c in
  between 9 13 n || between 28 32 n || (n =? 133) || (n =? 160).

(** [Py_UNICODE_ISLINEBREAK]: used by [splitlines]. *)
Definition is_linebreak (c : ascii) : bool :=
  let n := code c in
  between 10 13 n || between 28 30 n || (n =? 133).

(** [\w]: alphanumeric or underscore. *)
Definition is_word (c : ascii) : bool :=
  let n := code c in
  between 48 57 n || between 65 90 n || (n =? 95) || between 97 122 n
  || (n =? 170) || between 178 179 n || (n =? 181) || between 185 186 n
  || between 188 190 n || between 192 214 n || between 216 246 n
  || between 248 255 n.

Definition ascii_eqb (a b : ascii) : bool := Ascii.eqb a b.

Fixpoint str_eqb (a b : str) : bool :=
  match a, b with
  | [], [] => true
  | x :: a', y :: b' => ascii_eqb x y && str_eqb a' b'
  | _, _ => false
  end.

(** [sep.join(parts)] *)
Fixpoint join (sep : str) (parts : list str) : str :=
  match parts with
  | [] => []
  | [x] => x
  | x :: rest => x ++ sep ++ join sep rest
  end.

Fixpoint lstrip (s : str) : str :=
  match s with
  | [] => []
  | c :: s' => if is_space c then lstrip s' else s
  end.

Definition rstrip (s : str) : str := rev (lstrip (rev s)).

(** [s.strip()] *)
Definition strip (s : str) : str := rstrip (lstrip s).

(** [s.splitlines()]: a CR LF pair is one boundary, and a boundary at the
    very end opens no further line. *)
Fixpoint splitlines (s : str) : list str :=
  match s with
  | [] => []
  | c :: r =>
      if is_linebreak c then
        [] :: (if ascii_eqb c CR
               then match r with
                    | c' :: r' => if ascii_eqb c' LF then splitlines r'
                                  else splitlines r
                    | [] => []
                    end
               else splitlines r)
      else match splitlines r with
           | [] => [[c]]
           | l :: ls => (c :: l) :: ls
           end
  end.

(** [s.split(sep)] for a one-character separator. *)
Fixpoint split (sep : ascii) (s : str) : list str :=
  match s with
  | [] => [[]]
  | c :: r =>
      if ascii_eqb c sep then [] :: split sep r
      else match split sep r with
           | [] => [[c]]
           | l :: ls => (c :: l) :: ls
           end
  end.

Definition nonempty (s : str) : bool :=
  match s with [] => false | _ :: _ => true end.

End Text.
Import Text.

(* ------------------------------------------------------------------ *)
(** ** Regular expressions

    The fragment of [re] the module uses: literals, greedy repetition of
    a character class, capture groups, sequencing, and the end anchor.
    [re.match] anchors at the start, so the leading [^] is not
    represented. *)

Module Re.

Inductive regex : Type :=
| Lit (s : str)
| Star (cls : ascii -> bool)
| Plus (cls : ascii -> bool)
| Group (r : regex)
| Seq (r1 r2 : regex)
| Eos.

(** Greedy repetition with backtracking: the longest run first. *)
Fixpoint many (R : Type) (cls : ascii -> bool) (s : str)
         (k : str -> option R) : option R :=
  match s with
  | c :: s' =>
      if cls c then
        match many cls s' k with
        | Some r => Some r
        | None => k s
        end
      else k s
  | [] => k s
  end.

Fixpoint eat (l s : str) : option str :=
  match l, s with
  | [], _ => Some s
  | x :: l', y :: s' => if ascii_eqb x y then eat l' s' else None
  | _ :: _, [] => None
  end.

Definition captures := list str.

Fixpoint run (r : regex) (s : str) (caps : captures)
         (k : str -> captures -> option captures) : option captures :=
  match r with
  | Lit l => match eat l s with Some s' => k s' caps | None => None end
  | Star cls => many cls s (fun s' => k s' caps)
  | Plus cls =>
      match s with
      | c :: s' => if cls c then many cls s' (fun s'' => k s'' caps) else None
      | [] => None
      end
  | Group r' =>
      run r' s caps
          (fun s' caps' =>
             k s' (caps' ++ [firstn (length s - length s') s]))
  | Seq r1 r2 => run r1 s caps (fun s' caps' => run r2 s' caps' k)
  | Eos =>
      match s with
      | [] => k s caps
      | [c] => if ascii_eqb c LF then k s caps else None
      | _ => None
      end
  end.

(** [pattern.match(s)]: [None], or the groups 1, 2, ... *)
Definition rmatch (r : regex) (s : str) : option captures :=
  run r s [] (fun _ caps => Some caps).

Fixpoint seq (rs : list regex) : regex :=
  match rs with
  | [] => Lit []
  | [r] => r
  | r :: rs' => Seq r (seq rs')
  end.

Definition ws : ascii -> bool := is_space.
Definition word : ascii -> bool := is_word.
Definition not_char (x : ascii) : ascii -> bool :=
  fun c => negb (ascii_eqb c x).

End Re.
Import Re.

(* ------------------------------------------------------------------ *)
(** ** Exceptions, sets and dicts *)

Inductive exn : Type :=
| AssertionError
| KeyError
| IndexError
| AttributeError
| Exception (msg : str).

Inductive result (A : Type) : Type :=
| Ok (a : A)
| Raise (e : exn).

Arguments Ok {A} a.
Arguments Raise {A} e.

Definition bind {A B : Type} (m : result A) (f : A -> result B) : result B :=
  match m with
  | Ok a => f a
  | Raise e => Raise e
  end.

Notation "x <- m ;; k" := (bind m (fun x => k))
  (at level 61, m at next level, right associativity).
Notation "' p <- m ;; k" := (bind m (fun x => match x with p => k end))
  (at level 61, p pattern, m at next level, right associativity).

(** [assert b] *)
Definition assert (b : bool) : result unit :=
  if b then Ok tt else Raise AssertionError.

Fixpoint mapM {A B : Type} (f : A -> result B) (l : list A)
  : result (list B) :=
  match l with
  | [] => Ok []
  | x :: l' => y <- f x ;; ys <- mapM f l' ;; Ok (y :: ys)
  end.

Module Py.

(** [x in s] for a set or the keys of a dict of [str]. *)
Fixpoint mem (x : str) (l : list str) : bool :=
  match l with
  | [] => false
  | y :: l' => str_eqb y x || mem x l'
  end.

(** [s.add(x)]: the members afterwards, in one order of iteration. *)
Definition set_add (x : str) (l : list str) : list str :=
  if mem x l then l else l ++ [x].

(** [d[k]] *)
Fixpoint dict_get {V : Type} (d : list (str * V)) (k : str) : option V :=
  match d with
  | [] => None
  | (k', v) :: d' => if str_eqb k' k then Some v else dict_get d' k
  end.

(** [d[k] = v]: an existing key keeps its place. *)
Fixpoint dict_set {V : Type} (d : list (str * V)) (k : str) (v : V)
  : list (str * V) :=
  match d with
  | [] => [(k, v)]
  | (k', v') :: d' =>
      if str_eqb k' k then (k', v) :: d' else (k', v') :: dict_set d' k v
  end.

Definition dict_keys {V : Type} (d : list (str * V)) : list str :=
  map fst d.

End Py.

(* ------------------------------------------------------------------ *)
(** ** Node *)

Module Node.

Record t : Type := mk {
  id : str;
  edges : list str;
  attributes : list (str * str)
}.

(** [Node.__eq__] against another node. *)
Definition eqb (a b : t) : bool := str_eqb (id a) (id b).

(** [Node.__eq__] against a [str]. *)
Definition eqb_id (a : t) (i : str) : bool := str_eqb i (id a).

(** [Node.addEdge] *)
Definition addEdge (n : t) (dest : str) : t :=
  mk (id n) (Py.set_add dest (edges n)) (attributes n).

(** [n in s] for a set of nodes. *)
Fixpoint mem (n : t) (s : list t) : bool :=
  match s with
  | [] => false
  | m :: s' => eqb m n || mem n s'
  end.

(** [s.add(n)] for a set of nodes: an equal member stays.  The list is
    the members afterwards, in one order of iteration. *)
Definition set_add (n : t) (s : list t) : list t :=
  if mem n s then s else s ++ [n].

(** [s.remove(n)] for a set of nodes, once membership is known. *)
Definition set_remove (n : t) (s : list t) : list t :=
  filter (fun m => negb (eqb m n)) s.

End Node.

(* ------------------------------------------------------------------ *)
(** ** DotEmitter *)

Module DotEmitter.

Record t : Type := mk {
  name : option str;
  node_strings : list (str * str);
  edge_strings : list str
}.

Definition init (name : option str) : t := mk name [] [].

(** The f-string of one attribute: key, [=], and the value in double
    quotes. *)
Definition attr_str (kv : str * str) : str :=
  fst kv ++ lit "=" ++ [DQUOTE] ++ snd kv ++ [DQUOTE].

(** The statement of a node as the f-strings of [addNode] spell it: the
    id, the attribute list in brackets when there are attributes, and a
    semicolon. *)
Definition node_str (node : Node.t) : str :=
  Node.id node
  ++ (match Node.attributes node with
      | [] => []
      | _ :: _ =>
          lit " [ "
          ++ join (lit ", ") (map attr_str (Node.attributes node))
          ++ lit " ]"
      end)
  ++ lit ";".

(** [d.iteritems()]: a [dict] has no such attribute. *)
Definition iteritems (d : list (str * str)) : result (list (str * str)) :=
  Raise AttributeError.

(** [addNode]: the attribute list is written only when there are
    attributes, and writing it starts with [iteritems()]. *)
Definition addNode (e : t) (node : Node.t) : result t :=
  let res := Node.id node in
  res <- (match Node.attributes node with
          | [] => Ok res
          | _ :: _ =>
              items <- iteritems (Node.attributes node) ;;
              let attr_strs := map attr_str items in
              Ok (res ++ lit " [ " ++ join (lit ", ") attr_strs ++ lit " ]")
          end) ;;
  let res := res ++ lit ";" in
  _ <- assert (negb (Py.mem (Node.id node) (Py.dict_keys (node_strings e)))) ;;
  Ok (mk (name e) (Py.dict_set (node_strings e) (Node.id node) res)
         (edge_strings e)).

Definition edge_str (n1 n2 : str) : str :=
  n1 ++ lit " -> " ++ n2 ++ lit ";".

(** [n2] is an element of [n1.edges]; only its id is read. *)
Definition addEdge (e : t) (n1 : Node.t) (n2 : str) : t :=
  mk (name e) (node_strings e) (edge_strings e ++ [edge_str (Node.id n1) n2]).

(** [str.format] of a name that may be [None]. *)
Definition format_name (name : option str) : str :=
  match name with
  | Some n => n
  | None => lit "None"
  end.

Definition lookup (d : list (str * str)) (k : str) : result str :=
  match Py.dict_get d k with
  | Some v => Ok v
  | None => Raise KeyError
  end.

(** [keys.sort()] on the view that [dict.keys()] returns: a view has no
    such attribute. *)
Definition keys_sort (keys : list str) : result (list str) :=
  Raise AttributeError.

Definition emit (e : t) : result str :=
  sorted_keys <- keys_sort (Py.dict_keys (node_strings e)) ;;
  node_definitions_list <- mapM (lookup (node_strings e)) sorted_keys ;;
  let node_definitions := join (LF :: lit "  ") node_definitions_list in
  let edge_list := join (LF :: lit "  ") (edge_strings e) in
  Ok (strip
        ([LF] ++ lit "digraph " ++ [DQUOTE] ++ format_name (name e)
         ++ [DQUOTE] ++ lit " {" ++ [LF]
         ++ lit "  " ++ node_definitions ++ [LF]
         ++ lit "  " ++ edge_list ++ [LF]
         ++ lit "}    " ++ [LF])).

(** [s.startswith(prefix)] *)
Fixpoint startswith (prefix s : str) : bool :=
  match prefix, s with
  | [], _ => true
  | x :: prefix', y :: s' => ascii_eqb x y && startswith prefix' s'
  | _ :: _, [] => false
  end.

(** [node_key]: the id is compared with the six characters of the
    literal, backslashes and all; nothing is returned. *)
Definition node_key (n : Node.t) : result unit :=
  assert (startswith (lit "\w*\d+") (Node.id n)).

End DotEmitter.

(* ------------------------------------------------------------------ *)
(** ** DirectedGraph

    The methods that take [n_or_id] are modelled on ids, the way
    [DotReader] calls them; a handle of a resident node resolves to the
    same node. *)

Module DirectedGraph.

Record t : Type := mk {
  name : option str;
  nodes : list Node.t
}.

Definition init (name : option str) : t := mk name [].

Definition setName (g : t) (n : str) : t := mk (Some n) (nodes g).

(** [next((s for s in self.nodes if s == str_id), None)] *)
Definition getNode (g : t) (str_id : str) : option Node.t :=
  find (fun s => Node.eqb_id s str_id) (nodes g).

Fixpoint getNodeByLabel_loop (l : str) (ns : list Node.t)
         (found : option Node.t) : result (option Node.t) :=
  match ns with
  | [] => Ok found
  | s :: ns' =>
      match Py.dict_get (Node.attributes s) (lit "label") with
      | None => Raise KeyError
      | Some v =>
          if str_eqb v l then
            match found with
            | None => getNodeByLabel_loop l ns' (Some s)
            | Some _ => Raise AssertionError
            end
          else getNodeByLabel_loop l ns' found
      end
  end.

Definition getNodeByLabel (g : t) (l : str) : result (option Node.t) :=
  getNodeByLabel_loop l (nodes g) None.

(** [n in self.nodes] for the outcome of [_getNode]. *)
Definition resident (g : t) (n : option Node.t) : bool :=
  match n with
  | Some n' => Node.mem n' (nodes g)
  | None => false
  end.

(** The node object found by [getNode] is updated in place. *)
Fixpoint update_first (i : str) (f : Node.t -> Node.t) (ns : list Node.t)
  : list Node.t :=
  match ns with
  | [] => []
  | s :: ns' =>
      if Node.eqb_id s i then f s :: ns' else s :: update_first i f ns'
  end.

Definition addEdge (g : t) (n1 n2 : str) : result t :=
  let n1 := getNode g n1 in
  let n2 := getNode g n2 in
  _ <- assert (resident g n1) ;;
  _ <- assert (resident g n2) ;;
  match n1, n2 with
  | Some a, Some b =>
      Ok (mk (name g)
             (update_first (Node.id a) (fun s => Node.addEdge s (Node.id b))
                           (nodes g)))
  | _, _ => Raise AssertionError
  end.

Definition addNode (g : t) (n : Node.t) : result t :=
  Ok (mk (name g) (Node.set_add n (nodes g))).

(** The loop of [removeNode] for one [other_n]: the new edge set holds
    the members of the old one but for [n], in one order of iteration. *)
Definition strip_edges (i : str) (other_n : Node.t) : Node.t :=
  if Node.eqb_id other_n i then other_n
  else Node.mk (Node.id other_n)
               (filter (fun e => negb (str_eqb e i)) (Node.edges other_n))
               (Node.attributes other_n).

Definition removeNode (g : t) (n : str) : result t :=
  match getNode g n with
  | Some n' =>
      let stripped := map (strip_edges (Node.id n')) (nodes g) in
      Ok (mk (name g) (Node.set_remove n' stripped))
  | None =>
      (* [self.nodes.remove(None)] *)
      Raise KeyError
  end.

Fixpoint toDot_edges (dot : DotEmitter.t) (n : Node.t) (es : list str)
  : DotEmitter.t :=
  match es with
  | [] => dot
  | ndest :: es' => toDot_edges (DotEmitter.addEdge dot n ndest) n es'
  end.

Fixpoint toDot_nodes (dot : DotEmitter.t) (ns : list Node.t)
  : result DotEmitter.t :=
  match ns with
  | [] => Ok dot
  | n :: ns' =>
      dot1 <- DotEmitter.addNode dot n ;;
      toDot_nodes (toDot_edges dot1 n (Node.edges n)) ns'
  end.

Definition toDot (g : t) : result str :=
  dot <- toDot_nodes (DotEmitter.init (name g)) (nodes g) ;;
  DotEmitter.emit dot.

(** [DirectedGraph(name, nodes)]: the node set is [set(nodes)]. *)
Definition of_nodes (name : option str) (ns : list Node.t) : t :=
  mk name (fold_left (fun s n => Node.set_add n s) ns []).

End DirectedGraph.

(* ------------------------------------------------------------------ *)
(** ** DotReader

    The reader owns the graph it builds; every method takes the graph and
    gives it back with its answer. *)

Module DotReader.

Definition init : DirectedGraph.t := DirectedGraph.init None.

Definition abortParse {A : Type} (msg : str) : result A :=
  Raise (Exception msg).

(** ['^\s*(\w+)\s+->\s+(\w+);\s*$'] *)
Definition edge_re : regex :=
  seq [Star ws; Group (Plus word); Plus ws; Lit (lit "->"); Plus ws;
       Group (Plus word); Lit (lit ";"); Star ws; Eos].

(** ['^\s*(\w+)=Q([^Q]+)Q'], with Q for the double quote character. *)
Definition attribute_re : regex :=
  seq [Star ws; Group (Plus word); Lit (lit "="); Lit [DQUOTE];
       Group (Plus (not_char DQUOTE)); Lit [DQUOTE]].

(** ['^\s*(\w+)\s+\[([^\]]+)\]\s*;\s*$'] *)
Definition node_definition_re : regex :=
  seq [Star ws; Group (Plus word); Plus ws; Lit (lit "[");
       Group (Plus (not_char RBRACKET)); Lit (lit "]"); Star ws;
       Lit (lit ";"); Star ws; Eos].

(** ['^\s*digraph Q([^Q]+)Q\s+{\s*$'], with Q for the double quote
    character. *)
Definition introducer_re : regex :=
  seq [Star ws; Lit (lit "digraph "); Lit [DQUOTE];
       Group (Plus (not_char DQUOTE)); Lit [DQUOTE]; Plus ws;
       Lit (lit "{"); Star ws; Eos].

(** ['^\s*}\s*$'] *)
Definition closer_re : regex :=
  seq [Star ws; Lit (lit "}"); Star ws; Eos].

Definition parseEdgeDefinition (g : DirectedGraph.t) (l : str)
  : result (bool * DirectedGraph.t) :=
  match rmatch edge_re l with
  | Some [n1; n2] =>
      g' <- DirectedGraph.addEdge g n1 n2 ;;
      Ok (true, g')
  | _ => Ok (false, g)
  end.

Definition stripped_parts (sep : ascii) (s : str) : list str :=
  filter nonempty (map strip (split sep s)).

Fixpoint parseAttributes_loop (parts : list str)
         (attribute_dict : list (str * str)) : result (list (str * str)) :=
  match parts with
  | [] => Ok attribute_dict
  | a :: parts' =>
      match rmatch attribute_re a with
      | Some [k; v] =>
          parseAttributes_loop parts' (Py.dict_set attribute_dict k v)
      | _ =>
          abortParse (lit "Bad attribute " ++ [DQUOTE] ++ a ++ [DQUOTE])
      end
  end.

Definition parseAttributes (raw_str : str) : result (list (str * str)) :=
  parseAttributes_loop (stripped_parts COMMA raw_str) [].

Definition parseNodeDefinition (g : DirectedGraph.t) (l : str)
  : result (bool * DirectedGraph.t) :=
  match rmatch node_definition_re l with
  | Some [id; raw] =>
      attributes <- parseAttributes raw ;;
      let n := Node.mk id [] attributes in
      g' <- DirectedGraph.addNode g n ;;
      Ok (true, g')
  | _ => Ok (false, g)
  end.

Definition parseIntroducer (g : DirectedGraph.t) (l : str)
  : bool * DirectedGraph.t :=
  match rmatch introducer_re l with
  | Some [n] => (true, DirectedGraph.setName g n)
  | _ => (false, g)
  end.

Definition parseCloser (l : str) : bool :=
  match rmatch closer_re l with
  | Some _ => true
  | None => false
  end.

(** [[l.strip() for l in data.splitlines() if l.strip()]] *)
Definition nonblank_lines (data : str) : list str :=
  filter nonempty (map strip (splitlines data)).

(** The [while] loop of [parse]: the graph and the lines from [idx] on. *)
Fixpoint statements (g : DirectedGraph.t) (lines : list str)
  : result (DirectedGraph.t * list str) :=
  match lines with
  | [] => Ok (g, [])
  | l :: rest =>
      '(isnode, g1) <- parseNodeDefinition g l ;;
      if isnode then statements g1 rest
      else
        '(isedge, g2) <- parseEdgeDefinition g1 l ;;
        if isedge then statements g2 rest
        else Ok (g2, lines)
  end.

Definition parse_lines (g : DirectedGraph.t) (lines : list str)
  : result DirectedGraph.t :=
  match lines with
  | [] => Raise IndexError            (* [lines[idx]] with nothing to index *)
  | l0 :: rest =>
      let '(ok, g0) := parseIntroducer g l0 in
      if negb ok then abortParse (lit "failed to parse introducer")
      else
        '(g1, remaining) <- statements g0 rest ;;
        match remaining with
        | [] => abortParse (lit "no closing } found")
        | l :: _ =>
            if parseCloser l then Ok g1
            else abortParse (lit "no closing } found")
        end
  end.

Definition parse (data : str) : result DirectedGraph.t :=
  parse_lines init (nonblank_lines data).

End DotReader.

(** [DirectedGraph.fromDot] *)
Definition fromDot (text : str) : result DirectedGraph.t :=
  DotReader.parse text.

(* ------------------------------------------------------------------ *)
(** ** BFS *)

Module BFS.

Record t : Type := mk {
  visited : list Node.t;
  to_visit : list Node.t;
  start : Node.t
}.

Definition init (start : Node.t) : t := mk [] [] start.

(** [__nonzero__]: a method that nothing calls. *)
Definition nonzero (q : t) : bool :=
  match to_visit q with [] => false | _ :: _ => true end.

(** [bool(q)], as [while bfs:] takes it: the class defines neither
    [__bool__] nor [__len__], so every instance is true. *)
Definition truth (q : t) : bool := true.

Definition seen (q : t) (n : Node.t) : bool := Node.mem n (visited q).

Definition push_back (q : t) (node : Node.t) : result t :=
  _ <- assert (negb (Node.mem node (visited q))) ;;
  Ok (mk (Node.set_add node (visited q)) (to_visit q ++ [node]) (start q)).

Definition maybe_push_back (q : t) (node : Node.t) : result t :=
  if Node.mem node (visited q) then Ok q else push_back q node.

Definition pop_front (q : t) : result (Node.t * t) :=
  match to_visit q with
  | [] => Raise AssertionError
  | elem :: rest => Ok (elem, mk (visited q) rest (start q))
  end.

Definition empty (q : t) : bool :=
  match to_visit q with [] => true | _ :: _ => false end.

End BFS.

(* ------------------------------------------------------------------ *)
(** ** CycleFinder *)

Module CycleFinder.

Definition path := list Node.t.

(** [all_paths], a dict keyed by node. *)
Definition paths := list (Node.t * path).

Fixpoint paths_get (d : paths) (n : Node.t) : result path :=
  match d with
  | [] => Raise KeyError
  | (m, p) :: d' => if Node.eqb m n then Ok p else paths_get d' n
  end.

Fixpoint paths_set (d : paths) (n : Node.t) (p : path) : paths :=
  match d with
  | [] => [(n, p)]
  | (m, q) :: d' =>
      if Node.eqb m n then (m, p) :: d' else (m, q) :: paths_set d' n p
  end.

(** [n in all_paths] *)
Fixpoint paths_has (d : paths) (n : Node.t) : bool :=
  match d with
  | [] => false
  | (m, _) :: d' => Node.eqb m n || paths_has d' n
  end.

Record state : Type := mk {
  bfs : BFS.t;
  all_paths : paths;
  all_cycles : list path
}.

(** One turn of [for e in n.edges].  [getNode] gives [None] for an edge
    whose target is not resident; the source enqueues that [None] and
    raises [AttributeError] when it is dequeued and asked for its
    [edges].  Until then the queue is not empty and nothing else raises,
    so the call ends with that exception; it is raised here. *)
Definition visit_edge (g : DirectedGraph.t) (n : Node.t) (st : state)
           (e : str) : result state :=
  match DirectedGraph.getNode g e with
  | None => Raise AttributeError
  | Some en =>
      st1 <- (if negb (BFS.seen (bfs st) en) then
                p <- paths_get (all_paths st) n ;;
                let new_path := p ++ [en] in
                q <- BFS.push_back (bfs st) en ;;
                Ok (mk q (paths_set (all_paths st) en new_path)
                       (all_cycles st))
              else Ok st) ;;
      if Node.eqb en (BFS.start (bfs st1)) then
        p <- paths_get (all_paths st1) n ;;
        Ok (mk (bfs st1) (all_paths st1) (all_cycles st1 ++ [p]))
      else Ok st1
  end.

Fixpoint visit_edges (g : DirectedGraph.t) (n : Node.t) (st : state)
         (es : list str) : result state :=
  match es with
  | [] => Ok st
  | e :: es' => st' <- visit_edge g n st e ;; visit_edges g n st' es'
  end.

(** The [while bfs:] loop: its condition holds at every turn, and the
    turn that finds the queue empty ends it with the [AssertionError] of
    [pop_front].  [None] when [fuel] turns do not end it. *)
Fixpoint loop (fuel : nat) (g : DirectedGraph.t) (st : state)
  : option (result (list path)) :=
  match fuel with
  | O => None
  | S fuel' =>
      if BFS.truth (bfs st) then
        match BFS.pop_front (bfs st) with
        | Raise e => Some (Raise e)
        | Ok (n, q) =>
            match
              (_ <- assert (paths_has (all_paths st) n) ;;
               visit_edges g n (mk q (all_paths st) (all_cycles st))
                           (Node.edges n))
            with
            | Raise e => Some (Raise e)
            | Ok st' => loop fuel' g st'
            end
        end
      else Some (Ok (all_cycles st))
  end.

(** Every turn dequeues a node and a node is enqueued once, so the queue
    is empty within one turn per resident node, and the turn after that
    ends the loop. *)
Definition turns (g : DirectedGraph.t) : nat :=
  S (length (DirectedGraph.nodes g)).

Definition findCycleForNode_fuel (fuel : nat) (g : DirectedGraph.t)
           (n : Node.t) : option (result (list path)) :=
  if Node.mem n (DirectedGraph.nodes g) then
    match BFS.push_back (BFS.init n) n with
    | Raise e => Some (Raise e)
    | Ok q => loop fuel g (mk q [(n, [n])] [])
    end
  else Some (Raise AssertionError).

Definition findCycleForNode (g : DirectedGraph.t) (n : Node.t)
  : option (result (list path)) :=
  findCycleForNode_fuel (turns g) g n.

Fixpoint findCyclesInGraph_loop (g : DirectedGraph.t) (ns : list Node.t)
         (all_cycles : list (Node.t * list path))
  : option (result (list (Node.t * list path))) :=
  match ns with
  | [] => Some (Ok all_cycles)
  | n :: ns' =>
      match findCycleForNode g n with
      | None => None
      | Some (Raise e) => Some (Raise e)
      | Some (Ok cycle) =>
          match cycle with
          | [] => findCyclesInGraph_loop g ns' all_cycles
          | _ :: _ => findCyclesInGraph_loop g ns' (all_cycles ++ [(n, cycle)])
          end
      end
  end.

Definition findCyclesInGraph (g : DirectedGraph.t)
  : option (result (list (Node.t * list path))) :=
  findCyclesInGraph_loop g (DirectedGraph.nodes g) [].

End CycleFinder.

(* ------------------------------------------------------------------ *)
(** ** Graphs used as examples *)

Module Examples.

Definition quoted (s : str) : str := [DQUOTE] ++ s ++ [DQUOTE].

(** The cycle A -> B -> C -> A; the attributes are left open. *)
Definition cycA (a : list (str * str)) := Node.mk (lit "A") [lit "B"] a.
Definition cycB (a : list (str * str)) := Node.mk (lit "B") [lit "C"] a.
Definition cycC (a : list (str * str)) := Node.mk (lit "C") [lit "A"] a.

(** The chain A -> B -> C. *)
Definition chainA := Node.mk (lit "A") [lit "B"] [].
Definition chainB := Node.mk (lit "B") [lit "C"] [].
Definition chainC := Node.mk (lit "C") [] [].
Definition chain : DirectedGraph.t :=
  DirectedGraph.mk (Some (lit "chain")) [chainA; chainB; chainC].

(** One node without attributes. *)
Definition bare_a := Node.mk (lit "a") [] [].
Definition bare : DirectedGraph.t :=
  DirectedGraph.mk (Some (lit "g")) [bare_a].
Definition bare_text : str :=
  lit "digraph " ++ quoted (lit "g") ++ lit " {" ++ [LF]
  ++ lit "  a;" ++ [LF]
  ++ lit "  " ++ [LF]
  ++ lit "}".

(** Two labelled nodes with an edge each way and a self-loop. *)
Definition lab_a :=
  Node.mk (lit "a") [lit "b"] [(lit "label", lit "A x"); (lit "k", lit "v")].
Definition lab_b :=
  Node.mk (lit "b") [lit "a"; lit "b"] [(lit "label", lit "B")].
Definition labelled : DirectedGraph.t :=
  DirectedGraph.mk (Some (lit "deps")) [lab_a; lab_b].

(** A second node with the id of [lab_a]. *)
Definition dup_a := Node.mk (lit "a") [] [(lit "label", lit "other")].

(** Two nodes that share a label. *)
Definition same_x := Node.mk (lit "x") [] [(lit "label", lit "X")].
Definition same_y := Node.mk (lit "y") [] [(lit "label", lit "X")].
Definition ambiguous : DirectedGraph.t :=
  DirectedGraph.mk None [same_x; same_y].

(** A node with an id that [labelled] does not have. *)
Definition fresh_z := Node.mk (lit "z") [lit "a"] [].

End Examples.

(* ------------------------------------------------------------------ *)
(** ** Notions used in the statements *)

Module Spec.

Definition ids (g : DirectedGraph.t) : list str :=
  map Node.id (DirectedGraph.nodes g).

(** The value of the ["label"] attribute equals [l]. *)
Definition label_is (l : str) (n : Node.t) : bool :=
  match Py.dict_get (Node.attributes n) (lit "label") with
  | Some v => str_eqb v l
  | None => false
  end.

Definition has_label (n : Node.t) : Prop :=
  Py.dict_get (Node.attributes n) (lit "label") <> None.

(** Every edge of every resident node leads to a resident node. *)
Definition closed (g : DirectedGraph.t) : Prop :=
  forall n e, In n (DirectedGraph.nodes g) -> In e (Node.edges n) ->
              In e (ids g).

(** [a -> b] is an edge of the graph. *)
Definition edge (g : DirectedGraph.t) (a b : str) : Prop :=
  exists n, In n (DirectedGraph.nodes g) /\ Node.id n = a
            /\ In b (Node.edges n).

(** A walk of edges, possibly empty, from [a] to [b]. *)
Inductive walk (g : DirectedGraph.t) : str -> str -> Prop :=
| walk_nil : forall a, walk g a a
| walk_step : forall a b c, walk g a b -> edge g b c -> walk g a c.

(** Resident ids that the traversal has not marked yet. *)
Definition unvisited (g : DirectedGraph.t) (visited : list Node.t)
  : list str :=
  filter (fun i => negb (Py.mem i (map Node.id visited))) (ids g).

(** What is left to do in a traversal: the queue, and the resident ids
    that may still enter it. *)
Definition work (g : DirectedGraph.t) (st : CycleFinder.state) : nat :=
  length (BFS.to_visit (CycleFinder.bfs st))
  + length (unvisited g (BFS.visited (CycleFinder.bfs st))).

(** The string is empty or starts with a character outside the class. *)
Definition starts_outside (cls : ascii -> bool) (s : str) : Prop :=
  match s with
  | [] => True
  | c :: _ => cls c = false
  end.

(** No match of [r] starts with the character [c]. *)
Definition rejects (r : regex) (c : ascii) : Prop :=
  forall s caps k, run r (c :: s) caps k = None.

(** *** The part of the data model that the text format can carry *)

(** ID, KEY: one or more word characters. *)
Definition word_ok (s : str) : bool := nonempty s && forallb is_word s.

(** VALUE: one or more characters, none of them the quote that ends the
    value, the comma that [parseAttributes] splits on, the bracket that
    ends the attribute list, or a line boundary. *)
Definition value_char (c : ascii) : bool :=
  not_char DQUOTE c && not_char COMMA c && not_char RBRACKET c
  && negb (is_linebreak c).

Definition value_ok (v : str) : bool := nonempty v && forallb value_char v.

(** NAME: one or more characters, none of them the quote or a line
    boundary. *)
Definition name_char (c : ascii) : bool :=
  not_char DQUOTE c && negb (is_linebreak c).

Definition name_ok (n : str) : bool := nonempty n && forallb name_char n.

Fixpoint distinct (l : list str) : bool :=
  match l with
  | [] => true
  | x :: l' => negb (Py.mem x l') && distinct l'
  end.

Definition attr_ok (kv : str * str) : bool :=
  word_ok (fst kv) && value_ok (snd kv).

(** A node the format can carry: a word for its id, at least one
    attribute, attribute keys that are distinct words, values within
    VALUE, and an edge set of distinct resident ids. *)
Definition node_ok (resident : list str) (n : Node.t) : bool :=
  word_ok (Node.id n)
  && match Node.attributes n with [] => false | _ :: _ => true end
  && distinct (map fst (Node.attributes n))
  && forallb attr_ok (Node.attributes n)
  && distinct (Node.edges n)
  && forallb (fun e => Py.mem e resident) (Node.edges n).

(** The text of a graph: introducer, node statements, edge statements,
    closer. *)
Definition introducer_line (nm : str) : str :=
  lit "digraph " ++ [DQUOTE] ++ nm ++ [DQUOTE] ++ lit " {".

Definition block (lines : list str) : str :=
  lit "  " ++ join (LF :: lit "  ") lines.

Definition dot_text (nm : str) (node_lines edge_lines : list str) : str :=
  introducer_line nm ++ [LF] ++ block node_lines ++ [LF]
  ++ block edge_lines ++ [LF] ++ lit "}".

Definition node_lines (ns : list Node.t) : list str :=
  map DotEmitter.node_str ns.

Definition edge_lines (ns : list Node.t) : list str :=
  flat_map (fun n => map (DotEmitter.edge_str (Node.id n)) (Node.edges n))
           ns.

(** A node as [parseNodeDefinition] creates it, before its edges are
    read. *)
Definition without_edges (n : Node.t) : Node.t :=
  Node.mk (Node.id n) [] (Node.attributes n).

(** A piece of text that [strip] leaves as it is: it is not empty and
    neither starts nor ends with white space. *)
Definition tidy (x : str) : Prop :=
  x <> [] /\ starts_outside is_space x /\ starts_outside is_space (rev x).

Definition line_char (c : ascii) : bool := negb (is_linebreak c).

End Spec.
Import Spec.

(* ------------------------------------------------------------------ *)
(** ** Notions used in the further statements *)

Module Notions.

(** What a traversal from [s] keeps between two turns of its loop: the
    queued nodes are resident and a walk from [s] reaches each of them,
    and the nodes marked visited are resident. *)
Record tracing (g : DirectedGraph.t) (s : Node.t)
       (st : CycleFinder.state) : Prop := {
  tc_queue :
    forall m, In m (BFS.to_visit (CycleFinder.bfs st)) ->
              In m (DirectedGraph.nodes g)
              /\ walk g (Node.id s) (Node.id m);
  tc_visited :
    forall m, In m (BFS.visited (CycleFinder.bfs st)) ->
              In m (DirectedGraph.nodes g)
}.

(** The target [e] of an edge has been dealt with: a node with that id
    is marked visited. *)
Definition settled (st : CycleFinder.state) (e : str) : Prop :=
  Py.mem e (map Node.id (BFS.visited (CycleFinder.bfs st))) = true.

(** The start node is marked visited, and every visited resident node
    is still in the queue, or its edges are settled, but for the edges
    [es] of the node with id [i] that are still to be visited. *)
Definition explored (g : DirectedGraph.t) (s : Node.t) (i : str)
           (es : list str) (st : CycleFinder.state) : Prop :=
  Node.mem s (BFS.visited (CycleFinder.bfs st)) = true
  /\ forall m,
      In m (DirectedGraph.nodes g) ->
      Node.mem m (BFS.visited (CycleFinder.bfs st)) = true ->
      Node.mem m (BFS.to_visit (CycleFinder.bfs st)) = true
      \/ forall e, In e (Node.edges m) ->
                   settled st e \/ (Node.id m = i /\ In e es).

(** The bookkeeping of a traversal: what is queued is marked visited,
    and what is marked visited has a path. *)
Record booked (st : CycleFinder.state) : Prop := {
  bk_marked :
    forall m, In m (BFS.to_visit (CycleFinder.bfs st)) ->
              Node.mem m (BFS.visited (CycleFinder.bfs st)) = true;
  bk_paths :
    forall m, Node.mem m (BFS.visited (CycleFinder.bfs st)) = true ->
              exists p, CycleFinder.paths_get (CycleFinder.all_paths st) m
                        = Ok p
}.

(** A walk from [a] reaches a node with an edge to an id that is not
    resident. *)
Definition dangling (g : DirectedGraph.t) (a : str) : Prop :=
  exists b e, walk g a b /\ edge g b e /\ ~ In e (ids g).

(** The exceptions with which reading a text can end. *)
Definition parse_failure (e : exn) : Prop :=
  e = IndexError
  \/ e = AssertionError
  \/ e = Exception (lit "failed to parse introducer")
  \/ e = Exception (lit "no closing } found")
  \/ exists a, e = Exception (lit "Bad attribute " ++ [DQUOTE] ++ a
                               ++ [DQUOTE]).

(** A character that a piece of an attribute list on one line can
    hold. *)
Definition part_char (c : ascii) : bool :=
  not_char COMMA c && not_char RBRACKET c && line_char c.

(** A node as the reader builds it: a word for its id, attributes with
    distinct keys that are words and values within VALUE, and an edge
    set without repetition. *)
Definition parsed_node (n : Node.t) : Prop :=
  word_ok (Node.id n) = true
  /\ forallb attr_ok (Node.attributes n) = true
  /\ NoDup (map fst (Node.attributes n))
  /\ NoDup (Node.edges n).

(** The dict that assigning the pairs in turn builds. *)
Definition assigned (kvs : list (str * str)) : list (str * str) :=
  fold_left (fun d kv => Py.dict_set d (fst kv) (snd kv)) kvs [].

(** [maybe_push_back] for each node of a list in turn. *)
Fixpoint push_all (q : BFS.t) (l : list Node.t) : result BFS.t :=
  match l with
  | [] => Ok q
  | n :: l' => q' <- BFS.maybe_push_back q n ;; push_all q' l'
  end.

End Notions.
Import Notions.

(* ================================================================== *)
(** * Properties *)

Unset Implicit Arguments.

(** ** Text and membership *)

Lemma ascii_eqb_eq (a b : ascii) : ascii_eqb a b = true <-> a = b.
Proof. apply Ascii.eqb_eq. Qed.

Lemma ascii_eqb_refl (a : ascii) : ascii_eqb a a = true.
Proof. apply ascii_eqb_eq; reflexivity. Qed.

Lemma str_eqb_eq (a b : str) : str_eqb a b = true <-> a = b.
Proof.
  revert b; induction a as [|x a IH]; intros [|y b]; simpl;
    try (split; (reflexivity || discriminate)).
  rewrite andb_true_iff, ascii_eqb_eq, IH.
  split; [intros [-> ->]; reflexivity | intros H; inversion H; auto].
Qed.

Lemma str_eqb_refl (a : str) : str_eqb a a = true.
Proof. apply str_eqb_eq; reflexivity. Qed.

Lemma str_eqb_neq (a b : str) : str_eqb a b = false <-> a <> b.
Proof.
  rewrite <- str_eqb_eq. destruct (str_eqb a b); split; congruence.
Qed.

Lemma str_eqb_sym (a b : str) : str_eqb a b = str_eqb b a.
Proof.
  destruct (str_eqb a b) eqn:E.
  - apply str_eqb_eq in E; subst; symmetry; apply str_eqb_refl.
  - apply str_eqb_neq in E. symmetry; apply str_eqb_neq; congruence.
Qed.

Lemma Py_mem_In (x : str) (l : list str) : Py.mem x l = true <-> In x l.
Proof.
  induction l as [|y l IH]; simpl; [split; [discriminate | tauto]|].
  rewrite orb_true_iff, str_eqb_eq, IH; tauto.
Qed.

Lemma Py_mem_false (x : str) (l : list str) :
  Py.mem x l = false <-> ~ In x l.
Proof.
  rewrite <- Py_mem_In. destruct (Py.mem x l); split; congruence.
Qed.

Lemma Node_mem_In (n : Node.t) (s : list Node.t) :
  Node.mem n s = true <-> In (Node.id n) (map Node.id s).
Proof.
  induction s as [|m s IH]; simpl; [split; [discriminate | tauto]|].
  unfold Node.eqb. rewrite orb_true_iff, str_eqb_eq, IH; tauto.
Qed.

Lemma Node_mem_false (n : Node.t) (s : list Node.t) :
  Node.mem n s = false <-> ~ In (Node.id n) (map Node.id s).
Proof.
  rewrite <- Node_mem_In. destruct (Node.mem n s); split; congruence.
Qed.

Lemma getNode_Some (g : DirectedGraph.t) (i : str) (n : Node.t) :
  DirectedGraph.getNode g i = Some n ->
  In n (DirectedGraph.nodes g) /\ Node.id n = i.
Proof.
  unfold DirectedGraph.getNode; intros H.
  apply find_some in H. destruct H as [H1 H2].
  unfold Node.eqb_id in H2. apply str_eqb_eq in H2. auto.
Qed.

Lemma getNode_None (g : DirectedGraph.t) (i : str) :
  DirectedGraph.getNode g i = None <-> ~ In i (ids g).
Proof.
  unfold DirectedGraph.getNode, ids. split.
  - intros H Hin. apply in_map_iff in Hin. destruct Hin as [n [<- Hn]].
    apply (find_none _ _ H) in Hn. unfold Node.eqb_id in Hn.
    rewrite str_eqb_refl in Hn. discriminate.
  - intros H. destruct (find _ _) eqn:E; [|reflexivity].
    apply find_some in E. destruct E as [E1 E2].
    unfold Node.eqb_id in E2. apply str_eqb_eq in E2. subst.
    exfalso; apply H. apply in_map; assumption.
Qed.

Lemma getNode_present (g : DirectedGraph.t) (i : str) :
  In i (ids g) ->
  exists n, DirectedGraph.getNode g i = Some n
            /\ In n (DirectedGraph.nodes g) /\ Node.id n = i.
Proof.
  intros H. destruct (DirectedGraph.getNode g i) eqn:E.
  - exists t. split; [reflexivity | apply getNode_Some; assumption].
  - apply getNode_None in E. contradiction.
Qed.

(** ** [DirectedGraph.addEdge] *)

Lemma update_first_ids (i : str) (f : Node.t -> Node.t) (ns : list Node.t) :
  (forall s, Node.id (f s) = Node.id s) ->
  map Node.id (DirectedGraph.update_first i f ns) = map Node.id ns.
Proof.
  intros Hf. induction ns as [|s ns IH]; simpl; [reflexivity|].
  destruct (Node.eqb_id s i); simpl; [rewrite Hf | rewrite IH]; reflexivity.
Qed.

Lemma update_first_twice (i : str) (f : Node.t -> Node.t) (ns : list Node.t) :
  (forall s, Node.id (f s) = Node.id s) ->
  (forall s, f (f s) = f s) ->
  DirectedGraph.update_first i f (DirectedGraph.update_first i f ns)
  = DirectedGraph.update_first i f ns.
Proof.
  intros Hid Hf. induction ns as [|s ns IH]; simpl; [reflexivity|].
  destruct (Node.eqb_id s i) eqn:E; simpl.
  - unfold Node.eqb_id in *. rewrite Hid, E, Hf. reflexivity.
  - rewrite E, IH. reflexivity.
Qed.

Lemma update_first_find (i : str) (f : Node.t -> Node.t) (ns : list Node.t) :
  (forall s, Node.id (f s) = Node.id s) ->
  find (fun s => Node.eqb_id s i) (DirectedGraph.update_first i f ns)
  = option_map f (find (fun s => Node.eqb_id s i) ns).
Proof.
  intros Hid. induction ns as [|s ns IH]; simpl; [reflexivity|].
  destruct (Node.eqb_id s i) eqn:E; simpl.
  - unfold Node.eqb_id in *. rewrite Hid, E. reflexivity.
  - rewrite E. exact IH.
Qed.

Lemma set_add_In (x : str) (l : list str) : In x (Py.set_add x l).
Proof.
  unfold Py.set_add. destruct (Py.mem x l) eqn:E.
  - apply Py_mem_In; assumption.
  - apply in_or_app; right; left; reflexivity.
Qed.

Lemma set_add_twice (x : str) (l : list str) :
  Py.set_add x (Py.set_add x l) = Py.set_add x l.
Proof.
  unfold Py.set_add at 1.
  assert (H : Py.mem x (Py.set_add x l) = true)
    by (apply Py_mem_In, set_add_In).
  rewrite H. reflexivity.
Qed.

Lemma Node_addEdge_twice (s : Node.t) (d : str) :
  Node.addEdge (Node.addEdge s d) d = Node.addEdge s d.
Proof. unfold Node.addEdge; simpl. rewrite set_add_twice. reflexivity. Qed.

Lemma addEdge_present (g : DirectedGraph.t) (a b : str) :
  In a (ids g) -> In b (ids g) ->
  DirectedGraph.addEdge g a b
  = Ok (DirectedGraph.mk (DirectedGraph.name g)
          (DirectedGraph.update_first a (fun s => Node.addEdge s b)
                                      (DirectedGraph.nodes g))).
Proof.
  intros Ha Hb.
  destruct (getNode_present g a Ha) as [x [Hx [Hxin Hxid]]].
  destruct (getNode_present g b Hb) as [y [Hy [Hyin Hyid]]].
  unfold DirectedGraph.addEdge. rewrite Hx, Hy. simpl.
  assert (Hmx : Node.mem x (DirectedGraph.nodes g) = true)
    by (apply Node_mem_In, in_map; assumption).
  assert (Hmy : Node.mem y (DirectedGraph.nodes g) = true)
    by (apply Node_mem_In, in_map; assumption).
  rewrite Hmx, Hmy. simpl. rewrite Hxid, Hyid. reflexivity.
Qed.

Lemma addEdge_absent (g : DirectedGraph.t) (a b : str) :
  ~ In a (ids g) \/ ~ In b (ids g) ->
  DirectedGraph.addEdge g a b = Raise AssertionError.
Proof.
  intros H. unfold DirectedGraph.addEdge.
  destruct (DirectedGraph.getNode g a) as [x|] eqn:Hx; simpl.
  - destruct (getNode_Some _ _ _ Hx) as [Hxin Hxid].
    assert (Hmx : Node.mem x (DirectedGraph.nodes g) = true)
      by (apply Node_mem_In, in_map; assumption).
    rewrite Hmx. simpl.
    destruct (DirectedGraph.getNode g b) as [y|] eqn:Hy; simpl.
    + destruct (getNode_Some _ _ _ Hy) as [Hyin Hyid].
      exfalso. destruct H as [H|H]; apply H; unfold ids.
      * rewrite <- Hxid. apply in_map; assumption.
      * rewrite <- Hyid. apply in_map; assumption.
    + reflexivity.
  - reflexivity.
Qed.

(** C9.  For nodes [a] and [b] that are both in the graph, [addEdge]
    succeeds, [b] is then in the edge set of [a], and a second
    [addEdge(a, b)] gives back the very same graph; if one of the two is
    not in the graph, [addEdge] raises [AssertionError]. *)
Theorem addEdge_idempotent_and_checked (g : DirectedGraph.t) (a b : str) :
  (In a (ids g) -> In b (ids g) ->
   exists g1 na,
     DirectedGraph.addEdge g a b = Ok g1
     /\ DirectedGraph.getNode g1 a = Some na
     /\ In b (Node.edges na)
     /\ DirectedGraph.addEdge g1 a b = Ok g1)
  /\ (~ In a (ids g) \/ ~ In b (ids g) ->
      DirectedGraph.addEdge g a b = Raise AssertionError).
Proof.
  split; [|apply addEdge_absent].
  intros Ha Hb.
  set (f := fun s => Node.addEdge s b).
  assert (Hid : forall s, Node.id (f s) = Node.id s) by reflexivity.
  set (g1 := DirectedGraph.mk (DirectedGraph.name g)
               (DirectedGraph.update_first a f (DirectedGraph.nodes g))).
  destruct (getNode_present g a Ha) as [x [Hx _]].
  exists g1, (f x). split; [apply addEdge_present; assumption|].
  split.
  { unfold DirectedGraph.getNode, g1; simpl.
    rewrite update_first_find by exact Hid.
    unfold DirectedGraph.getNode in Hx. rewrite Hx. reflexivity. }
  split; [apply set_add_In|].
  assert (Hids : ids g1 = ids g)
    by (unfold ids, g1; simpl; apply update_first_ids; exact Hid).
  rewrite addEdge_present by (rewrite Hids; assumption).
  unfold g1; simpl. fold f.
  rewrite update_first_twice; [reflexivity | exact Hid |].
  intros s. apply Node_addEdge_twice.
Qed.

Lemma addEdge_idempotent_and_checked_witness :
  exists g1 na,
    DirectedGraph.addEdge Examples.labelled (lit "a") (lit "a") = Ok g1
    /\ DirectedGraph.getNode g1 (lit "a") = Some na
    /\ In (lit "a") (Node.edges na)
    /\ DirectedGraph.addEdge g1 (lit "a") (lit "a") = Ok g1.
Proof.
  apply (proj1 (addEdge_idempotent_and_checked
                  Examples.labelled (lit "a") (lit "a")));
    simpl; auto.
Defined.

(** ** [DirectedGraph.removeNode] *)

Lemma strip_edges_id (i : str) (m : Node.t) :
  Node.id (DirectedGraph.strip_edges i m) = Node.id m.
Proof.
  unfold DirectedGraph.strip_edges. destruct (Node.eqb_id m i); reflexivity.
Qed.

Lemma strip_edges_attributes (i : str) (m : Node.t) :
  Node.attributes (DirectedGraph.strip_edges i m) = Node.attributes m.
Proof.
  unfold DirectedGraph.strip_edges. destruct (Node.eqb_id m i); reflexivity.
Qed.

Lemma strip_edges_other (i : str) (m : Node.t) (e : str) :
  Node.id m <> i ->
  (In e (Node.edges (DirectedGraph.strip_edges i m))
   <-> In e (Node.edges m) /\ e <> i).
Proof.
  intros Hne. unfold DirectedGraph.strip_edges, Node.eqb_id.
  assert (E : str_eqb i (Node.id m) = false)
    by (apply str_eqb_neq; congruence).
  rewrite E. simpl. rewrite filter_In, negb_true_iff, str_eqb_neq. tauto.
Qed.

Lemma removeNode_nodes (g : DirectedGraph.t) (n : Node.t) :
  In n (DirectedGraph.nodes g) ->
  DirectedGraph.removeNode g (Node.id n)
  = Ok (DirectedGraph.mk (DirectedGraph.name g)
          (filter (fun m => negb (str_eqb (Node.id m) (Node.id n)))
                  (map (DirectedGraph.strip_edges (Node.id n))
                       (DirectedGraph.nodes g)))).
Proof.
  intros Hin.
  assert (Hp : In (Node.id n) (ids g)) by (apply in_map; assumption).
  destruct (getNode_present g _ Hp) as [n' [Hn' [_ Hid]]].
  unfold DirectedGraph.removeNode. rewrite Hn'.
  unfold Node.set_remove, Node.eqb. rewrite Hid. reflexivity.
Qed.

(** C8.  After [removeNode(n)] for a node [n] of the graph, no node of
    the graph has the id of [n], and no edge set of a remaining node
    holds [n]. *)
Theorem removeNode_cascades (g : DirectedGraph.t) (n : Node.t) :
  In n (DirectedGraph.nodes g) ->
  exists g',
    DirectedGraph.removeNode g (Node.id n) = Ok g'
    /\ ~ In (Node.id n) (ids g')
    /\ DirectedGraph.getNode g' (Node.id n) = None
    /\ forall m, In m (DirectedGraph.nodes g') ->
                 ~ In (Node.id n) (Node.edges m).
Proof.
  intros Hin. eexists. split; [apply removeNode_nodes; assumption|].
  assert (Habs : ~ In (Node.id n)
                   (ids (DirectedGraph.mk (DirectedGraph.name g)
                     (filter (fun m => negb (str_eqb (Node.id m) (Node.id n)))
                        (map (DirectedGraph.strip_edges (Node.id n))
                             (DirectedGraph.nodes g)))))).
  { unfold ids; simpl. intros H. apply in_map_iff in H.
    destruct H as [m [Hm1 Hm2]]. apply filter_In in Hm2.
    destruct Hm2 as [_ Hm2]. rewrite Hm1, str_eqb_refl in Hm2.
    discriminate. }
  split; [exact Habs|]. split; [apply getNode_None; exact Habs|].
  simpl. intros m Hm. apply filter_In in Hm. destruct Hm as [Hm1 Hm2].
  apply in_map_iff in Hm1. destruct Hm1 as [m0 [<- Hm0]].
  rewrite strip_edges_id in Hm2.
  apply negb_true_iff, str_eqb_neq in Hm2.
  rewrite strip_edges_other by assumption. tauto.
Qed.

Lemma removeNode_cascades_witness :
  exists g',
    DirectedGraph.removeNode Examples.labelled (lit "b") = Ok g'
    /\ ~ In (lit "b") (ids g')
    /\ DirectedGraph.getNode g' (lit "b") = None
    /\ forall m, In m (DirectedGraph.nodes g') ->
                 ~ In (lit "b") (Node.edges m).
Proof.
  apply (removeNode_cascades Examples.labelled Examples.lab_b).
  simpl; auto.
Defined.

(** What [removeNode] keeps: every node with another id stays, with its
    attributes and with its edges to nodes other than [n]. *)
Lemma removeNode_keeps_others (g : DirectedGraph.t) (n m0 : Node.t) :
  In n (DirectedGraph.nodes g) -> In m0 (DirectedGraph.nodes g) ->
  Node.id m0 <> Node.id n ->
  exists g' m,
    DirectedGraph.removeNode g (Node.id n) = Ok g'
    /\ In m (DirectedGraph.nodes g')
    /\ Node.id m = Node.id m0
    /\ Node.attributes m = Node.attributes m0
    /\ forall e, In e (Node.edges m)
                 <-> In e (Node.edges m0) /\ e <> Node.id n.
Proof.
  intros Hn Hm Hne. eexists.
  exists (DirectedGraph.strip_edges (Node.id n) m0).
  split; [apply removeNode_nodes; assumption|]. simpl.
  split.
  { apply filter_In. split; [apply in_map; assumption|].
    rewrite strip_edges_id. apply negb_true_iff, str_eqb_neq; assumption. }
  split; [apply strip_edges_id|].
  split; [apply strip_edges_attributes|].
  intros e. apply strip_edges_other; assumption.
Qed.

(** ** [DirectedGraph.addNode] *)

(** C3, as the code has it.  [addNode] of a node whose id is already in
    the graph raises nothing and gives the graph back as it was: the
    resident node stays and the new one is not inserted. *)
Theorem addNode_duplicate_ignored (g : DirectedGraph.t) (n : Node.t) :
  In (Node.id n) (ids g) ->
  DirectedGraph.addNode g n = Ok g.
Proof.
  intros H. unfold DirectedGraph.addNode, Node.set_add.
  apply Node_mem_In in H. rewrite H. destruct g; reflexivity.
Qed.

Lemma addNode_duplicate_ignored_witness :
  DirectedGraph.addNode Examples.labelled Examples.dup_a
  = Ok Examples.labelled.
Proof.
  apply (addNode_duplicate_ignored Examples.labelled Examples.dup_a).
  simpl; auto.
Defined.

(** C3, as the claim has it, fails: inserting a second node with the id
    [a] raises no [AssertionError], and the node found under [a] is
    still the first one. *)
Lemma addNode_duplicate_not_refused :
  In (Node.id Examples.dup_a) (ids Examples.labelled)
  /\ DirectedGraph.addNode Examples.labelled Examples.dup_a
     <> Raise AssertionError
  /\ (g <- DirectedGraph.addNode Examples.labelled Examples.dup_a ;;
      Ok (DirectedGraph.getNode g (lit "a")))
     = Ok (Some Examples.lab_a).
Proof.
  split; [simpl; auto|]. split; [discriminate | reflexivity].
Qed.

(** A node with a new id is appended. *)
Lemma addNode_fresh (g : DirectedGraph.t) (n : Node.t) :
  ~ In (Node.id n) (ids g) ->
  DirectedGraph.addNode g n
  = Ok (DirectedGraph.mk (DirectedGraph.name g)
                         (DirectedGraph.nodes g ++ [n])).
Proof.
  intros H. unfold DirectedGraph.addNode, Node.set_add.
  apply Node_mem_false in H. rewrite H. reflexivity.
Qed.

(** ** [DirectedGraph.getNodeByLabel] *)

Lemma getNodeByLabel_loop_spec (l : str) (ns : list Node.t)
      (found : option Node.t) :
  (forall n, In n ns -> has_label n) ->
  DirectedGraph.getNodeByLabel_loop l ns found
  = match found, filter (label_is l) ns with
    | _, [] => Ok found
    | None, [n] => Ok (Some n)
    | _, _ => Raise AssertionError
    end.
Proof.
  revert found. induction ns as [|s ns IH]; intros found Hlab;
    cbn [DirectedGraph.getNodeByLabel_loop filter].
  - destruct found; reflexivity.
  - assert (Hs : has_label s) by (apply Hlab; left; reflexivity).
    assert (Hns : forall n, In n ns -> has_label n)
      by (intros n Hn; apply Hlab; right; assumption).
    unfold has_label in Hs.
    assert (Hl : label_is l s
                 = match Py.dict_get (Node.attributes s) (lit "label") with
                   | Some v => str_eqb v l
                   | None => false
                   end) by reflexivity.
    rewrite Hl. clear Hl.
    destruct (Py.dict_get (Node.attributes s) (lit "label")) as [v|];
      [|congruence].
    destruct (str_eqb v l).
    + destruct found as [f|].
      * destruct (filter (label_is l) ns); reflexivity.
      * rewrite IH by assumption.
        destruct (filter (label_is l) ns); reflexivity.
    + apply IH; assumption.
Qed.

(** C5, as the code has it.  In a graph whose nodes all carry a
    ["label"] attribute, [getNodeByLabel(l)] returns [None] when no node
    has the label [l], the node when exactly one has it, and raises
    [AssertionError] when more than one has it. *)
Theorem getNodeByLabel_labelled (g : DirectedGraph.t) (l : str) :
  (forall n, In n (DirectedGraph.nodes g) -> has_label n) ->
  DirectedGraph.getNodeByLabel g l
  = match filter (label_is l) (DirectedGraph.nodes g) with
    | [] => Ok None
    | [n] => Ok (Some n)
    | _ :: _ :: _ => Raise AssertionError
    end.
Proof.
  intros H. unfold DirectedGraph.getNodeByLabel.
  rewrite getNodeByLabel_loop_spec by assumption.
  destruct (filter (label_is l) (DirectedGraph.nodes g)) as [|a [|b r]];
    reflexivity.
Qed.

Lemma getNodeByLabel_labelled_witness :
  DirectedGraph.getNodeByLabel Examples.ambiguous (lit "X")
  = Raise AssertionError
  /\ DirectedGraph.getNodeByLabel Examples.labelled (lit "B")
     = Ok (Some Examples.lab_b)
  /\ DirectedGraph.getNodeByLabel Examples.labelled (lit "C") = Ok None.
Proof.
  split; [|split].
  - rewrite (getNodeByLabel_labelled Examples.ambiguous (lit "X"));
      [reflexivity|].
    simpl; intros n [<-|[<-|[]]]; unfold has_label; simpl; discriminate.
  - rewrite (getNodeByLabel_labelled Examples.labelled (lit "B"));
      [reflexivity|].
    simpl; intros n [<-|[<-|[]]]; unfold has_label; simpl; discriminate.
  - rewrite (getNodeByLabel_labelled Examples.labelled (lit "C"));
      [reflexivity|].
    simpl; intros n [<-|[<-|[]]]; unfold has_label; simpl; discriminate.
Defined.

(** C5, as the claim has it, fails: in a graph with a node that has no
    ["label"] attribute no node matches, and the lookup raises
    [KeyError] instead of returning [None]. *)
Lemma getNodeByLabel_unlabelled_raises :
  filter (label_is (lit "X")) (DirectedGraph.nodes Examples.bare) = []
  /\ DirectedGraph.getNodeByLabel Examples.bare (lit "X") = Raise KeyError
  /\ DirectedGraph.getNodeByLabel Examples.bare (lit "X") <> Ok None.
Proof. split; [reflexivity|]. split; [reflexivity | discriminate]. Qed.

(** ** [DotReader.parse]: the introducer *)

Lemma parse_no_lines (data : str) :
  DotReader.nonblank_lines data = [] -> fromDot data = Raise IndexError.
Proof.
  intros H. unfold fromDot, DotReader.parse. rewrite H. reflexivity.
Qed.

(** With a first line that the introducer pattern rejects, the parse
    aborts with the introducer message. *)
Lemma parse_bad_introducer (data l : str) (rest : list str) :
  DotReader.nonblank_lines data = l :: rest ->
  rmatch DotReader.introducer_re l = None ->
  fromDot data = Raise (Exception (lit "failed to parse introducer")).
Proof.
  intros H Hm. unfold fromDot, DotReader.parse. rewrite H.
  unfold DotReader.parse_lines, DotReader.parseIntroducer. rewrite Hm.
  reflexivity.
Qed.

(** C6 at its failing input.  For a text without a non-blank line the
    parser indexes an empty list: it raises [IndexError], not the
    exception with the introducer message. *)
Theorem parse_blank_text_IndexError :
  fromDot [] = Raise IndexError
  /\ fromDot (lit "   " ++ [LF] ++ [LF] ++ lit " ") = Raise IndexError
  /\ fromDot [] <> Raise (Exception (lit "failed to parse introducer")).
Proof. split; [reflexivity|]. split; [reflexivity | discriminate]. Qed.

(** ** [DotReader.parseNodeDefinition]: the bare node statement *)

(** C4 at its failing input.  [DotEmitter.addNode] stores the statement
    [a;] for a node without attributes; the node pattern rejects that
    line, and so does the edge pattern, so scanning stops there and the
    parse aborts for want of a closing brace. *)
Theorem bare_node_statement_rejected :
  DotEmitter.addNode (DotEmitter.init (Some (lit "g"))) Examples.bare_a
  = Ok (DotEmitter.mk (Some (lit "g")) [(lit "a", lit "a;")] [])
  /\ rmatch DotReader.node_definition_re (lit "a;") = None
  /\ rmatch DotReader.node_definition_re (lit "a ;") = None
  /\ DotReader.parseNodeDefinition DotReader.init (lit "a;")
     = Ok (false, DotReader.init)
  /\ fromDot Examples.bare_text
     = Raise (Exception (lit "no closing } found")).
Proof. repeat split; vm_compute; reflexivity. Qed.

(** ** The cycle finder on the three-node cycle *)

Lemma perm2_cases (A : Type) (b c : A) (l : list A) :
  Permutation l [b; c] -> l = [b; c] \/ l = [c; b].
Proof.
  intros HP. pose proof (Permutation_length HP) as HL.
  destruct l as [|x [|y [|z l]]]; try discriminate.
  destruct (Permutation_vs_cons_inv HP) as [l1 [l2 E]].
  apply Permutation_sym in HP. rewrite E in HP.
  apply Permutation_cons_app_inv, Permutation_length_1_inv in HP.
  destruct l1 as [|u [|v l1]]; simpl in *.
  - subst l2. inversion E; auto.
  - inversion HP; subst. inversion E; auto.
  - discriminate.
Qed.

Lemma perm3_cases (A : Type) (a b c : A) (l : list A) :
  Permutation l [a; b; c] ->
  l = [a; b; c] \/ l = [a; c; b] \/ l = [b; a; c]
  \/ l = [b; c; a] \/ l = [c; a; b] \/ l = [c; b; a].
Proof.
  intros HP. pose proof (Permutation_length HP) as HL.
  destruct (Permutation_vs_cons_inv HP) as [l1 [l2 E]]. subst l.
  apply Permutation_sym, Permutation_cons_app_inv, Permutation_sym in HP.
  apply perm2_cases in HP.
  destruct l1 as [|u [|v [|w l1]]]; simpl in *.
  - destruct HP; subst; auto.
  - destruct HP as [HP|HP]; inversion HP; subst; auto 7.
  - destruct HP as [HP|HP]; inversion HP; subst; auto 7.
  - rewrite length_app in HL. simpl in HL. lia.
Qed.

(** C7 at its failing input.  In the graph with the edges A -> B, B -> C
    and C -> A, whatever the iteration order of its node set and the
    attributes of its nodes, [findCycleForNode] returns a witness list
    for none of the three start nodes: the traversal visits the three
    nodes and then ends with the [AssertionError] of [pop_front], and so
    does [findCyclesInGraph]. *)
Theorem three_cycle_raises (nm : option str) (a b c : list (str * str))
        (ns : list Node.t) :
  Permutation ns [Examples.cycA a; Examples.cycB b; Examples.cycC c] ->
  let g := DirectedGraph.mk nm ns in
  CycleFinder.findCycleForNode g (Examples.cycA a)
  = Some (Raise AssertionError)
  /\ CycleFinder.findCycleForNode g (Examples.cycB b)
     = Some (Raise AssertionError)
  /\ CycleFinder.findCycleForNode g (Examples.cycC c)
     = Some (Raise AssertionError)
  /\ CycleFinder.findCyclesInGraph g = Some (Raise AssertionError).
Proof.
  intros HP g. subst g. apply perm3_cases in HP.
  destruct HP as [-> | [-> | [-> | [-> | [-> | -> ]]]]];
    repeat split; reflexivity.
Qed.

Lemma three_cycle_raises_witness :
  let g := DirectedGraph.mk None
             [Examples.cycC []; Examples.cycA []; Examples.cycB []] in
  CycleFinder.findCycleForNode g (Examples.cycA [])
  = Some (Raise AssertionError)
  /\ CycleFinder.findCycleForNode g (Examples.cycB [])
     = Some (Raise AssertionError)
  /\ CycleFinder.findCycleForNode g (Examples.cycC [])
     = Some (Raise AssertionError)
  /\ CycleFinder.findCyclesInGraph g = Some (Raise AssertionError).
Proof.
  apply (three_cycle_raises None [] [] []
           [Examples.cycC []; Examples.cycA []; Examples.cycB []]).
  apply Permutation_sym.
  apply (Permutation_cons_app [Examples.cycC []] [Examples.cycB []]).
  apply perm_swap.
Defined.

(** ** The traversal of [CycleFinder.findCycleForNode] *)

Lemma filter_length_le (A : Type) (f f' : A -> bool) (l : list A) :
  (forall y, f' y = true -> f y = true) ->
  length (filter f' l) <= length (filter f l).
Proof.
  intros H. induction l as [|y l IH]; simpl; [lia|].
  destruct (f' y) eqn:E'.
  - rewrite (H y E'). simpl. lia.
  - destruct (f y); simpl; lia.
Qed.

Lemma filter_length_lt (A : Type) (f f' : A -> bool) (l : list A) (x : A) :
  (forall y, f' y = true -> f y = true) ->
  In x l -> f x = true -> f' x = false ->
  length (filter f' l) < length (filter f l).
Proof.
  intros H. induction l as [|y l IH]; simpl; [tauto|].
  intros [->|Hin] Hf Hf'.
  - rewrite Hf, Hf'. simpl.
    pose proof (filter_length_le _ f f' l H). lia.
  - specialize (IH Hin Hf Hf'). destruct (f' y) eqn:E'.
    + rewrite (H y E'). simpl. lia.
    + destruct (f y); simpl; lia.
Qed.

Lemma Node_mem_app (m : Node.t) (v w : list Node.t) :
  Node.mem m (v ++ w) = Node.mem m v || Node.mem m w.
Proof.
  induction v as [|x v IH]; simpl; [reflexivity|].
  rewrite IH, orb_assoc. reflexivity.
Qed.

Lemma Node_mem_ids (m : Node.t) (v : list Node.t) :
  Node.mem m v = Py.mem (Node.id m) (map Node.id v).
Proof.
  induction v as [|x v IH]; simpl; [reflexivity|].
  unfold Node.eqb. rewrite IH. reflexivity.
Qed.

Lemma Node_eqb_eq (a b : Node.t) :
  Node.eqb a b = true <-> Node.id a = Node.id b.
Proof. unfold Node.eqb. apply str_eqb_eq. Qed.

Lemma Node_eqb_refl (a : Node.t) : Node.eqb a a = true.
Proof. apply Node_eqb_eq; reflexivity. Qed.

Lemma Node_mem_eqb (a b : Node.t) (v : list Node.t) :
  Node.eqb a b = true -> Node.mem a v = Node.mem b v.
Proof.
  intros H. apply Node_eqb_eq in H. rewrite !Node_mem_ids, H. reflexivity.
Qed.

Lemma Node_set_add_fresh (n : Node.t) (v : list Node.t) :
  Node.mem n v = false -> Node.set_add n v = v ++ [n].
Proof. intros H. unfold Node.set_add. rewrite H. reflexivity. Qed.

Lemma unvisited_push (g : DirectedGraph.t) (v : list Node.t) (en : Node.t) :
  In (Node.id en) (ids g) -> Node.mem en v = false ->
  length (unvisited g (v ++ [en])) < length (unvisited g v).
Proof.
  intros Hin Hm. unfold unvisited.
  apply filter_length_lt with (x := Node.id en); [|exact Hin| |].
  - intros i.
    rewrite !negb_true_iff, <- !Node_mem_ids with (m := Node.mk i [] []).
    rewrite Node_mem_app. intros H. apply orb_false_iff in H. tauto.
  - rewrite <- Node_mem_ids, Hm. reflexivity.
  - rewrite <- Node_mem_ids, Node_mem_app. simpl.
    rewrite Node_eqb_refl, orb_true_r. reflexivity.
Qed.

Lemma unvisited_start (g : DirectedGraph.t) (n : Node.t) :
  In (Node.id n) (ids g) ->
  length (unvisited g [n]) < length (DirectedGraph.nodes g).
Proof.
  intros Hin.
  replace (length (DirectedGraph.nodes g))
    with (length (filter (fun _ => true) (ids g))).
  - unfold unvisited.
    apply filter_length_lt with (x := Node.id n); auto.
    rewrite <- Node_mem_ids. simpl. rewrite Node_eqb_refl. reflexivity.
  - unfold ids. clear Hin.
    induction (DirectedGraph.nodes g); simpl; auto.
Qed.

Lemma paths_get_set_same (d : CycleFinder.paths) (n m : Node.t)
      (p : CycleFinder.path) :
  Node.eqb n m = true ->
  CycleFinder.paths_get (CycleFinder.paths_set d n p) m = Ok p.
Proof.
  intros H. apply Node_eqb_eq in H.
  induction d as [|[k q] d IH]; simpl.
  - unfold Node.eqb. rewrite H, str_eqb_refl. reflexivity.
  - destruct (Node.eqb k n) eqn:E; simpl.
    + apply Node_eqb_eq in E.
      unfold Node.eqb. rewrite E, H, str_eqb_refl. reflexivity.
    + assert (E' : Node.eqb k m = false).
      { unfold Node.eqb in *. rewrite <- H. exact E. }
      rewrite E'. exact IH.
Qed.

Lemma paths_get_set_other (d : CycleFinder.paths) (n m : Node.t)
      (p : CycleFinder.path) :
  Node.eqb n m = false ->
  CycleFinder.paths_get (CycleFinder.paths_set d n p) m
  = CycleFinder.paths_get d m.
Proof.
  intros H. induction d as [|[k q] d IH]; simpl.
  - rewrite H. reflexivity.
  - destruct (Node.eqb k n) eqn:E; simpl.
    + assert (E' : Node.eqb k m = false).
      { apply Node_eqb_eq in E. unfold Node.eqb in *. rewrite E. exact H. }
      rewrite E'. reflexivity.
    + destruct (Node.eqb k m); [reflexivity | exact IH].
Qed.

(** What a successful [visit_edge] did. *)
Lemma visit_edge_inv (g : DirectedGraph.t) (n : Node.t)
      (st st' : CycleFinder.state) (e : str) :
  CycleFinder.visit_edge g n st e = Ok st' ->
  exists en,
    DirectedGraph.getNode g e = Some en
    /\ ((BFS.seen (CycleFinder.bfs st) en = true
         /\ CycleFinder.bfs st' = CycleFinder.bfs st
         /\ CycleFinder.all_paths st' = CycleFinder.all_paths st)
        \/ (BFS.seen (CycleFinder.bfs st) en = false
            /\ exists p,
                CycleFinder.paths_get (CycleFinder.all_paths st) n = Ok p
                /\ CycleFinder.bfs st'
                   = BFS.mk (BFS.visited (CycleFinder.bfs st) ++ [en])
                            (BFS.to_visit (CycleFinder.bfs st) ++ [en])
                            (BFS.start (CycleFinder.bfs st))
                /\ CycleFinder.all_paths st'
                   = CycleFinder.paths_set (CycleFinder.all_paths st) en
                                           (p ++ [en])))
    /\ ((Node.eqb en (BFS.start (CycleFinder.bfs st)) = false
         /\ CycleFinder.all_cycles st' = CycleFinder.all_cycles st)
        \/ (Node.eqb en (BFS.start (CycleFinder.bfs st)) = true
            /\ exists p',
                CycleFinder.paths_get (CycleFinder.all_paths st') n = Ok p'
                /\ CycleFinder.all_cycles st'
                   = CycleFinder.all_cycles st ++ [p'])).
Proof.
  unfold CycleFinder.visit_edge. intros H.
  destruct (DirectedGraph.getNode g e) as [en|]; [|discriminate].
  exists en. split; [reflexivity|].
  destruct st as [[v q s] ps cs]. unfold BFS.seen in *. simpl in *.
  destruct (Node.mem en v) eqn:Hseen; simpl in H.
  - destruct (Node.eqb en s) eqn:Hs.
    + destruct (CycleFinder.paths_get ps n) as [p|] eqn:Hp; simpl in H;
        [|discriminate].
      inversion H; subst; simpl. split; [left; auto|].
      right. split; [reflexivity|]. exists p. auto.
    + inversion H; subst; simpl. split; [left; auto|]. left; auto.
  - destruct (CycleFinder.paths_get ps n) as [p|] eqn:Hp; simpl in H;
      [|discriminate].
    unfold BFS.push_back in H. simpl in H. rewrite Hseen in H. simpl in H.
    rewrite (Node_set_add_fresh _ _ Hseen) in H.
    destruct (Node.eqb en s) eqn:Hs.
    + destruct (CycleFinder.paths_get
                  (CycleFinder.paths_set ps en (p ++ [en])) n)
        as [p'|] eqn:Hp'; simpl in H; [|discriminate].
      inversion H; subst; simpl. split.
      * right. split; [reflexivity|]. exists p. auto.
      * right. split; [reflexivity|]. exists p'. auto.
    + inversion H; subst; simpl. split.
      * right. split; [reflexivity|]. exists p. auto.
      * left; auto.
Qed.

Lemma visit_edge_work (g : DirectedGraph.t) (n : Node.t)
      (st st' : CycleFinder.state) (e : str) :
  CycleFinder.visit_edge g n st e = Ok st' ->
  work g st' <= work g st.
Proof.
  intros H. apply visit_edge_inv in H.
  destruct H as [en [Hen [[[Hseen [Hb _]]|[Hseen [p [_ [Hb _]]]]] _]]];
    unfold work; rewrite Hb; [lia|]. simpl.
  destruct (getNode_Some _ _ _ Hen) as [Hin Hid].
  assert (Hlt : length (unvisited g (BFS.visited (CycleFinder.bfs st) ++ [en]))
                < length (unvisited g (BFS.visited (CycleFinder.bfs st)))).
  { apply unvisited_push; [|exact Hseen].
    unfold ids. apply in_map; assumption. }
  rewrite length_app. simpl. lia.
Qed.

Lemma visit_edges_work (g : DirectedGraph.t) (n : Node.t) (es : list str) :
  forall st st',
    CycleFinder.visit_edges g n st es = Ok st' ->
    work g st' <= work g st.
Proof.
  induction es as [|e es IH]; simpl; intros st st' H.
  - inversion H; lia.
  - destruct (CycleFinder.visit_edge g n st e) as [st1|] eqn:E;
      simpl in H; [|discriminate].
    apply visit_edge_work in E. apply IH in H. lia.
Qed.

Lemma paths_has_get (d : CycleFinder.paths) (n : Node.t) :
  CycleFinder.paths_has d n = true
  <-> exists p, CycleFinder.paths_get d n = Ok p.
Proof.
  induction d as [|[m q] d IH]; simpl.
  - split; [discriminate | intros [p H]; discriminate].
  - destruct (Node.eqb m n); simpl; [split; eauto | exact IH].
Qed.

Lemma loop_step (fuel : nat) (g : DirectedGraph.t) (st : CycleFinder.state)
      (n : Node.t) (rest : list Node.t) :
  BFS.to_visit (CycleFinder.bfs st) = n :: rest ->
  CycleFinder.loop (S fuel) g st
  = match
      (_ <- assert (CycleFinder.paths_has (CycleFinder.all_paths st) n) ;;
       CycleFinder.visit_edges g n
         (CycleFinder.mk
            (BFS.mk (BFS.visited (CycleFinder.bfs st)) rest
                    (BFS.start (CycleFinder.bfs st)))
            (CycleFinder.all_paths st) (CycleFinder.all_cycles st))
         (Node.edges n))
    with
    | Raise e => Some (Raise e)
    | Ok st' => CycleFinder.loop fuel g st'
    end.
Proof.
  intros H. simpl. unfold BFS.pop_front. rewrite H. reflexivity.
Qed.

(** The turn that finds the queue empty ends the loop with the
    [AssertionError] of [pop_front]. *)
Lemma loop_done (fuel : nat) (g : DirectedGraph.t) (st : CycleFinder.state) :
  BFS.to_visit (CycleFinder.bfs st) = [] ->
  CycleFinder.loop (S fuel) g st = Some (Raise AssertionError).
Proof.
  intros H. simpl. unfold BFS.pop_front. rewrite H. reflexivity.
Qed.

(** More fuel does not change an outcome. *)
Lemma loop_fuel_mono (g : DirectedGraph.t) (fuel : nat) :
  forall st r fuel',
    CycleFinder.loop fuel g st = Some r -> fuel <= fuel' ->
    CycleFinder.loop fuel' g st = Some r.
Proof.
  induction fuel as [|fuel IH]; intros st r fuel' H Hle; [discriminate|].
  destruct fuel' as [|fuel']; [lia|].
  destruct (BFS.to_visit (CycleFinder.bfs st)) as [|n rest] eqn:Hq.
  - rewrite loop_done in H by assumption.
    rewrite loop_done by assumption. exact H.
  - rewrite (loop_step fuel _ _ _ _ Hq) in H.
    rewrite (loop_step fuel' _ _ _ _ Hq).
    destruct (_ <- assert (CycleFinder.paths_has
                             (CycleFinder.all_paths st) n) ;;
              CycleFinder.visit_edges g n _ (Node.edges n));
      [|exact H].
    apply IH; [exact H | lia].
Qed.

(** The loop returns no list: whatever it ends with is an exception. *)
Lemma loop_never_returns (g : DirectedGraph.t) (fuel : nat) :
  forall st r, CycleFinder.loop fuel g st = Some r -> exists e, r = Raise e.
Proof.
  induction fuel as [|fuel IH]; intros st r H; [discriminate|].
  destruct (BFS.to_visit (CycleFinder.bfs st)) as [|n rest] eqn:Hq.
  - rewrite loop_done in H by assumption. inversion H. eauto.
  - rewrite (loop_step fuel _ _ _ _ Hq) in H.
    destruct (_ <- assert (CycleFinder.paths_has
                             (CycleFinder.all_paths st) n) ;;
              CycleFinder.visit_edges g n _ (Node.edges n))
      as [st'|e]; [apply (IH _ _ H) | inversion H; eauto].
Qed.

Lemma visit_edge_progress (g : DirectedGraph.t) (n en : Node.t)
      (st : CycleFinder.state) (e : str) (p : CycleFinder.path) :
  DirectedGraph.getNode g e = Some en ->
  CycleFinder.paths_get (CycleFinder.all_paths st) n = Ok p ->
  Node.mem n (BFS.visited (CycleFinder.bfs st)) = true ->
  exists st', CycleFinder.visit_edge g n st e = Ok st'.
Proof.
  intros Hen Hp Hn. unfold CycleFinder.visit_edge. rewrite Hen.
  destruct st as [[v q s] ps cs]. unfold BFS.seen. simpl in *.
  destruct (Node.mem en v) eqn:Hseen; simpl.
  - destruct (Node.eqb en s); [rewrite Hp; simpl|]; eauto.
  - rewrite Hp. simpl. unfold BFS.push_back. simpl. rewrite Hseen. simpl.
    destruct (Node.eqb en s); [|eauto].
    rewrite paths_get_set_other, Hp; [simpl; eauto|].
    destruct (Node.eqb en n) eqn:E; [|reflexivity].
    rewrite (Node_mem_eqb _ _ _ E) in Hseen. congruence.
Qed.

Lemma visit_edge_booked (g : DirectedGraph.t) (n : Node.t)
      (st st' : CycleFinder.state) (e : str) :
  booked st -> CycleFinder.visit_edge g n st e = Ok st' -> booked st'.
Proof.
  intros [Hm Hp] H. apply visit_edge_inv in H.
  destruct H as [en [_ [[[_ [Hb Hps]]|[_ [p [_ [Hb Hps]]]]] _]]];
    split; rewrite Hb; rewrite ?Hps; simpl; auto.
  - intros m Hin. rewrite Node_mem_app. apply in_app_or in Hin.
    destruct Hin as [Hin|[<-|[]]].
    + rewrite (Hm m Hin). reflexivity.
    + simpl. rewrite Node_eqb_refl, orb_true_r. reflexivity.
  - intros m Hv. destruct (Node.eqb en m) eqn:E.
    + rewrite paths_get_set_same by exact E. eauto.
    + rewrite paths_get_set_other by exact E. apply Hp.
      rewrite Node_mem_app in Hv. simpl in Hv. rewrite E in Hv.
      simpl in Hv. rewrite orb_false_r in Hv. exact Hv.
Qed.

Lemma visit_edge_visited (g : DirectedGraph.t) (n m : Node.t)
      (st st' : CycleFinder.state) (e : str) :
  CycleFinder.visit_edge g n st e = Ok st' ->
  Node.mem m (BFS.visited (CycleFinder.bfs st)) = true ->
  Node.mem m (BFS.visited (CycleFinder.bfs st')) = true.
Proof.
  intros H Hm. apply visit_edge_inv in H.
  destruct H as [en [_ [[[_ [-> _]]|[_ [p [_ [-> _]]]]] _]]]; [exact Hm|].
  simpl. rewrite Node_mem_app, Hm. reflexivity.
Qed.

Lemma visit_edge_queue (g : DirectedGraph.t) (n m : Node.t)
      (st st' : CycleFinder.state) (e : str) :
  CycleFinder.visit_edge g n st e = Ok st' ->
  In m (BFS.to_visit (CycleFinder.bfs st')) ->
  In m (BFS.to_visit (CycleFinder.bfs st)) \/ In m (DirectedGraph.nodes g).
Proof.
  intros H Hm. apply visit_edge_inv in H.
  destruct H as [en [Hen [[[_ [Hb _]]|[_ [p [_ [Hb _]]]]] _]]];
    rewrite Hb in Hm; [left; exact Hm|].
  simpl in Hm. apply in_app_or in Hm. destruct Hm as [Hm|[<-|[]]];
    [left; exact Hm|].
  right. apply (getNode_Some _ _ _ Hen).
Qed.

(** The edges of a dequeued node are visited to the end, unless one of
    them leads to an id that is not resident. *)
Lemma visit_edges_steps (g : DirectedGraph.t) (n : Node.t) (es : list str) :
  forall st,
    booked st ->
    Node.mem n (BFS.visited (CycleFinder.bfs st)) = true ->
    (exists st',
        CycleFinder.visit_edges g n st es = Ok st'
        /\ booked st'
        /\ forall m, In m (BFS.to_visit (CycleFinder.bfs st')) ->
                     In m (BFS.to_visit (CycleFinder.bfs st))
                     \/ In m (DirectedGraph.nodes g))
    \/ (CycleFinder.visit_edges g n st es = Raise AttributeError
        /\ exists e, In e es /\ ~ In e (ids g)).
Proof.
  induction es as [|e es IH]; intros st Hbk Hn.
  - left. exists st. split; [reflexivity|]. split; [exact Hbk|]. auto.
  - cbn [CycleFinder.visit_edges].
    destruct (DirectedGraph.getNode g e) as [en|] eqn:Hen.
    + destruct (bk_paths Hbk n Hn) as [p Hp].
      destruct (visit_edge_progress g n en st e p Hen Hp Hn) as [st1 H1].
      rewrite H1. cbn [bind].
      destruct (IH st1 (visit_edge_booked g n st st1 e Hbk H1)
                   (visit_edge_visited g n n st st1 e H1 Hn))
        as [[st' [H2 [Hbk' Hq]]]|[Hraise [e' [He' Hout]]]].
      * left. exists st'. split; [exact H2|]. split; [exact Hbk'|].
        intros m Hm. destruct (Hq m Hm) as [Hm1|Hm1]; [|right; exact Hm1].
        apply (visit_edge_queue g n m st st1 e H1 Hm1).
      * right. split; [exact Hraise|]. exists e'.
        split; [right; exact He' | exact Hout].
    + right. split.
      * unfold CycleFinder.visit_edge. rewrite Hen. reflexivity.
      * exists e. split; [left; reflexivity|].
        apply getNode_None. exact Hen.
Qed.

Lemma popped_booked (n : Node.t) (rest : list Node.t)
      (st : CycleFinder.state) :
  booked st -> BFS.to_visit (CycleFinder.bfs st) = n :: rest ->
  booked
    (CycleFinder.mk
       (BFS.mk (BFS.visited (CycleFinder.bfs st)) rest
               (BFS.start (CycleFinder.bfs st)))
       (CycleFinder.all_paths st) (CycleFinder.all_cycles st)).
Proof.
  intros [Hm Hp] Hq. split; simpl.
  - intros m Hin. apply Hm. rewrite Hq. right; exact Hin.
  - exact Hp.
Qed.

Lemma popped_has_path (n : Node.t) (rest : list Node.t)
      (st : CycleFinder.state) :
  booked st -> BFS.to_visit (CycleFinder.bfs st) = n :: rest ->
  Node.mem n (BFS.visited (CycleFinder.bfs st)) = true
  /\ CycleFinder.paths_has (CycleFinder.all_paths st) n = true.
Proof.
  intros Hbk Hq.
  assert (Hn : Node.mem n (BFS.visited (CycleFinder.bfs st)) = true)
    by (apply (bk_marked Hbk); rewrite Hq; left; reflexivity).
  split; [exact Hn|]. apply paths_has_get. apply (bk_paths Hbk n Hn).
Qed.

(** The loop ends with the [AssertionError] of [pop_front] or with the
    [AttributeError] of an edge that leads nowhere. *)
Lemma loop_raises (g : DirectedGraph.t) (fuel : nat) :
  forall st,
    booked st -> work g st < fuel ->
    CycleFinder.loop fuel g st = Some (Raise AssertionError)
    \/ CycleFinder.loop fuel g st = Some (Raise AttributeError).
Proof.
  induction fuel as [|fuel IH]; intros st Hbk Hw; [lia|].
  destruct (BFS.to_visit (CycleFinder.bfs st)) as [|n rest] eqn:Hq.
  - left. apply loop_done. exact Hq.
  - rewrite (loop_step fuel _ _ _ _ Hq).
    destruct (popped_has_path n rest st Hbk Hq) as [Hn Hp].
    rewrite Hp. cbn [assert bind].
    destruct (visit_edges_steps g n (Node.edges n) _
                (popped_booked n rest st Hbk Hq) Hn)
      as [[st' [H1 [Hbk' _]]]|[Hraise _]].
    + rewrite H1. apply IH; [exact Hbk'|].
      apply visit_edges_work in H1. unfold work in *. simpl in H1.
      rewrite Hq in Hw. simpl in Hw. lia.
    + right. rewrite Hraise. reflexivity.
Qed.

(** In a graph whose edges lead to resident nodes the loop ends with the
    [AssertionError] of [pop_front]. *)
Lemma loop_closed (g : DirectedGraph.t) :
  closed g ->
  forall fuel st,
    booked st ->
    (forall m, In m (BFS.to_visit (CycleFinder.bfs st)) ->
               In m (DirectedGraph.nodes g)) ->
    work g st < fuel ->
    CycleFinder.loop fuel g st = Some (Raise AssertionError).
Proof.
  intros Hclosed. induction fuel as [|fuel IH]; intros st Hbk Hres Hw; [lia|].
  destruct (BFS.to_visit (CycleFinder.bfs st)) as [|n rest] eqn:Hq.
  - apply loop_done. exact Hq.
  - rewrite (loop_step fuel _ _ _ _ Hq).
    destruct (popped_has_path n rest st Hbk Hq) as [Hn Hp].
    rewrite Hp. cbn [assert bind].
    destruct (visit_edges_steps g n (Node.edges n) _
                (popped_booked n rest st Hbk Hq) Hn)
      as [[st' [H1 [Hbk' Hq']]]|[_ [e [He Hout]]]].
    + rewrite H1. apply IH; [exact Hbk'| |].
      * intros m Hm. destruct (Hq' m Hm) as [Hm1|Hm1]; [|exact Hm1].
        apply Hres. right. exact Hm1.
      * apply visit_edges_work in H1. unfold work in *. simpl in H1.
        rewrite Hq in Hw. simpl in Hw. lia.
    + exfalso. apply Hout. apply (Hclosed n e); [|exact He].
      apply Hres. left. reflexivity.
Qed.

Lemma findCycleForNode_fuel_unfold (fuel : nat) (g : DirectedGraph.t)
      (n : Node.t) :
  In (Node.id n) (ids g) ->
  CycleFinder.findCycleForNode_fuel fuel g n
  = CycleFinder.loop fuel g
      (CycleFinder.mk (BFS.mk [n] [n] n) [(n, [n])] []).
Proof.
  intros H. unfold CycleFinder.findCycleForNode_fuel.
  apply Node_mem_In in H. rewrite H. reflexivity.
Qed.

Lemma initial_work (g : DirectedGraph.t) (n : Node.t) :
  In (Node.id n) (ids g) ->
  work g (CycleFinder.mk (BFS.mk [n] [n] n) [(n, [n])] [])
  < CycleFinder.turns g.
Proof.
  intros H. unfold work, CycleFinder.turns. simpl.
  pose proof (unvisited_start g n H). lia.
Qed.

Lemma initial_booked (n : Node.t) :
  booked (CycleFinder.mk (BFS.mk [n] [n] n) [(n, [n])] []).
Proof.
  split; simpl.
  - intros m [<-|[]]. rewrite Node_eqb_refl. reflexivity.
  - intros m Hm. rewrite orb_false_r in Hm. rewrite Hm. eauto.
Qed.

(** [findCycleForNode] returns no list, whatever the graph and the
    node. *)
Lemma findCycleForNode_never_returns (g : DirectedGraph.t) (n : Node.t)
      (cycles : list CycleFinder.path) :
  CycleFinder.findCycleForNode g n <> Some (Ok cycles).
Proof.
  unfold CycleFinder.findCycleForNode.
  destruct (Node.mem n (DirectedGraph.nodes g)) eqn:Hm.
  - apply Node_mem_In in Hm.
    rewrite findCycleForNode_fuel_unfold by exact Hm.
    intros H. apply loop_never_returns in H.
    destruct H as [e H]. discriminate.
  - unfold CycleFinder.findCycleForNode_fuel. rewrite Hm. discriminate.
Qed.

(** It ends, and it ends with [AssertionError] or [AttributeError]. *)
Lemma findCycleForNode_raises (g : DirectedGraph.t) (n : Node.t) :
  CycleFinder.findCycleForNode g n = Some (Raise AssertionError)
  \/ CycleFinder.findCycleForNode g n = Some (Raise AttributeError).
Proof.
  unfold CycleFinder.findCycleForNode.
  destruct (Node.mem n (DirectedGraph.nodes g)) eqn:Hm.
  - apply Node_mem_In in Hm.
    rewrite findCycleForNode_fuel_unfold by exact Hm.
    apply loop_raises; [apply initial_booked | apply initial_work; exact Hm].
  - left. unfold CycleFinder.findCycleForNode_fuel. rewrite Hm. reflexivity.
Qed.

(** In a graph whose edges lead to resident nodes it ends with
    [AssertionError] for every node of the graph. *)
Lemma findCycleForNode_closed (g : DirectedGraph.t) (n : Node.t) :
  closed g -> In n (DirectedGraph.nodes g) ->
  CycleFinder.findCycleForNode g n = Some (Raise AssertionError).
Proof.
  intros Hclosed Hn.
  assert (Hid : In (Node.id n) (ids g)) by (apply in_map; exact Hn).
  unfold CycleFinder.findCycleForNode.
  rewrite findCycleForNode_fuel_unfold by exact Hid.
  apply (loop_closed g Hclosed); [apply initial_booked | |
                                  apply initial_work; exact Hid].
  intros m [<-|[]]. exact Hn.
Qed.

Lemma closed_labelled : closed Examples.labelled.
Proof.
  intros n e Hn He. simpl in Hn.
  destruct Hn as [<-|[<-|[]]]; simpl in He; simpl; intuition.
Qed.

(** Whatever the graph, a successful [visit_edge] keeps the dequeued
    node marked and its path in place, only extends the witness list,
    and records that path when the edge leads to the start node. *)
Lemma visit_edge_stable (g : DirectedGraph.t) (n : Node.t)
      (st st' : CycleFinder.state) (e : str) (p0 : CycleFinder.path) :
  CycleFinder.visit_edge g n st e = Ok st' ->
  Node.mem n (BFS.visited (CycleFinder.bfs st)) = true ->
  CycleFinder.paths_get (CycleFinder.all_paths st) n = Ok p0 ->
  Node.mem n (BFS.visited (CycleFinder.bfs st')) = true
  /\ CycleFinder.paths_get (CycleFinder.all_paths st') n = Ok p0
  /\ BFS.start (CycleFinder.bfs st') = BFS.start (CycleFinder.bfs st)
  /\ (exists extra,
        CycleFinder.all_cycles st' = CycleFinder.all_cycles st ++ extra)
  /\ (e = Node.id (BFS.start (CycleFinder.bfs st)) ->
      In p0 (CycleFinder.all_cycles st')).
Proof.
  intros H Hm Hp. apply visit_edge_inv in H.
  destruct H as [en [Hen [Hbfs Hcs]]].
  destruct (getNode_Some _ _ _ Hen) as [_ Hid].
  assert (Hfacts :
            Node.mem n (BFS.visited (CycleFinder.bfs st')) = true
            /\ CycleFinder.paths_get (CycleFinder.all_paths st') n = Ok p0
            /\ BFS.start (CycleFinder.bfs st')
               = BFS.start (CycleFinder.bfs st)).
  { destruct Hbfs as [[_ [-> ->]]|[Hseen [p [_ [-> ->]]]]]; [auto|].
    simpl. rewrite Node_mem_app, Hm. split; [reflexivity|]. split; [|auto].
    rewrite paths_get_set_other; [exact Hp|].
    destruct (Node.eqb en n) eqn:E; [|reflexivity].
    unfold BFS.seen in Hseen.
    rewrite (Node_mem_eqb _ _ _ E) in Hseen. congruence. }
  destruct Hfacts as [Hm' [Hp' Hs']].
  split; [exact Hm'|]. split; [exact Hp'|]. split; [exact Hs'|]. split.
  - destruct Hcs as [[_ ->]|[_ [p' [_ ->]]]].
    + exists []. rewrite app_nil_r. reflexivity.
    + exists [p']. reflexivity.
  - intros ->. destruct Hcs as [[E _]|[_ [p' [Hp'' ->]]]].
    + apply str_eqb_neq in E. congruence.
    + rewrite Hp' in Hp''. inversion Hp''; subst.
      apply in_or_app; right; left; reflexivity.
Qed.

Lemma visit_edges_stable (g : DirectedGraph.t) (n : Node.t)
      (p0 : CycleFinder.path) (es : list str) :
  forall st st',
    CycleFinder.visit_edges g n st es = Ok st' ->
    Node.mem n (BFS.visited (CycleFinder.bfs st)) = true ->
    CycleFinder.paths_get (CycleFinder.all_paths st) n = Ok p0 ->
    (exists extra,
        CycleFinder.all_cycles st' = CycleFinder.all_cycles st ++ extra)
    /\ (In (Node.id (BFS.start (CycleFinder.bfs st))) es ->
        In p0 (CycleFinder.all_cycles st')).
Proof.
  induction es as [|e es IH]; simpl; intros st st' H Hm Hp.
  - inversion H; subst. split; [|tauto].
    exists []. rewrite app_nil_r. reflexivity.
  - destruct (CycleFinder.visit_edge g n st e) as [st1|] eqn:E;
      simpl in H; [|discriminate].
    destruct (visit_edge_stable g n st st1 e p0 E Hm Hp)
      as [Hm1 [Hp1 [Hs1 [[x1 Hx1] Hrec1]]]].
    destruct (IH st1 st' H Hm1 Hp1) as [[x2 Hx2] Hrec2].
    split.
    + exists (x1 ++ x2). rewrite Hx2, Hx1, app_assoc. reflexivity.
    + intros [Hin|Hin].
      * rewrite Hx2. apply in_or_app; left. apply Hrec1. auto.
      * apply Hrec2. rewrite Hs1. exact Hin.
Qed.

(** The first turn of the loop for a start node with an edge to itself:
    the node is marked visited by then, the comparison with the start
    node is made all the same, and the one-node path is appended to
    [all_cycles]. *)
Lemma self_loop_recorded (g : DirectedGraph.t) (s : Node.t)
      (st' : CycleFinder.state) :
  In (Node.id s) (Node.edges s) ->
  CycleFinder.visit_edges g s
    (CycleFinder.mk (BFS.mk [s] [] s) [(s, [s])] []) (Node.edges s)
  = Ok st' ->
  In [s] (CycleFinder.all_cycles st').
Proof.
  intros Hself E. apply (visit_edges_stable g s [s]) in E.
  - destruct E as [_ Hrec]. apply Hrec. exact Hself.
  - simpl. rewrite Node_eqb_refl. reflexivity.
  - simpl. rewrite Node_eqb_refl. reflexivity.
Qed.

(** C10 at its failing input, and for every graph.  For a resident node
    [s] with an edge to itself the first turn of the loop does append
    the one-node path to [all_cycles], although [s] is marked visited by
    then.  But [findCycleForNode(s)], as for every node, returns no
    witness list: the loop, whose condition always holds, ends with the
    [AssertionError] of [pop_front] once the queue is empty (that is how
    it ends whenever the edges of the graph lead to resident nodes), or
    with the [AttributeError] of an edge that leads nowhere.  What the
    loop has recorded by then is lost. *)
Theorem self_loop_never_returned :
  (forall (g : DirectedGraph.t) (s : Node.t),
      In s (DirectedGraph.nodes g) -> In (Node.id s) (Node.edges s) ->
      (forall st',
          CycleFinder.visit_edges g s
            (CycleFinder.mk (BFS.mk [s] [] s) [(s, [s])] []) (Node.edges s)
          = Ok st' ->
          In [s] (CycleFinder.all_cycles st'))
      /\ (forall cycles,
             CycleFinder.findCycleForNode g s <> Some (Ok cycles))
      /\ (CycleFinder.findCycleForNode g s = Some (Raise AssertionError)
          \/ CycleFinder.findCycleForNode g s = Some (Raise AttributeError))
      /\ (closed g ->
          (exists st',
              CycleFinder.visit_edges g s
                (CycleFinder.mk (BFS.mk [s] [] s) [(s, [s])] [])
                (Node.edges s)
              = Ok st'
              /\ In [s] (CycleFinder.all_cycles st'))
          /\ CycleFinder.findCycleForNode g s
             = Some (Raise AssertionError)))
  /\ CycleFinder.findCycleForNode Examples.labelled Examples.lab_b
     = Some (Raise AssertionError).
Proof.
  split; [|reflexivity].
  intros g s Hs Hself. split; [|split; [|split]].
  - intros st' E. apply (self_loop_recorded g s st' Hself E).
  - intros cycles. apply findCycleForNode_never_returns.
  - apply findCycleForNode_raises.
  - intros Hclosed. split; [|apply (findCycleForNode_closed g s Hclosed Hs)].
    destruct (visit_edges_steps g s (Node.edges s)
                (CycleFinder.mk (BFS.mk [s] [] s) [(s, [s])] [])
                (popped_booked s [] _ (initial_booked s) eq_refl))
      as [[st' [E _]]|[_ [e [He Hout]]]].
    + simpl. rewrite Node_eqb_refl. reflexivity.
    + exists st'. split; [exact E|].
      apply (self_loop_recorded g s st' Hself E).
    + exfalso. apply Hout. apply (Hclosed s e Hs He).
Qed.

(** ** [CycleFinder.findCyclesInGraph] *)

Lemma findCyclesInGraph_first (g : DirectedGraph.t) (n : Node.t)
      (ns : list Node.t) (acc : list (Node.t * list CycleFinder.path))
      (e : exn) :
  CycleFinder.findCycleForNode g n = Some (Raise e) ->
  CycleFinder.findCyclesInGraph_loop g (n :: ns) acc = Some (Raise e).
Proof. intros H. simpl. rewrite H. reflexivity. Qed.

(** C2 at its failing input, and for every graph.  On the chain A -> B,
    B -> C, as on every graph with a node whose edges lead to resident
    nodes, [findCyclesInGraph] raises the [AssertionError] with which
    the traversal from the first node ends; it returns a result for the
    graph without nodes only, and that result is empty. *)
Theorem findCyclesInGraph_raises :
  CycleFinder.findCyclesInGraph Examples.chain
  = Some (Raise AssertionError)
  /\ (forall g : DirectedGraph.t,
         closed g -> DirectedGraph.nodes g <> [] ->
         CycleFinder.findCyclesInGraph g = Some (Raise AssertionError))
  /\ (forall (g : DirectedGraph.t) r,
         CycleFinder.findCyclesInGraph g = Some (Ok r) ->
         DirectedGraph.nodes g = [] /\ r = []).
Proof.
  split; [reflexivity|]. split.
  - intros g Hclosed Hne. unfold CycleFinder.findCyclesInGraph.
    destruct (DirectedGraph.nodes g) as [|n ns] eqn:E; [congruence|].
    apply findCyclesInGraph_first.
    apply (findCycleForNode_closed g n Hclosed).
    rewrite E. left. reflexivity.
  - intros g r. unfold CycleFinder.findCyclesInGraph.
    destruct (DirectedGraph.nodes g) as [|n ns].
    + simpl. intros H. inversion H. auto.
    + destruct (findCycleForNode_raises g n) as [H|H];
        rewrite (findCyclesInGraph_first g n ns [] _ H); discriminate.
Qed.

(** ** Matching: repetition commits when what follows cannot start inside
    the class *)

Lemma many_skip (R : Type) (cls : ascii -> bool) (s : str)
      (k : str -> option R) :
  starts_outside cls s -> many cls s k = k s.
Proof. destruct s as [|c s]; simpl; [reflexivity|]. intros ->. reflexivity. Qed.

Lemma many_commit (R : Type) (cls : ascii -> bool) (p s : str)
      (k : str -> option R) :
  forallb cls p = true -> starts_outside cls s ->
  (forall c s', cls c = true -> k (c :: s') = None) ->
  many cls (p ++ s) k = k s.
Proof.
  intros Hp Hs Hk. induction p as [|c p IH]; simpl.
  - apply many_skip; exact Hs.
  - simpl in Hp. apply andb_true_iff in Hp. destruct Hp as [Hc Hp].
    rewrite Hc, (IH Hp). destruct (k s); [reflexivity|].
    apply Hk; exact Hc.
Qed.

Lemma eat_app (l s : str) : eat l (l ++ s) = Some s.
Proof.
  induction l as [|c l IH]; simpl; [reflexivity|].
  rewrite ascii_eqb_refl. exact IH.
Qed.

Lemma run_Lit (l s : str) (r : regex) (caps : captures)
      (k : str -> captures -> option captures) :
  run (Seq (Lit l) r) (l ++ s) caps k = run r s caps k.
Proof. simpl. rewrite eat_app. reflexivity. Qed.

Lemma run_Star_skip (cls : ascii -> bool) (r : regex) (s : str)
      (caps : captures) (k : str -> captures -> option captures) :
  starts_outside cls s ->
  run (Seq (Star cls) r) s caps k = run r s caps k.
Proof. intros H. simpl. apply many_skip; exact H. Qed.

Lemma run_Plus (cls : ascii -> bool) (r : regex) (p s : str)
      (caps : captures) (k : str -> captures -> option captures) :
  p <> [] -> forallb cls p = true -> starts_outside cls s ->
  (forall c, cls c = true -> rejects r c) ->
  run (Seq (Plus cls) r) (p ++ s) caps k = run r s caps k.
Proof.
  intros Hne Hp Hs Hr. destruct p as [|c p]; [congruence|]. simpl in *.
  apply andb_true_iff in Hp. destruct Hp as [Hc Hp]. rewrite Hc.
  apply many_commit; auto. intros c' s' Hc'. apply Hr; exact Hc'.
Qed.

Lemma firstn_prefix (p s : str) :
  firstn (length (p ++ s) - length s) (p ++ s) = p.
Proof.
  rewrite length_app.
  replace (length p + length s - length s) with (length p + 0) by lia.
  rewrite firstn_app_2. simpl. apply app_nil_r.
Qed.

Lemma run_Group (cls : ascii -> bool) (r : regex) (p s : str)
      (caps : captures) (k : str -> captures -> option captures) :
  p <> [] -> forallb cls p = true -> starts_outside cls s ->
  (forall c, cls c = true -> rejects r c) ->
  run (Seq (Group (Plus cls)) r) (p ++ s) caps k
  = run r s (caps ++ [p]) k.
Proof.
  intros Hne Hp Hs Hr. destruct p as [|c p]; [congruence|].
  cbn [run]. cbn [app]. simpl in Hp.
  apply andb_true_iff in Hp. destruct Hp as [Hc Hp]. rewrite Hc.
  rewrite many_commit; auto.
  - change (c :: p ++ s) with ((c :: p) ++ s). rewrite firstn_prefix.
    reflexivity.
  - intros c' s' Hc'. apply Hr; exact Hc'.
Qed.

Lemma rejects_Lit (x c : ascii) (l : str) :
  x <> c -> rejects (Lit (x :: l)) c.
Proof.
  intros H s caps k. simpl.
  destruct (ascii_eqb x c) eqn:E; [|reflexivity].
  apply ascii_eqb_eq in E. contradiction.
Qed.

Lemma rejects_Lit_class (cls : ascii -> bool) (x : ascii) (l : str) :
  cls x = false -> forall c, cls c = true -> rejects (Lit (x :: l)) c.
Proof. intros Hx c Hc. apply rejects_Lit. congruence. Qed.

Lemma rejects_Plus (cls : ascii -> bool) (c : ascii) :
  cls c = false -> rejects (Plus cls) c.
Proof. intros H s caps k. simpl. rewrite H. reflexivity. Qed.

Lemma rejects_Group (r : regex) (c : ascii) :
  rejects r c -> rejects (Group r) c.
Proof. intros H s caps k. simpl. apply H. Qed.

Lemma rejects_Seq (r1 r2 : regex) (c : ascii) :
  rejects r1 c -> rejects (Seq r1 r2) c.
Proof. intros H s caps k. simpl. apply H. Qed.

Lemma word_not_space (c : ascii) : is_word c = true -> is_space c = false.
Proof.
  destruct c as [[] [] [] [] [] [] [] []]; vm_compute;
    intros H; (reflexivity || discriminate H).
Qed.

Lemma space_not_word (c : ascii) : is_space c = true -> is_word c = false.
Proof.
  intros H. destruct (is_word c) eqn:E; [|reflexivity].
  apply word_not_space in E. congruence.
Qed.

Lemma word_not_linebreak (c : ascii) :
  is_word c = true -> is_linebreak c = false.
Proof.
  destruct c as [[] [] [] [] [] [] [] []]; vm_compute;
    intros H; (reflexivity || discriminate H).
Qed.

Lemma not_char_true (x c : ascii) : not_char x c = true <-> c <> x.
Proof.
  unfold not_char. rewrite negb_true_iff. split.
  - intros H E. apply ascii_eqb_eq in E. congruence.
  - intros H. destruct (ascii_eqb c x) eqn:E; [|reflexivity].
    apply ascii_eqb_eq in E. contradiction.
Qed.

Lemma rejects_Lit_not_char (x : ascii) (l : str) :
  forall c, not_char x c = true -> rejects (Lit (x :: l)) c.
Proof.
  intros c H. apply rejects_Lit. apply not_char_true in H. congruence.
Qed.

(** ** The patterns on well-formed statements *)

Lemma word_ok_inv (a : str) :
  word_ok a = true ->
  a <> [] /\ forallb is_word a = true /\ starts_outside is_space a.
Proof.
  unfold word_ok. intros H. apply andb_true_iff in H. destruct H as [H1 H2].
  destruct a as [|c a]; [discriminate|].
  split; [discriminate|]. split; [exact H2|]. simpl in *.
  apply andb_true_iff in H2. apply word_not_space. tauto.
Qed.

Ltac regex_side :=
  first
    [ assumption
    | reflexivity
    | discriminate
    | intros ? ?; repeat (apply rejects_Seq || apply rejects_Group);
      first [ apply rejects_Plus; auto using word_not_space, space_not_word
            | eapply rejects_Lit_class; [|eassumption]; reflexivity
            | eapply rejects_Lit_not_char; eassumption ] ].

Lemma edge_re_match (a b : str) :
  word_ok a = true -> word_ok b = true ->
  rmatch DotReader.edge_re
         (a ++ [SP] ++ lit "->" ++ [SP] ++ b ++ lit ";")
  = Some [a; b].
Proof.
  intros Ha Hb.
  destruct (word_ok_inv a Ha) as [Ha1 [Ha2 Ha3]].
  destruct (word_ok_inv b Hb) as [Hb1 [Hb2 Hb3]].
  unfold rmatch, DotReader.edge_re. cbn [seq].
  rewrite run_Star_skip
    by (destruct a; [congruence | exact Ha3]).
  rewrite run_Group by regex_side.
  rewrite run_Plus by regex_side.
  rewrite run_Lit.
  rewrite run_Plus
    by first [regex_side | destruct b; [congruence | exact Hb3]].
  rewrite run_Group by regex_side.
  reflexivity.
Qed.

Lemma node_re_match (i raw : str) :
  word_ok i = true -> raw <> [] ->
  forallb (not_char RBRACKET) raw = true ->
  rmatch DotReader.node_definition_re
         (i ++ [SP] ++ lit "[" ++ raw ++ lit "]" ++ lit ";")
  = Some [i; raw].
Proof.
  intros Hi Hne Hraw.
  destruct (word_ok_inv i Hi) as [Hi1 [Hi2 Hi3]].
  unfold rmatch, DotReader.node_definition_re. cbn [seq].
  rewrite run_Star_skip
    by (destruct i; [congruence | exact Hi3]).
  rewrite run_Group by regex_side.
  rewrite run_Plus by regex_side.
  rewrite run_Lit.
  rewrite run_Group by regex_side.
  reflexivity.
Qed.

(** An edge statement is no node statement. *)
Lemma node_re_rejects_edge (a rest : str) :
  word_ok a = true ->
  rmatch DotReader.node_definition_re (a ++ [SP] ++ lit "->" ++ rest)
  = None.
Proof.
  intros Ha.
  destruct (word_ok_inv a Ha) as [Ha1 [Ha2 Ha3]].
  unfold rmatch, DotReader.node_definition_re. cbn [seq].
  rewrite run_Star_skip
    by (destruct a; [congruence | exact Ha3]).
  rewrite run_Group by regex_side.
  rewrite run_Plus by regex_side.
  reflexivity.
Qed.

Lemma attribute_re_match (k v : str) :
  word_ok k = true -> v <> [] ->
  forallb (not_char DQUOTE) v = true ->
  rmatch DotReader.attribute_re
         (k ++ lit "=" ++ [DQUOTE] ++ v ++ [DQUOTE])
  = Some [k; v].
Proof.
  intros Hk Hne Hv.
  destruct (word_ok_inv k Hk) as [Hk1 [Hk2 Hk3]].
  unfold rmatch, DotReader.attribute_re. cbn [seq].
  rewrite run_Star_skip
    by (destruct k; [congruence | exact Hk3]).
  rewrite run_Group by regex_side.
  rewrite run_Lit, run_Lit.
  replace (v ++ [DQUOTE]) with (v ++ [DQUOTE] ++ []) by reflexivity.
  rewrite run_Group by regex_side.
  reflexivity.
Qed.

Lemma introducer_re_match (nm : str) :
  nm <> [] -> forallb (not_char DQUOTE) nm = true ->
  rmatch DotReader.introducer_re
         (lit "digraph " ++ [DQUOTE] ++ nm ++ [DQUOTE] ++ [SP] ++ lit "{")
  = Some [nm].
Proof.
  intros Hne Hnm.
  unfold rmatch, DotReader.introducer_re. cbn [seq].
  rewrite run_Star_skip by reflexivity.
  rewrite run_Lit, run_Lit.
  rewrite run_Group by regex_side.
  rewrite run_Lit.
  rewrite run_Plus by regex_side.
  reflexivity.
Qed.

(** ** [strip], [split], [splitlines] and [join] *)

Lemma lstrip_spaces (w y : str) :
  forallb is_space w = true -> lstrip (w ++ y) = lstrip y.
Proof.
  induction w as [|c w IH]; simpl; [reflexivity|].
  intros H. apply andb_true_iff in H. destruct H as [Hc Hw].
  rewrite Hc. apply IH; exact Hw.
Qed.

Lemma lstrip_outside (y : str) : starts_outside is_space y -> lstrip y = y.
Proof. destruct y; simpl; [reflexivity|]. intros ->. reflexivity. Qed.

Lemma forallb_rev (A : Type) (f : A -> bool) (l : list A) :
  forallb f (rev l) = forallb f l.
Proof.
  induction l as [|x l IH]; simpl; [reflexivity|].
  rewrite forallb_app, IH. simpl. rewrite andb_true_r, andb_comm.
  reflexivity.
Qed.

Lemma strip_tidy (w1 x w2 : str) :
  tidy x -> forallb is_space w1 = true -> forallb is_space w2 = true ->
  strip (w1 ++ x ++ w2) = x.
Proof.
  intros [Hne [Hh Hl]] H1 H2. unfold strip, rstrip.
  rewrite lstrip_spaces by exact H1.
  rewrite (lstrip_outside (x ++ w2))
    by (destruct x; [congruence | exact Hh]).
  rewrite rev_app_distr, lstrip_spaces
    by (rewrite forallb_rev; exact H2).
  rewrite lstrip_outside by exact Hl. apply rev_involutive.
Qed.

Lemma strip_tidy_id (x : str) : tidy x -> strip x = x.
Proof.
  intros H. rewrite <- (strip_tidy [] x [] H eq_refl eq_refl) at 2.
  simpl. rewrite app_nil_r. reflexivity.
Qed.

Lemma strip_tidy_left (w x : str) :
  tidy x -> forallb is_space w = true -> strip (w ++ x) = x.
Proof.
  intros H Hw. rewrite <- (strip_tidy w x [] H Hw eq_refl) at 2.
  rewrite app_nil_r. reflexivity.
Qed.

Lemma tidy_ends (c d : ascii) (m : str) :
  is_space c = false -> is_space d = false -> tidy (c :: m ++ [d]).
Proof.
  intros Hc Hd. split; [discriminate|]. split; [exact Hc|].
  change (c :: m ++ [d]) with ((c :: m) ++ [d]).
  rewrite rev_unit. exact Hd.
Qed.

Lemma tidy_word_end (a m : str) (d : ascii) :
  word_ok a = true -> is_space d = false -> tidy (a ++ m ++ [d]).
Proof.
  intros Ha Hd. destruct (word_ok_inv a Ha) as [Hne [_ Hs]].
  destruct a as [|c a]; [congruence|]. simpl in Hs.
  replace ((c :: a) ++ m ++ [d]) with (c :: (a ++ m) ++ [d])
    by (simpl; rewrite app_assoc; reflexivity).
  apply tidy_ends; assumption.
Qed.

Lemma split_whole (sep : ascii) (a : str) :
  forallb (not_char sep) a = true -> split sep a = [a].
Proof.
  induction a as [|c a IH]; simpl; [reflexivity|].
  intros H. apply andb_true_iff in H. destruct H as [Hc Ha].
  unfold not_char in Hc. apply negb_true_iff in Hc. rewrite Hc.
  rewrite (IH Ha). reflexivity.
Qed.

Lemma split_app (sep : ascii) (a b : str) :
  forallb (not_char sep) a = true ->
  split sep (a ++ sep :: b) = a :: split sep b.
Proof.
  induction a as [|c a IH]; simpl.
  - rewrite ascii_eqb_refl. reflexivity.
  - intros H. apply andb_true_iff in H. destruct H as [Hc Ha].
    unfold not_char in Hc. apply negb_true_iff in Hc. rewrite Hc.
    rewrite (IH Ha). reflexivity.
Qed.

Lemma splitlines_line (l rest : str) :
  forallb line_char l = true ->
  splitlines (l ++ LF :: rest) = l :: splitlines rest.
Proof.
  induction l as [|c l IH]; simpl.
  - reflexivity.
  - intros H. apply andb_true_iff in H. destruct H as [Hc Hl].
    unfold line_char in Hc. apply negb_true_iff in Hc. rewrite Hc.
    rewrite (IH Hl). reflexivity.
Qed.

Lemma nonblank_lines_line (l rest : str) :
  forallb line_char l = true ->
  DotReader.nonblank_lines (l ++ LF :: rest)
  = (if nonempty (strip l) then [strip l] else [])
      ++ DotReader.nonblank_lines rest.
Proof.
  intros H. unfold DotReader.nonblank_lines.
  rewrite splitlines_line by exact H. simpl.
  destruct (nonempty (strip l)); reflexivity.
Qed.

Lemma nonempty_tidy (x : str) : tidy x -> nonempty x = true.
Proof. intros [H _]. destruct x; [congruence | reflexivity]. Qed.

(** A block of tidy lines, each indented by two spaces, reads back as
    those lines; an empty block reads back as nothing. *)
Lemma nonblank_lines_block (lines : list str) (rest : str) :
  Forall tidy lines ->
  Forall (fun l => forallb line_char l = true) lines ->
  DotReader.nonblank_lines (block lines ++ LF :: rest)
  = lines ++ DotReader.nonblank_lines rest.
Proof.
  unfold block. induction lines as [|x lines IH]; intros Ht Hl.
  - simpl join. rewrite app_nil_r.
    rewrite nonblank_lines_line by reflexivity. reflexivity.
  - inversion Ht as [|? ? Hx Ht']; inversion Hl as [|? ? Hlx Hl']; subst.
    destruct lines as [|y lines].
    + simpl join.
      rewrite nonblank_lines_line
        by (rewrite forallb_app; rewrite Hlx; reflexivity).
      rewrite strip_tidy_left by (exact Hx || reflexivity).
      rewrite (nonempty_tidy x Hx). reflexivity.
    + change (join (LF :: lit "  ") (x :: y :: lines))
        with (x ++ (LF :: lit "  ") ++ join (LF :: lit "  ") (y :: lines)).
      replace ((lit "  " ++ x ++ (LF :: lit "  ")
                ++ join (LF :: lit "  ") (y :: lines)) ++ LF :: rest)
        with ((lit "  " ++ x)
              ++ LF :: ((lit "  " ++ join (LF :: lit "  ") (y :: lines))
                        ++ LF :: rest))
        by (rewrite <- !app_assoc; reflexivity).
      rewrite nonblank_lines_line
        by (rewrite forallb_app; rewrite Hlx; reflexivity).
      rewrite strip_tidy_left by (exact Hx || reflexivity).
      rewrite (nonempty_tidy x Hx). rewrite (IH Ht' Hl'). reflexivity.
Qed.

Lemma forallb_join (P : ascii -> bool) (sep : str) (parts : list str) :
  forallb P sep = true ->
  Forall (fun x => forallb P x = true) parts ->
  forallb P (join sep parts) = true.
Proof.
  intros Hsep. induction parts as [|x parts IH]; intros H; [reflexivity|].
  inversion H as [|? ? Hx Hp]; subst.
  destruct parts as [|y parts]; [exact Hx|].
  change (join sep (x :: y :: parts))
    with (x ++ sep ++ join sep (y :: parts)).
  rewrite !forallb_app, Hx, Hsep, (IH Hp). reflexivity.
Qed.

(** ** Reading one attribute list *)

Lemma forallb_impl (P Q : ascii -> bool) (l : str) :
  (forall c, P c = true -> Q c = true) ->
  forallb P l = true -> forallb Q l = true.
Proof.
  intros H. induction l as [|c l IH]; simpl; [reflexivity|].
  intros Hl. apply andb_true_iff in Hl. destruct Hl as [Hc Hl].
  rewrite (H c Hc), (IH Hl). reflexivity.
Qed.

Lemma word_not_char (x c : ascii) :
  is_word x = false -> is_word c = true -> not_char x c = true.
Proof. intros Hx Hc. apply not_char_true. congruence. Qed.

Lemma word_line_char (c : ascii) : is_word c = true -> line_char c = true.
Proof.
  intros H. unfold line_char. rewrite (word_not_linebreak c H). reflexivity.
Qed.

Lemma value_char_inv (c : ascii) :
  value_char c = true ->
  not_char DQUOTE c = true /\ not_char COMMA c = true
  /\ not_char RBRACKET c = true /\ line_char c = true.
Proof.
  unfold value_char, line_char. rewrite !andb_true_iff. tauto.
Qed.

Lemma value_ok_inv (v : str) :
  value_ok v = true -> v <> [] /\ forallb value_char v = true.
Proof.
  unfold value_ok. rewrite andb_true_iff. intros [H1 H2].
  split; [|exact H2]. destruct v; [discriminate | discriminate].
Qed.

Lemma attr_ok_inv (kv : str * str) :
  attr_ok kv = true -> word_ok (fst kv) = true /\ value_ok (snd kv) = true.
Proof. unfold attr_ok. apply andb_true_iff. Qed.

Lemma attr_str_forallb (P : ascii -> bool) (kv : str * str) :
  attr_ok kv = true ->
  (forall c, is_word c = true -> P c = true) ->
  (forall c, value_char c = true -> P c = true) ->
  P "="%char = true -> P DQUOTE = true ->
  forallb P (DotEmitter.attr_str kv) = true.
Proof.
  intros Hok Hw Hv He Hq. apply attr_ok_inv in Hok. destruct Hok as [Hk Hval].
  destruct (word_ok_inv _ Hk) as [_ [Hk' _]].
  destruct (value_ok_inv _ Hval) as [_ Hv'].
  unfold DotEmitter.attr_str. rewrite !forallb_app.
  rewrite (forallb_impl _ _ _ Hw Hk'), (forallb_impl _ _ _ Hv Hv').
  simpl. rewrite He, Hq. reflexivity.
Qed.

Lemma attr_str_tidy (kv : str * str) :
  attr_ok kv = true -> tidy (DotEmitter.attr_str kv).
Proof.
  intros Hok. apply attr_ok_inv in Hok. destruct Hok as [Hk _].
  unfold DotEmitter.attr_str.
  replace (fst kv ++ lit "=" ++ [DQUOTE] ++ snd kv ++ [DQUOTE])
    with (fst kv ++ (lit "=" ++ [DQUOTE] ++ snd kv) ++ [DQUOTE])
    by (rewrite <- !app_assoc; reflexivity).
  apply tidy_word_end; [exact Hk | reflexivity].
Qed.

Lemma attr_str_match (kv : str * str) :
  attr_ok kv = true ->
  rmatch DotReader.attribute_re (DotEmitter.attr_str kv)
  = Some [fst kv; snd kv].
Proof.
  intros Hok. apply attr_ok_inv in Hok. destruct Hok as [Hk Hval].
  destruct (value_ok_inv _ Hval) as [Hne Hv].
  apply attribute_re_match; [exact Hk | exact Hne |].
  apply forallb_impl with (P := value_char); [|exact Hv].
  intros c Hc. apply value_char_inv in Hc. tauto.
Qed.

Lemma stripped_parts_join (parts : list str) :
  parts <> [] -> Forall tidy parts ->
  Forall (fun x => forallb (not_char COMMA) x = true) parts ->
  forall pre,
    forallb is_space pre = true -> forallb (not_char COMMA) pre = true ->
    DotReader.stripped_parts COMMA (pre ++ join (lit ", ") parts ++ [SP])
    = parts.
Proof.
  unfold DotReader.stripped_parts.
  induction parts as [|x parts IH]; [congruence|].
  intros _ Ht Hc pre Hs Hp.
  inversion Ht as [|? ? Hx Ht']; inversion Hc as [|? ? Hcx Hc']; subst.
  destruct parts as [|y parts].
  - simpl join. rewrite split_whole
      by (rewrite !forallb_app, Hp, Hcx; reflexivity).
    simpl. rewrite strip_tidy by (assumption || reflexivity).
    rewrite (nonempty_tidy x Hx). reflexivity.
  - change (join (lit ", ") (x :: y :: parts))
      with (x ++ lit ", " ++ join (lit ", ") (y :: parts)).
    replace (pre ++ (x ++ lit ", " ++ join (lit ", ") (y :: parts)) ++ [SP])
      with ((pre ++ x)
            ++ COMMA :: ([SP] ++ join (lit ", ") (y :: parts) ++ [SP]))
      by (rewrite <- !app_assoc; reflexivity).
    rewrite split_app by (rewrite forallb_app, Hp, Hcx; reflexivity).
    cbn [map filter]. rewrite strip_tidy_left by assumption.
    rewrite (nonempty_tidy x Hx).
    rewrite (IH ltac:(discriminate) Ht' Hc' [SP] eq_refl eq_refl).
    reflexivity.
Qed.

Lemma dict_set_fresh (V : Type) (d : list (str * V)) (k : str) (v : V) :
  ~ In k (map fst d) -> Py.dict_set d k v = d ++ [(k, v)].
Proof.
  induction d as [|[k' v'] d IH]; simpl; [reflexivity|].
  intros H. destruct (str_eqb k' k) eqn:E.
  - apply str_eqb_eq in E. tauto.
  - rewrite IH by tauto. reflexivity.
Qed.

Lemma distinct_cons (x : str) (l : list str) :
  distinct (x :: l) = true -> ~ In x l /\ distinct l = true.
Proof.
  simpl. rewrite andb_true_iff, negb_true_iff, Py_mem_false. tauto.
Qed.

Lemma distinct_NoDup (l : list str) : distinct l = true -> NoDup l.
Proof.
  induction l as [|x l IH]; intros H; [constructor|].
  apply distinct_cons in H. constructor; tauto.
Qed.

Lemma parseAttributes_loop_spec (attrs : list (str * str)) :
  forallb attr_ok attrs = true -> distinct (map fst attrs) = true ->
  forall acc,
    (forall kv, In kv attrs -> ~ In (fst kv) (map fst acc)) ->
    DotReader.parseAttributes_loop (map DotEmitter.attr_str attrs) acc
    = Ok (acc ++ attrs).
Proof.
  induction attrs as [|kv attrs IH]; intros Hok Hd acc Hfresh.
  - simpl. rewrite app_nil_r. reflexivity.
  - cbn [forallb] in Hok. apply andb_true_iff in Hok.
    destruct Hok as [Hkv Hok].
    cbn [map] in Hd. apply distinct_cons in Hd. destruct Hd as [Hk Hd].
    cbn [map DotReader.parseAttributes_loop].
    rewrite (attr_str_match kv Hkv).
    rewrite dict_set_fresh by (apply Hfresh; left; reflexivity).
    rewrite IH; [|exact Hok|exact Hd|].
    + rewrite <- app_assoc. destruct kv; reflexivity.
    + intros kv' Hin. rewrite map_app, in_app_iff. simpl.
      intros [H|[H|[]]].
      * apply (Hfresh kv' (or_intror Hin) H).
      * apply Hk. rewrite H. apply in_map; exact Hin.
Qed.

Lemma attrs_facts (attrs : list (str * str)) (P : ascii -> bool) :
  forallb attr_ok attrs = true ->
  (forall c, is_word c = true -> P c = true) ->
  (forall c, value_char c = true -> P c = true) ->
  P "="%char = true -> P DQUOTE = true ->
  Forall (fun x => forallb P x = true) (map DotEmitter.attr_str attrs).
Proof.
  intros Hok Hw Hv He Hq. apply Forall_forall. intros x Hx.
  apply in_map_iff in Hx. destruct Hx as [kv [<- Hkv]].
  apply attr_str_forallb; auto.
  rewrite forallb_forall in Hok. apply Hok; exact Hkv.
Qed.

Lemma attrs_tidy (attrs : list (str * str)) :
  forallb attr_ok attrs = true ->
  Forall tidy (map DotEmitter.attr_str attrs).
Proof.
  intros Hok. apply Forall_forall. intros x Hx.
  apply in_map_iff in Hx. destruct Hx as [kv [<- Hkv]].
  apply attr_str_tidy. rewrite forallb_forall in Hok. apply Hok; exact Hkv.
Qed.

(** The text between the brackets of a node statement reads back as the
    attribute map it was written from. *)
Lemma parseAttributes_written (attrs : list (str * str)) :
  attrs <> [] -> forallb attr_ok attrs = true ->
  distinct (map fst attrs) = true ->
  DotReader.parseAttributes
    ([SP] ++ join (lit ", ") (map DotEmitter.attr_str attrs) ++ [SP])
  = Ok attrs.
Proof.
  intros Hne Hok Hd. unfold DotReader.parseAttributes.
  rewrite stripped_parts_join.
  - apply (parseAttributes_loop_spec attrs Hok Hd []). intros kv _ [].
  - destruct attrs; [congruence | discriminate].
  - apply attrs_tidy; exact Hok.
  - apply attrs_facts; auto.
    + intros c Hc. apply word_not_char; [reflexivity | exact Hc].
    + intros c Hc. apply value_char_inv in Hc. tauto.
  - reflexivity.
  - reflexivity.
Qed.

(** ** [DirectedGraph.toDot] and [DotEmitter.emit] *)

Lemma toDot_edges_spec (n : Node.t) (es : list str) :
  forall dot,
    DirectedGraph.toDot_edges dot n es
    = DotEmitter.mk (DotEmitter.name dot) (DotEmitter.node_strings dot)
        (DotEmitter.edge_strings dot
         ++ map (DotEmitter.edge_str (Node.id n)) es).
Proof.
  induction es as [|e es IH]; intros dot; simpl.
  - rewrite app_nil_r. destruct dot; reflexivity.
  - rewrite IH. simpl. rewrite <- app_assoc. reflexivity.
Qed.

Lemma emit_raises (e : DotEmitter.t) :
  DotEmitter.emit e = Raise AttributeError.
Proof. reflexivity. Qed.

Lemma addNode_cases (e : DotEmitter.t) (n : Node.t) :
  match Node.attributes n with
  | _ :: _ => DotEmitter.addNode e n = Raise AttributeError
  | [] =>
      DotEmitter.addNode e n
      = if Py.mem (Node.id n) (Py.dict_keys (DotEmitter.node_strings e))
        then Raise AssertionError
        else Ok (DotEmitter.mk (DotEmitter.name e)
                   (Py.dict_set (DotEmitter.node_strings e) (Node.id n)
                                (Node.id n ++ lit ";"))
                   (DotEmitter.edge_strings e))
  end.
Proof.
  unfold DotEmitter.addNode. destruct (Node.attributes n); [|reflexivity].
  cbn [bind].
  destruct (Py.mem (Node.id n) (Py.dict_keys (DotEmitter.node_strings e)));
    reflexivity.
Qed.

(** The loop of [toDot] over the nodes ends with the [AttributeError] of
    the first node that has attributes; a node without attributes is
    taken, unless its id is taken already. *)
Lemma toDot_nodes_outcome (ns : list Node.t) :
  forall dot,
    (NoDup (map fst (DotEmitter.node_strings dot) ++ map Node.id ns) ->
     (exists dot', DirectedGraph.toDot_nodes dot ns = Ok dot')
     \/ DirectedGraph.toDot_nodes dot ns = Raise AttributeError)
    /\ ((exists dot', DirectedGraph.toDot_nodes dot ns = Ok dot')
        \/ DirectedGraph.toDot_nodes dot ns = Raise AttributeError
        \/ DirectedGraph.toDot_nodes dot ns = Raise AssertionError).
Proof.
  induction ns as [|n ns IH]; intros dot;
    [split; [intros _|]; left; exists dot; reflexivity|].
  cbn [DirectedGraph.toDot_nodes].
  pose proof (addNode_cases dot n) as Hadd.
  destruct (Node.attributes n) as [|kv kvs];
    [|rewrite Hadd; split; auto].
  destruct (Py.mem (Node.id n) (Py.dict_keys (DotEmitter.node_strings dot)))
    eqn:Hm; rewrite Hadd; cbn [bind].
  - split; [|auto]. intros Hnd. exfalso.
    apply NoDup_remove_2 in Hnd. apply Hnd.
    apply in_or_app. left. apply Py_mem_In. exact Hm.
  - rewrite toDot_edges_spec. cbn [DotEmitter.name DotEmitter.node_strings].
    match goal with
    | |- context [DirectedGraph.toDot_nodes ?d ns] =>
        destruct (IH d) as [H1 H2]
    end.
    split; [|exact H2]. intros Hnd. apply H1.
    cbn [DotEmitter.node_strings].
    apply Py_mem_false in Hm. unfold Py.dict_keys in Hm.
    rewrite dict_set_fresh by exact Hm.
    rewrite map_app. simpl. rewrite <- app_assoc. exact Hnd.
Qed.

(** [toDot] of a graph with distinct ids ends with [AttributeError]. *)
Lemma toDot_distinct (g : DirectedGraph.t) :
  NoDup (ids g) -> DirectedGraph.toDot g = Raise AttributeError.
Proof.
  intros Hnd. unfold DirectedGraph.toDot.
  destruct (toDot_nodes_outcome (DirectedGraph.nodes g)
              (DotEmitter.init (DirectedGraph.name g)))
    as [H _].
  destruct (H Hnd) as [[dot' ->]| ->]; reflexivity.
Qed.

(** C1 at its failing input, and for every graph.  [toDot] returns a
    text for no graph: [emit] raises [AttributeError] when it asks the
    keys view to sort itself, and [addNode] raises it before that for a
    node with attributes.  So the round trip of the claim yields no
    text. *)
Theorem toDot_raises_AttributeError :
  (forall e : DotEmitter.t, DotEmitter.emit e = Raise AttributeError)
  /\ (forall g : DirectedGraph.t,
         NoDup (ids g) -> DirectedGraph.toDot g = Raise AttributeError)
  /\ (forall (g : DirectedGraph.t) text,
         (t <- DirectedGraph.toDot g ;;
          g' <- fromDot t ;; DirectedGraph.toDot g') <> Ok text)
  /\ DirectedGraph.toDot Examples.bare = Raise AttributeError
  /\ DirectedGraph.toDot Examples.labelled = Raise AttributeError.
Proof.
  split; [exact emit_raises|].
  assert (Hany : forall g,
             DirectedGraph.toDot g = Raise AttributeError
             \/ DirectedGraph.toDot g = Raise AssertionError).
  { intros g. unfold DirectedGraph.toDot.
    destruct (toDot_nodes_outcome (DirectedGraph.nodes g)
                (DotEmitter.init (DirectedGraph.name g)))
      as [_ [[dot' ->]|[-> | ->]]]; auto. }
  split; [|split; [|split; reflexivity]].
  - intros g Hnd. unfold DirectedGraph.toDot.
    destruct (toDot_nodes_outcome (DirectedGraph.nodes g)
                (DotEmitter.init (DirectedGraph.name g)))
      as [H _].
    destruct (H Hnd) as [[dot' ->]| ->]; reflexivity.
  - intros g text. destruct (Hany g) as [-> | ->]; discriminate.
Qed.

(** ** Reading one statement *)

Lemma node_ok_inv (resident : list str) (n : Node.t) :
  node_ok resident n = true ->
  word_ok (Node.id n) = true
  /\ Node.attributes n <> []
  /\ distinct (map fst (Node.attributes n)) = true
  /\ forallb attr_ok (Node.attributes n) = true
  /\ distinct (Node.edges n) = true
  /\ forall e, In e (Node.edges n) -> In e resident.
Proof.
  unfold node_ok. rewrite !andb_true_iff.
  intros [[[[[H1 H2] H3] H4] H5] H6].
  repeat split; auto.
  - destruct (Node.attributes n); [discriminate H2 | discriminate].
  - intros e He. rewrite forallb_forall in H6.
    apply Py_mem_In, H6, He.
Qed.

Lemma node_str_shape (n : Node.t) :
  Node.attributes n <> [] ->
  DotEmitter.node_str n
  = Node.id n ++ [SP] ++ lit "["
    ++ ([SP] ++ join (lit ", ") (map DotEmitter.attr_str (Node.attributes n))
        ++ [SP])
    ++ lit "]" ++ lit ";".
Proof.
  intros H. unfold DotEmitter.node_str.
  destruct (Node.attributes n) as [|a attrs]; [congruence|].
  repeat (rewrite <- app_assoc; simpl). reflexivity.
Qed.

Lemma node_str_tidy (resident : list str) (n : Node.t) :
  node_ok resident n = true -> tidy (DotEmitter.node_str n).
Proof.
  intros H. apply node_ok_inv in H. destruct H as [Hid _].
  unfold DotEmitter.node_str. apply tidy_word_end; [exact Hid | reflexivity].
Qed.

Lemma raw_attributes_forallb (P : ascii -> bool) (attrs : list (str * str)) :
  forallb attr_ok attrs = true ->
  (forall c, is_word c = true -> P c = true) ->
  (forall c, value_char c = true -> P c = true) ->
  P "="%char = true -> P DQUOTE = true -> P SP = true -> P COMMA = true ->
  forallb P ([SP] ++ join (lit ", ") (map DotEmitter.attr_str attrs) ++ [SP])
  = true.
Proof.
  intros Hok Hw Hv He Hq Hs Hc. rewrite !forallb_app. cbn [forallb].
  rewrite Hs.
  rewrite forallb_join; [reflexivity| |apply attrs_facts; auto].
  change (lit ", ") with [COMMA; SP]. cbn [forallb].
  rewrite Hc, Hs. reflexivity.
Qed.

Lemma node_str_line_char (resident : list str) (n : Node.t) :
  node_ok resident n = true ->
  forallb line_char (DotEmitter.node_str n) = true.
Proof.
  intros H. apply node_ok_inv in H.
  destruct H as [Hid [Hne [_ [Hattrs _]]]].
  rewrite node_str_shape by exact Hne.
  destruct (word_ok_inv _ Hid) as [_ [Hw _]].
  do 4 rewrite forallb_app.
  rewrite (forallb_impl _ _ _ word_line_char Hw).
  rewrite raw_attributes_forallb; auto using word_line_char.
  intros c Hc. apply value_char_inv in Hc. tauto.
Qed.

Lemma parseNodeDefinition_written (g : DirectedGraph.t)
      (resident : list str) (n : Node.t) :
  node_ok resident n = true -> ~ In (Node.id n) (ids g) ->
  DotReader.parseNodeDefinition g (DotEmitter.node_str n)
  = Ok (true, DirectedGraph.mk (DirectedGraph.name g)
                (DirectedGraph.nodes g ++ [without_edges n])).
Proof.
  intros H Hfresh. apply node_ok_inv in H.
  destruct H as [Hid [Hne [Hd [Hattrs _]]]].
  unfold DotReader.parseNodeDefinition.
  rewrite node_str_shape by exact Hne.
  rewrite node_re_match; [|exact Hid|discriminate|].
  - rewrite parseAttributes_written by assumption. cbn [bind].
    rewrite addNode_fresh by exact Hfresh. reflexivity.
  - apply raw_attributes_forallb; auto.
    + intros c Hc. apply word_not_char; [reflexivity | exact Hc].
    + intros c Hc. apply value_char_inv in Hc. tauto.
Qed.

Lemma edge_str_tidy (a b : str) :
  word_ok a = true -> tidy (DotEmitter.edge_str a b).
Proof.
  intros Ha. unfold DotEmitter.edge_str.
  replace (a ++ lit " -> " ++ b ++ lit ";")
    with (a ++ (lit " -> " ++ b) ++ [";"%char])
    by (rewrite <- !app_assoc; reflexivity).
  apply tidy_word_end; [exact Ha | reflexivity].
Qed.

Lemma edge_str_line_char (a b : str) :
  word_ok a = true -> word_ok b = true ->
  forallb line_char (DotEmitter.edge_str a b) = true.
Proof.
  intros Ha Hb.
  destruct (word_ok_inv _ Ha) as [_ [Hwa _]].
  destruct (word_ok_inv _ Hb) as [_ [Hwb _]].
  unfold DotEmitter.edge_str. rewrite !forallb_app.
  rewrite (forallb_impl _ _ _ word_line_char Hwa).
  rewrite (forallb_impl _ _ _ word_line_char Hwb). reflexivity.
Qed.

Lemma parseNodeDefinition_edge (g : DirectedGraph.t) (a b : str) :
  word_ok a = true ->
  DotReader.parseNodeDefinition g (DotEmitter.edge_str a b) = Ok (false, g).
Proof.
  intros Ha. unfold DotReader.parseNodeDefinition.
  change (DotEmitter.edge_str a b)
    with (a ++ [SP] ++ lit "->" ++ ([SP] ++ b ++ lit ";")).
  rewrite node_re_rejects_edge by exact Ha. reflexivity.
Qed.

Lemma parseEdgeDefinition_written (g : DirectedGraph.t) (a b : str) :
  word_ok a = true -> word_ok b = true ->
  DotReader.parseEdgeDefinition g (DotEmitter.edge_str a b)
  = (g' <- DirectedGraph.addEdge g a b ;; Ok (true, g')).
Proof.
  intros Ha Hb. unfold DotReader.parseEdgeDefinition.
  change (DotEmitter.edge_str a b)
    with (a ++ [SP] ++ lit "->" ++ [SP] ++ b ++ lit ";").
  rewrite edge_re_match by assumption. reflexivity.
Qed.

(** ** Reading the statements of a graph *)

Lemma statements_nodes (resident : list str) (ns : list Node.t)
      (rest : list str) :
  forallb (node_ok resident) ns = true ->
  forall g,
    NoDup (ids g ++ map Node.id ns) ->
    DotReader.statements g (node_lines ns ++ rest)
    = DotReader.statements
        (DirectedGraph.mk (DirectedGraph.name g)
           (DirectedGraph.nodes g ++ map without_edges ns))
        rest.
Proof.
  unfold node_lines.
  induction ns as [|n ns IH]; intros Hok g Hnd.
  - simpl. rewrite app_nil_r. destruct g; reflexivity.
  - cbn [forallb] in Hok. apply andb_true_iff in Hok.
    destruct Hok as [Hn Hok].
    assert (Hfresh : ~ In (Node.id n) (ids g)).
    { simpl in Hnd. apply NoDup_remove_2 in Hnd. intros H. apply Hnd.
      apply in_or_app; left; exact H. }
    cbn [map app DotReader.statements].
    rewrite (parseNodeDefinition_written g resident n Hn Hfresh).
    cbn [bind]. rewrite IH; [|exact Hok|].
    + simpl. rewrite <- app_assoc. reflexivity.
    + unfold ids. simpl. rewrite map_app. simpl. rewrite <- app_assoc.
      exact Hnd.
Qed.

Lemma statements_edge (g : DirectedGraph.t) (a b : str) (rest : list str) :
  word_ok a = true -> word_ok b = true ->
  DotReader.statements g (DotEmitter.edge_str a b :: rest)
  = (g' <- DirectedGraph.addEdge g a b ;; DotReader.statements g' rest).
Proof.
  intros Ha Hb. cbn [DotReader.statements].
  rewrite parseNodeDefinition_edge by exact Ha. cbn [bind].
  rewrite parseEdgeDefinition_written by assumption.
  destruct (DirectedGraph.addEdge g a b); reflexivity.
Qed.

Lemma Py_mem_app (x : str) (a b : list str) :
  Py.mem x (a ++ b) = Py.mem x a || Py.mem x b.
Proof.
  induction a as [|y a IH]; simpl; [reflexivity|].
  rewrite IH, orb_assoc. reflexivity.
Qed.

(** ** Reading the introducer *)

Lemma name_ok_inv (nm : str) :
  name_ok nm = true ->
  nm <> [] /\ forallb (not_char DQUOTE) nm = true
  /\ forallb line_char nm = true.
Proof.
  unfold name_ok. rewrite andb_true_iff. intros [H1 H2].
  split; [destruct nm; discriminate|].
  split; (apply forallb_impl with (P := name_char); [|exact H2]);
    intros c Hc; unfold name_char, line_char in *;
    apply andb_true_iff in Hc; tauto.
Qed.

Lemma parseIntroducer_written (g : DirectedGraph.t) (nm : str) :
  name_ok nm = true ->
  DotReader.parseIntroducer g (introducer_line nm)
  = (true, DirectedGraph.setName g nm).
Proof.
  intros H. destruct (name_ok_inv nm H) as [Hne [Hq _]].
  unfold DotReader.parseIntroducer.
  change (introducer_line nm)
    with (lit "digraph " ++ [DQUOTE] ++ nm ++ [DQUOTE] ++ [SP] ++ lit "{").
  rewrite introducer_re_match by assumption. reflexivity.
Qed.

Lemma introducer_line_tidy (nm : str) : tidy (introducer_line nm).
Proof.
  unfold introducer_line.
  replace (lit "digraph " ++ [DQUOTE] ++ nm ++ [DQUOTE] ++ lit " {")
    with ("d"%char :: (lit "igraph " ++ [DQUOTE] ++ nm ++ [DQUOTE] ++ [SP])
                   ++ ["{"%char])
    by (simpl; rewrite <- !app_assoc; reflexivity).
  apply tidy_ends; reflexivity.
Qed.

Lemma introducer_line_char (nm : str) :
  name_ok nm = true -> forallb line_char (introducer_line nm) = true.
Proof.
  intros H. destruct (name_ok_inv nm H) as [_ [_ Hl]].
  unfold introducer_line. rewrite !forallb_app, Hl. reflexivity.
Qed.

Lemma node_lines_facts (resident : list str) (ns : list Node.t) :
  forallb (node_ok resident) ns = true ->
  Forall tidy (node_lines ns)
  /\ Forall (fun l => forallb line_char l = true) (node_lines ns).
Proof.
  intros H. rewrite forallb_forall in H. unfold node_lines.
  split; apply Forall_forall; intros l Hl; apply in_map_iff in Hl;
    destruct Hl as [n [<- Hn]].
  - apply (node_str_tidy resident); auto.
  - apply (node_str_line_char resident); auto.
Qed.

(** The bare statement that [DotEmitter.addNode] stores for a node
    without attributes, for any word id: neither pattern of the reader
    takes it, so scanning stops on it, and it is no closer. *)
Lemma bare_statement_stops (g : DirectedGraph.t) (i : str)
      (rest : list str) :
  word_ok i = true ->
  DotEmitter.addNode (DotEmitter.init None) (Node.mk i [] [])
  = Ok (DotEmitter.mk None [(i, i ++ lit ";")] [])
  /\ DotReader.statements g ((i ++ lit ";") :: rest)
     = Ok (g, (i ++ lit ";") :: rest)
  /\ DotReader.parseCloser (i ++ lit ";") = false.
Proof.
  intros Hi. destruct (word_ok_inv i Hi) as [Hne [Hw Hs]].
  assert (Hnode : rmatch DotReader.node_definition_re (i ++ lit ";") = None).
  { unfold rmatch, DotReader.node_definition_re. cbn [seq].
    rewrite run_Star_skip by (destruct i; [congruence | exact Hs]).
    rewrite run_Group by regex_side. reflexivity. }
  assert (Hedge : rmatch DotReader.edge_re (i ++ lit ";") = None).
  { unfold rmatch, DotReader.edge_re. cbn [seq].
    rewrite run_Star_skip by (destruct i; [congruence | exact Hs]).
    rewrite run_Group by regex_side. reflexivity. }
  split; [reflexivity|]. split.
  - cbn [DotReader.statements].
    unfold DotReader.parseNodeDefinition, DotReader.parseEdgeDefinition.
    rewrite Hnode. cbn [bind]. rewrite Hedge. reflexivity.
  - unfold DotReader.parseCloser, rmatch, DotReader.closer_re. cbn [seq].
    rewrite run_Star_skip by (destruct i; [congruence | exact Hs]).
    destruct i as [|c i]; [congruence|]. simpl in Hw.
    apply andb_true_iff in Hw. destruct Hw as [Hc _].
    assert (Hr : rejects (Seq (Lit (lit "}")) (Seq (Star ws) Eos)) c).
    { apply rejects_Seq, rejects_Lit. intros E. rewrite <- E in Hc.
      discriminate. }
    cbn [app]. rewrite Hr. reflexivity.
Qed.

(* ================================================================== *)
(** * Further properties of the module *)

(** ** Lookup, insertion and removal *)

(** [getNode] returns a resident node with the id asked for, returns
    [None] exactly for an id no resident node has, and with distinct ids
    finds every resident node under its own id. *)
Theorem getNode_lookup (g : DirectedGraph.t) (i : str) (n : Node.t) :
  (DirectedGraph.getNode g i = Some n ->
   In n (DirectedGraph.nodes g) /\ Node.id n = i)
  /\ (DirectedGraph.getNode g i = None <-> ~ In i (ids g))
  /\ (NoDup (ids g) -> In n (DirectedGraph.nodes g) ->
      DirectedGraph.getNode g (Node.id n) = Some n).
Proof.
  split; [apply getNode_Some|]. split; [apply getNode_None|].
  intros Hnd Hin.
  destruct (getNode_present g (Node.id n) (in_map Node.id _ _ Hin))
    as [m [Hm [Hmin Hmid]]].
  rewrite Hm. f_equal. unfold ids in Hnd.
  apply in_split in Hin. destruct Hin as [l1 [l2 E]].
  rewrite E in Hmin, Hnd. rewrite map_app in Hnd. simpl in Hnd.
  pose proof (NoDup_remove_2 _ _ _ Hnd) as Hout.
  apply in_app_or in Hmin. destruct Hmin as [H|[H|H]]; [|exact (eq_sym H)|];
    exfalso; apply Hout, in_or_app; [left|right];
    rewrite <- Hmid; apply in_map; exact H.
Qed.

Lemma getNode_lookup_witness :
  DirectedGraph.getNode Examples.labelled (Node.id Examples.lab_b)
  = Some Examples.lab_b.
Proof.
  apply (proj2 (proj2 (getNode_lookup Examples.labelled (lit "b")
                                      Examples.lab_b))).
  - apply distinct_NoDup. reflexivity.
  - simpl; auto.
Defined.

Lemma getNode_app_fresh (name : option str) (ns : list Node.t)
      (n : Node.t) (i : str) :
  DirectedGraph.getNode (DirectedGraph.mk name (ns ++ [n])) i
  = match DirectedGraph.getNode (DirectedGraph.mk name ns) i with
    | Some m => Some m
    | None => if str_eqb i (Node.id n) then Some n else None
    end.
Proof.
  unfold DirectedGraph.getNode. simpl.
  induction ns as [|m ns IH]; simpl; [unfold Node.eqb_id; reflexivity|].
  destruct (Node.eqb_id m i); [reflexivity | exact IH].
Qed.

(** A node with a new id is found under its id after [addNode], and
    every other lookup answers as before. *)
Theorem addNode_then_getNode (g : DirectedGraph.t) (n : Node.t) :
  ~ In (Node.id n) (ids g) ->
  exists g',
    DirectedGraph.addNode g n = Ok g'
    /\ DirectedGraph.getNode g' (Node.id n) = Some n
    /\ forall i, i <> Node.id n ->
                 DirectedGraph.getNode g' i = DirectedGraph.getNode g i.
Proof.
  intros Hfresh. eexists. split; [apply addNode_fresh; exact Hfresh|].
  destruct g as [name ns]. simpl. split.
  - rewrite getNode_app_fresh.
    apply getNode_None in Hfresh. rewrite Hfresh, str_eqb_refl. reflexivity.
  - intros i Hi. rewrite getNode_app_fresh.
    destruct (DirectedGraph.getNode _ i); [reflexivity|].
    apply str_eqb_neq in Hi. rewrite Hi. reflexivity.
Qed.

Lemma addNode_then_getNode_witness :
  exists g',
    DirectedGraph.addNode Examples.bare Examples.lab_b = Ok g'
    /\ DirectedGraph.getNode g' (Node.id Examples.lab_b)
       = Some Examples.lab_b
    /\ forall i, i <> Node.id Examples.lab_b ->
                 DirectedGraph.getNode g' i
                 = DirectedGraph.getNode Examples.bare i.
Proof.
  apply (addNode_then_getNode Examples.bare Examples.lab_b).
  simpl. intros [H|[]]. discriminate H.
Defined.

Lemma removeNode_inv (g g' : DirectedGraph.t) (i : str) :
  DirectedGraph.removeNode g i = Ok g' ->
  In i (ids g)
  /\ g' = DirectedGraph.mk (DirectedGraph.name g)
            (filter (fun m => negb (str_eqb (Node.id m) i))
                    (map (DirectedGraph.strip_edges i)
                         (DirectedGraph.nodes g))).
Proof.
  unfold DirectedGraph.removeNode. intros H.
  destruct (DirectedGraph.getNode g i) as [n'|] eqn:E; [|discriminate].
  destruct (getNode_Some _ _ _ E) as [Hin Hid]. split.
  - rewrite <- Hid. apply in_map; exact Hin.
  - inversion H. unfold Node.set_remove, Node.eqb. rewrite Hid. reflexivity.
Qed.

(** [removeNode] raises [KeyError] exactly for an id that no resident
    node has; for a resident id it returns a graph. *)
Theorem removeNode_absent (g : DirectedGraph.t) (i : str) :
  (DirectedGraph.removeNode g i = Raise KeyError <-> ~ In i (ids g))
  /\ (In i (ids g) -> exists g', DirectedGraph.removeNode g i = Ok g').
Proof.
  unfold DirectedGraph.removeNode.
  destruct (DirectedGraph.getNode g i) as [n'|] eqn:E.
  - destruct (getNode_Some _ _ _ E) as [Hin Hid].
    assert (Hp : In i (ids g)) by (rewrite <- Hid; apply in_map; exact Hin).
    split; [split; [discriminate | tauto] | eauto].
  - apply getNode_None in E. split; [tauto | contradiction].
Qed.

Lemma removeNode_absent_witness :
  exists g', DirectedGraph.removeNode Examples.labelled (lit "a") = Ok g'.
Proof.
  apply (proj2 (removeNode_absent Examples.labelled (lit "a"))).
  simpl; auto.
Defined.

Lemma strip_edges_closed (i : str) (m : Node.t) :
  ~ In i (Node.edges m) -> DirectedGraph.strip_edges i m = m.
Proof.
  intros H. unfold DirectedGraph.strip_edges.
  destruct (Node.eqb_id m i); [reflexivity|].
  replace (filter (fun e => negb (str_eqb e i)) (Node.edges m))
    with (Node.edges m); [destruct m; reflexivity|].
  induction (Node.edges m) as [|e es IH]; simpl; [reflexivity|].
  simpl in H. assert (E : str_eqb e i = false)
    by (apply str_eqb_neq; tauto).
  rewrite E. simpl. rewrite <- IH by tauto. reflexivity.
Qed.

(** In a graph whose edges lead to resident nodes, inserting a node with
    a new id and removing it again gives the graph back. *)
Theorem addNode_then_removeNode (g : DirectedGraph.t) (n : Node.t) :
  closed g -> ~ In (Node.id n) (ids g) ->
  (g1 <- DirectedGraph.addNode g n ;;
   DirectedGraph.removeNode g1 (Node.id n)) = Ok g.
Proof.
  intros Hclosed Hfresh. rewrite addNode_fresh by exact Hfresh. cbn [bind].
  assert (Hin : In n (DirectedGraph.nodes g ++ [n]))
    by (apply in_or_app; right; left; reflexivity).
  rewrite (removeNode_nodes (DirectedGraph.mk _ _) n Hin).
  destruct g as [name ns]. simpl in *. f_equal. f_equal.
  rewrite map_app, filter_app. simpl.
  rewrite strip_edges_id, str_eqb_refl. simpl. rewrite app_nil_r.
  assert (Hall : forall l, incl l ns ->
             filter (fun m => negb (str_eqb (Node.id m) (Node.id n)))
                    (map (DirectedGraph.strip_edges (Node.id n)) l) = l).
  { induction l as [|m l IH]; intros Hl; [reflexivity|]. simpl.
    assert (Hm : In m ns) by (apply Hl; left; reflexivity).
    rewrite strip_edges_closed.
    - assert (E : str_eqb (Node.id m) (Node.id n) = false).
      { apply str_eqb_neq. intros E. apply Hfresh. unfold ids. simpl.
        rewrite <- E. apply in_map; exact Hm. }
      rewrite E. simpl. rewrite IH; [reflexivity|].
      intros x Hx. apply Hl. right; exact Hx.
    - intros He. apply Hfresh. apply (Hclosed m _ Hm He). }
  apply Hall, incl_refl.
Qed.

Lemma addNode_then_removeNode_witness :
  (g1 <- DirectedGraph.addNode Examples.labelled Examples.fresh_z ;;
   DirectedGraph.removeNode g1 (Node.id Examples.fresh_z))
  = Ok Examples.labelled.
Proof.
  apply (addNode_then_removeNode Examples.labelled Examples.fresh_z
           closed_labelled).
  simpl. intros [H|[H|[]]]; discriminate H.
Defined.

(** ** What the graph operations keep *)

Lemma addEdge_inv (g g' : DirectedGraph.t) (a b : str) :
  DirectedGraph.addEdge g a b = Ok g' ->
  In a (ids g) /\ In b (ids g)
  /\ g' = DirectedGraph.mk (DirectedGraph.name g)
            (DirectedGraph.update_first a (fun s => Node.addEdge s b)
                                        (DirectedGraph.nodes g)).
Proof.
  intros H.
  destruct (Py.mem a (ids g)) eqn:Ha;
    [apply Py_mem_In in Ha | apply Py_mem_false in Ha].
  - destruct (Py.mem b (ids g)) eqn:Hb;
      [apply Py_mem_In in Hb | apply Py_mem_false in Hb].
    + rewrite addEdge_present in H by assumption. inversion H. auto.
    + rewrite addEdge_absent in H by tauto. discriminate.
  - rewrite addEdge_absent in H by tauto. discriminate.
Qed.

Lemma NoDup_snoc (A : Type) (l : list A) (x : A) :
  NoDup l -> ~ In x l -> NoDup (l ++ [x]).
Proof.
  intros Hl Hx. apply NoDup_rev in Hl.
  rewrite <- (rev_involutive (l ++ [x])). apply NoDup_rev.
  rewrite rev_unit. constructor; [|exact Hl].
  rewrite <- in_rev. exact Hx.
Qed.

Lemma Node_set_add_NoDup (n : Node.t) (s : list Node.t) :
  NoDup (map Node.id s) -> NoDup (map Node.id (Node.set_add n s)).
Proof.
  intros H. unfold Node.set_add. destruct (Node.mem n s) eqn:E; [exact H|].
  apply Node_mem_false in E. rewrite map_app. simpl.
  apply NoDup_snoc; assumption.
Qed.

Lemma of_nodes_fold (i : str) (ns : list Node.t) :
  forall acc,
    find (fun s => Node.eqb_id s i)
         (fold_left (fun s n => Node.set_add n s) ns acc)
    = match find (fun s => Node.eqb_id s i) acc with
      | Some m => Some m
      | None => find (fun s => Node.eqb_id s i) ns
      end.
Proof.
  induction ns as [|n ns IH]; intros acc; simpl.
  - destruct (find _ acc); reflexivity.
  - rewrite IH. unfold Node.set_add.
    destruct (Node.mem n acc) eqn:E.
    + destruct (find (fun s => Node.eqb_id s i) acc) eqn:F; [reflexivity|].
      destruct (Node.eqb_id n i) eqn:Ei; [|reflexivity].
      exfalso. unfold Node.eqb_id in Ei. apply str_eqb_eq in Ei.
      apply Node_mem_In in E. rewrite <- Ei in E.
      apply (proj1 (getNode_None (DirectedGraph.mk None acc) i) F E).
    + pose proof (getNode_app_fresh None acc n i) as H.
      unfold DirectedGraph.getNode in H. simpl in H. rewrite H.
      destruct (find (fun s => Node.eqb_id s i) acc); [reflexivity|].
      unfold Node.eqb_id. destruct (str_eqb i (Node.id n)); reflexivity.
Qed.

Lemma of_nodes_NoDup (ns : list Node.t) :
  forall acc,
    NoDup (map Node.id acc) ->
    NoDup (map Node.id (fold_left (fun s n => Node.set_add n s) ns acc)).
Proof.
  induction ns as [|n ns IH]; intros acc H; simpl; [exact H|].
  apply IH, Node_set_add_NoDup, H.
Qed.

(** A graph built from a list of nodes has distinct ids, and under each
    id it holds the first node of the list with that id. *)
Theorem of_nodes_first_wins (name : option str) (ns : list Node.t) :
  NoDup (ids (DirectedGraph.of_nodes name ns))
  /\ forall i,
      DirectedGraph.getNode (DirectedGraph.of_nodes name ns) i
      = find (fun s => Node.eqb_id s i) ns.
Proof.
  split.
  - unfold ids, DirectedGraph.of_nodes. simpl.
    apply of_nodes_NoDup. constructor.
  - intros i. unfold DirectedGraph.getNode, DirectedGraph.of_nodes. simpl.
    rewrite of_nodes_fold. reflexivity.
Qed.

Lemma addNode_NoDup (g g' : DirectedGraph.t) (n : Node.t) :
  NoDup (ids g) -> DirectedGraph.addNode g n = Ok g' -> NoDup (ids g').
Proof.
  intros Hnd H. inversion H. unfold ids. simpl.
  apply Node_set_add_NoDup. exact Hnd.
Qed.

Lemma addEdge_ids (g g' : DirectedGraph.t) (a b : str) :
  DirectedGraph.addEdge g a b = Ok g' -> ids g' = ids g.
Proof.
  intros H. apply addEdge_inv in H. destruct H as [_ [_ ->]].
  unfold ids; simpl; apply update_first_ids; reflexivity.
Qed.

Lemma removeNode_ids (g g' : DirectedGraph.t) (i : str) :
  DirectedGraph.removeNode g i = Ok g' ->
  ids g' = filter (fun j => negb (str_eqb j i)) (ids g).
Proof.
  intros H. apply removeNode_inv in H. destruct H as [_ ->].
  unfold ids. simpl.
  induction (DirectedGraph.nodes g) as [|m l IH]; simpl; [reflexivity|].
  rewrite strip_edges_id.
  destruct (str_eqb (Node.id m) i); simpl;
    rewrite ?strip_edges_id, IH; reflexivity.
Qed.

(** The ids of a graph stay distinct under [addNode], [addEdge] and
    [removeNode]; [addEdge] keeps the ids as they are, and [removeNode]
    takes away the one id it is given. *)
Theorem distinct_ids_kept (g : DirectedGraph.t) :
  NoDup (ids g) ->
  (forall n g', DirectedGraph.addNode g n = Ok g' -> NoDup (ids g'))
  /\ (forall a b g', DirectedGraph.addEdge g a b = Ok g' ->
                     ids g' = ids g /\ NoDup (ids g'))
  /\ (forall i g', DirectedGraph.removeNode g i = Ok g' ->
                   NoDup (ids g') /\ ~ In i (ids g')).
Proof.
  intros Hnd. split; [|split].
  - intros n g' H. apply (addNode_NoDup g g' n Hnd H).
  - intros a b g' H. rewrite (addEdge_ids g g' a b H). auto.
  - intros i g' H. rewrite (removeNode_ids g g' i H). split.
    + apply NoDup_filter. exact Hnd.
    + intros Hin. apply filter_In in Hin. destruct Hin as [_ Hin].
      rewrite str_eqb_refl in Hin. discriminate.
Qed.

Lemma distinct_ids_kept_witness :
  exists g',
    DirectedGraph.removeNode Examples.labelled (lit "a") = Ok g'
    /\ NoDup (ids g') /\ ~ In (lit "a") (ids g').
Proof.
  eexists. split; [reflexivity|].
  apply (proj2 (proj2 (distinct_ids_kept Examples.labelled
                         ltac:(apply distinct_NoDup; reflexivity)))
               (lit "a")).
  reflexivity.
Defined.

Lemma update_first_In (i : str) (f : Node.t -> Node.t) (ns : list Node.t)
      (m : Node.t) :
  In m (DirectedGraph.update_first i f ns) ->
  In m ns \/ exists m0, In m0 ns /\ Node.id m0 = i /\ m = f m0.
Proof.
  induction ns as [|s ns IH]; simpl; [tauto|].
  destruct (Node.eqb_id s i) eqn:E; simpl.
  - intros [<-|H]; [|tauto]. right. exists s.
    unfold Node.eqb_id in E. apply str_eqb_eq in E. auto.
  - intros [<-|H]; [tauto|]. destruct (IH H) as [H'|[m0 [H1 H2]]];
      [tauto|]. right. exists m0. tauto.
Qed.

Lemma addEdge_closed (g g' : DirectedGraph.t) (a b : str) :
  closed g -> DirectedGraph.addEdge g a b = Ok g' -> closed g'.
Proof.
  intros Hclosed H. apply addEdge_inv in H. destruct H as [_ [Hb ->]].
  intros m e Hm He. unfold ids. simpl in *.
  rewrite update_first_ids by reflexivity.
  apply update_first_In in Hm. destruct Hm as [Hm|[m0 [Hm0 [_ ->]]]].
  - apply (Hclosed m e Hm He).
  - simpl in He. unfold Py.set_add in He.
    destruct (Py.mem b (Node.edges m0)).
    + apply (Hclosed m0 e Hm0 He).
    + apply in_app_or in He. destruct He as [He|[<-|[]]];
        [apply (Hclosed m0 e Hm0 He) | exact Hb].
Qed.

Lemma removeNode_closed (g g' : DirectedGraph.t) (i : str) :
  closed g -> DirectedGraph.removeNode g i = Ok g' -> closed g'.
Proof.
  intros Hclosed H. apply removeNode_inv in H. destruct H as [_ ->].
  intros m e Hm He. simpl in Hm. apply filter_In in Hm.
  destruct Hm as [Hm Hmi]. apply in_map_iff in Hm.
  destruct Hm as [m0 [<- Hm0]]. rewrite strip_edges_id in Hmi.
  apply negb_true_iff, str_eqb_neq in Hmi.
  apply strip_edges_other in He; [|exact Hmi]. destruct He as [He Hei].
  pose proof (Hclosed m0 e Hm0 He) as Hin. unfold ids in *. simpl.
  apply in_map_iff in Hin. destruct Hin as [m1 [Hid Hm1]].
  apply in_map_iff. exists (DirectedGraph.strip_edges i m1).
  split; [rewrite strip_edges_id; exact Hid|].
  apply filter_In. split; [apply in_map; exact Hm1|].
  rewrite strip_edges_id. apply negb_true_iff, str_eqb_neq. congruence.
Qed.

Lemma addNode_closed (g g' : DirectedGraph.t) (n : Node.t) :
  closed g ->
  (forall e, In e (Node.edges n) -> In e (ids g) \/ e = Node.id n) ->
  DirectedGraph.addNode g n = Ok g' -> closed g'.
Proof.
  intros Hclosed Hn H. inversion H. subst g'. clear H.
  unfold Node.set_add. destruct (Node.mem n (DirectedGraph.nodes g)) eqn:E.
  - intros m e Hm He. apply (Hclosed m e Hm He).
  - intros m e Hm He. unfold ids. simpl in *. rewrite map_app.
    apply in_or_app. apply in_app_or in Hm. destruct Hm as [Hm|[<-|[]]].
    + left. apply (Hclosed m e Hm He).
    + destruct (Hn e He) as [H| ->]; [left; exact H|].
      right; left; reflexivity.
Qed.

(** A graph whose edges lead to resident nodes stays so under [addEdge]
    and [removeNode], and under [addNode] of a node whose own edges lead
    to resident nodes or to itself. *)
Theorem closed_kept (g : DirectedGraph.t) :
  closed g ->
  (forall a b g', DirectedGraph.addEdge g a b = Ok g' -> closed g')
  /\ (forall i g', DirectedGraph.removeNode g i = Ok g' -> closed g')
  /\ (forall n g',
         (forall e, In e (Node.edges n) ->
                    In e (ids g) \/ e = Node.id n) ->
         DirectedGraph.addNode g n = Ok g' -> closed g').
Proof.
  intros Hclosed. split; [|split].
  - intros a b g' H. apply (addEdge_closed g g' a b Hclosed H).
  - intros i g' H. apply (removeNode_closed g g' i Hclosed H).
  - intros n g' Hn H. apply (addNode_closed g g' n Hclosed Hn H).
Qed.

Lemma closed_kept_witness :
  exists g',
    DirectedGraph.addEdge Examples.labelled (lit "a") (lit "a") = Ok g'
    /\ closed g'.
Proof.
  eexists. split; [reflexivity|].
  apply (proj1 (closed_kept Examples.labelled closed_labelled)
               (lit "a") (lit "a")).
  reflexivity.
Defined.

Lemma update_first_find_other (a i : str) (f : Node.t -> Node.t)
      (ns : list Node.t) :
  (forall s, Node.id (f s) = Node.id s) -> i <> a ->
  find (fun s => Node.eqb_id s i) (DirectedGraph.update_first a f ns)
  = find (fun s => Node.eqb_id s i) ns.
Proof.
  intros Hid Hne. induction ns as [|s ns IH]; simpl; [reflexivity|].
  destruct (Node.eqb_id s a) eqn:Ea; simpl.
  - unfold Node.eqb_id in *. rewrite Hid.
    apply str_eqb_eq in Ea.
    assert (E : str_eqb i (Node.id s) = false)
      by (apply str_eqb_neq; congruence).
    rewrite E. reflexivity.
  - destruct (Node.eqb_id s i); [reflexivity | exact IH].
Qed.

(** A successful [addEdge(a, b)] has both ends resident, keeps the name
    and the ids, gives the node found under [a] the edge to [b] and its
    attributes as they were, and leaves the node found under any other
    id as it was. *)
Theorem addEdge_effect (g g' : DirectedGraph.t) (a b : str) :
  DirectedGraph.addEdge g a b = Ok g' ->
  In a (ids g) /\ In b (ids g)
  /\ DirectedGraph.name g' = DirectedGraph.name g
  /\ ids g' = ids g
  /\ DirectedGraph.getNode g' a
     = option_map (fun n => Node.addEdge n b) (DirectedGraph.getNode g a)
  /\ forall i, i <> a ->
                 DirectedGraph.getNode g' i = DirectedGraph.getNode g i.
Proof.
  intros H. apply addEdge_inv in H. destruct H as [Ha [Hb ->]].
  split; [exact Ha|]. split; [exact Hb|]. split; [reflexivity|].
  split; [unfold ids; simpl; apply update_first_ids; reflexivity|].
  unfold DirectedGraph.getNode. simpl. split.
  - apply update_first_find. reflexivity.
  - intros i Hi. apply update_first_find_other; [reflexivity | exact Hi].
Qed.

Lemma addEdge_effect_witness :
  exists g',
    DirectedGraph.addEdge Examples.labelled (lit "a") (lit "a") = Ok g'
    /\ DirectedGraph.getNode g' (lit "b") = Some Examples.lab_b.
Proof.
  eexists. split; [reflexivity|].
  apply (proj2 (proj2 (proj2 (proj2 (proj2
           (addEdge_effect Examples.labelled _ (lit "a") (lit "a")
                           eq_refl))))) (lit "b")).
  discriminate.
Defined.

(** ** What every parsed graph satisfies *)

Lemma parseNodeDefinition_inv (g g' : DirectedGraph.t) (l : str) (b : bool) :
  DotReader.parseNodeDefinition g l = Ok (b, g') ->
  (b = false /\ g' = g)
  \/ (b = true
      /\ exists n, Node.edges n = [] /\ DirectedGraph.addNode g n = Ok g').
Proof.
  unfold DotReader.parseNodeDefinition. intros H.
  destruct (rmatch DotReader.node_definition_re l)
    as [[|i [|raw [|x caps]]]|];
    try (inversion H; left; split; reflexivity).
  destruct (DotReader.parseAttributes raw) as [attrs|]; simpl in H;
    [|discriminate].
  inversion H. right. split; [reflexivity|].
  exists (Node.mk i [] attrs). split; reflexivity.
Qed.

Lemma parseEdgeDefinition_inv (g g' : DirectedGraph.t) (l : str) (b : bool) :
  DotReader.parseEdgeDefinition g l = Ok (b, g') ->
  (b = false /\ g' = g)
  \/ (b = true /\ exists n1 n2, DirectedGraph.addEdge g n1 n2 = Ok g').
Proof.
  unfold DotReader.parseEdgeDefinition. intros H.
  destruct (rmatch DotReader.edge_re l) as [[|n1 [|n2 [|x caps]]]|];
    try (inversion H; left; split; reflexivity).
  destruct (DirectedGraph.addEdge g n1 n2) as [g1|] eqn:E; simpl in H;
    [|discriminate].
  inversion H. subst. right. split; [reflexivity|]. eauto.
Qed.

Lemma statements_keep (P : DirectedGraph.t -> Prop) :
  (forall g n g', P g -> Node.edges n = [] ->
                  DirectedGraph.addNode g n = Ok g' -> P g') ->
  (forall g a b g', P g -> DirectedGraph.addEdge g a b = Ok g' -> P g') ->
  forall lines g g' rest,
    P g -> DotReader.statements g lines = Ok (g', rest) -> P g'.
Proof.
  intros Hnode Hedge.
  induction lines as [|l lines IH]; intros g g' rest Hg H; simpl in H.
  - inversion H; subst. exact Hg.
  - destruct (DotReader.parseNodeDefinition g l) as [[isnode g1]|] eqn:En;
      simpl in H; [|discriminate].
    apply parseNodeDefinition_inv in En.
    destruct En as [[-> ->]|[-> [n [Hn Hadd]]]].
    + destruct (DotReader.parseEdgeDefinition g l) as [[isedge g2]|] eqn:Ee;
        simpl in H; [|discriminate].
      apply parseEdgeDefinition_inv in Ee.
      destruct Ee as [[-> ->]|[-> [a [b Hadd]]]].
      * inversion H; subst. exact Hg.
      * apply (IH g2 g' rest); [|exact H]. apply (Hedge g a b g2 Hg Hadd).
    + apply (IH g1 g' rest); [|exact H]. apply (Hnode g n g1 Hg Hn Hadd).
Qed.

(** Whatever the text, a graph that [fromDot] returns has a name,
    distinct ids, and edges that lead to its own nodes only. *)
Theorem fromDot_well_formed (text : str) (g : DirectedGraph.t) :
  fromDot text = Ok g ->
  (exists nm, DirectedGraph.name g = Some nm)
  /\ NoDup (ids g)
  /\ closed g.
Proof.
  unfold fromDot, DotReader.parse, DotReader.parse_lines. intros H.
  destruct (DotReader.nonblank_lines text) as [|l0 rest]; [discriminate|].
  unfold DotReader.parseIntroducer in H.
  destruct (rmatch DotReader.introducer_re l0) as [[|nm [|x caps]]|];
    try discriminate.
  cbn [negb] in H.
  destruct (DotReader.statements _ rest) as [[g1 remaining]|] eqn:E;
    simpl in H; [|discriminate].
  assert (Hg : g1 = g).
  { destruct remaining as [|l r]; [discriminate|].
    destruct (DotReader.parseCloser l); [|discriminate].
    inversion H; reflexivity. }
  subst g1.
  apply (statements_keep
           (fun g => DirectedGraph.name g = Some nm /\ NoDup (ids g)
                     /\ closed g)) in E.
  - destruct E as [E1 [E2 E3]]. eauto.
  - intros g0 n g0' [Hname [Hnd Hcl]] Hn Hadd.
    split; [inversion Hadd; exact Hname|].
    split; [apply (addNode_NoDup g0 g0' n Hnd Hadd)|].
    apply (addNode_closed g0 g0' n Hcl); [|exact Hadd].
    rewrite Hn. intros e [].
  - intros g0 a b g0' [Hname [Hnd Hcl]] Hadd.
    split; [apply addEdge_inv in Hadd; destruct Hadd as [_ [_ ->]];
            exact Hname|].
    split; [rewrite (addEdge_ids g0 g0' a b Hadd); exact Hnd|].
    apply (addEdge_closed g0 g0' a b Hcl Hadd).
  - simpl. split; [reflexivity|]. split; [constructor|].
    intros n e [].
Qed.

Lemma fromDot_well_formed_witness :
  (exists nm, DirectedGraph.name Examples.labelled = Some nm)
  /\ NoDup (ids Examples.labelled)
  /\ closed Examples.labelled.
Proof.
  apply (fromDot_well_formed
           (dot_text (lit "deps")
                     (node_lines (DirectedGraph.nodes Examples.labelled))
                     (edge_lines (DirectedGraph.nodes Examples.labelled)))).
  reflexivity.
Defined.

(** ** The queue of the traversal *)

Lemma maybe_push_back_inv (q : BFS.t) (n : Node.t) :
  BFS.maybe_push_back q n
  = Ok (if BFS.seen q n then q
        else BFS.mk (BFS.visited q ++ [n]) (BFS.to_visit q ++ [n])
                    (BFS.start q)).
Proof.
  unfold BFS.maybe_push_back, BFS.push_back, BFS.seen.
  destruct (Node.mem n (BFS.visited q)) eqn:E; [reflexivity|].
  simpl. rewrite (Node_set_add_fresh _ _ E). reflexivity.
Qed.

(** [maybe_push_back] never raises, whatever the queue.  A run of calls
    marks exactly the nodes it is given, and appends to the queue, in the
    order of their first call, the nodes that were not marked before,
    each of them once. *)
Theorem maybe_push_back_once (l : list Node.t) (q : BFS.t) :
  exists q' added,
    push_all q l = Ok q'
    /\ BFS.start q' = BFS.start q
    /\ BFS.to_visit q' = BFS.to_visit q ++ added
    /\ BFS.visited q' = BFS.visited q ++ added
    /\ NoDup (map Node.id added)
    /\ (forall x, In x added -> In x l /\ BFS.seen q x = false)
    /\ (forall n, BFS.seen q' n = BFS.seen q n || Node.mem n l).
Proof.
  revert q. induction l as [|n l IH]; intros q.
  - exists q, []. simpl. rewrite !app_nil_r.
    split; [reflexivity|]. split; [reflexivity|]. split; [reflexivity|].
    split; [reflexivity|]. split; [constructor|].
    split; [intros x []|]. intros n. rewrite orb_false_r. reflexivity.
  - simpl. rewrite maybe_push_back_inv. cbn [bind].
    destruct (BFS.seen q n) eqn:Hseen.
    + destruct (IH q) as [q' [added [H [Hs [Hq [Hv [Hnd [Hin Hmem]]]]]]]].
      exists q', added.
      split; [exact H|]. split; [exact Hs|]. split; [exact Hq|].
      split; [exact Hv|]. split; [exact Hnd|]. split.
      * intros x Hx. destruct (Hin x Hx) as [H1 H2].
        split; [right; exact H1 | exact H2].
      * intros m. rewrite Hmem. simpl.
        destruct (Node.eqb n m) eqn:E; [|reflexivity].
        unfold BFS.seen in *. rewrite <- (Node_mem_eqb _ _ _ E), Hseen.
        reflexivity.
    + destruct (IH (BFS.mk (BFS.visited q ++ [n]) (BFS.to_visit q ++ [n])
                           (BFS.start q)))
        as [q' [added [H [Hs [Hq [Hv [Hnd [Hin Hmem]]]]]]]].
      simpl in *. unfold BFS.seen in *. simpl in *.
      exists q', (n :: added).
      split; [exact H|]. split; [exact Hs|].
      split; [rewrite Hq, <- app_assoc; reflexivity|].
      split; [rewrite Hv, <- app_assoc; reflexivity|].
      split; [|split].
      * simpl. constructor; [|exact Hnd].
        intros Hx. apply in_map_iff in Hx. destruct Hx as [x [Hid Hx]].
        destruct (Hin x Hx) as [_ Hf]. rewrite Node_mem_app in Hf.
        apply orb_false_iff in Hf. destruct Hf as [_ Hf]. simpl in Hf.
        unfold Node.eqb in Hf. rewrite Hid, str_eqb_refl in Hf.
        discriminate.
      * intros x [<-|Hx]; [split; [left; reflexivity | exact Hseen]|].
        destruct (Hin x Hx) as [H1 H2]. split; [right; exact H1|].
        rewrite Node_mem_app in H2. apply orb_false_iff in H2. tauto.
      * intros m. rewrite Hmem, Node_mem_app. simpl.
        rewrite orb_false_r, orb_assoc. reflexivity.
Qed.

(** ** Statements the reader refuses or ignores *)

Lemma node_redeclared (g : DirectedGraph.t) (resident : list str)
      (n : Node.t) :
  node_ok resident n = true -> In (Node.id n) (ids g) ->
  DotReader.parseNodeDefinition g (DotEmitter.node_str n) = Ok (true, g).
Proof.
  intros H Hin. apply node_ok_inv in H.
  destruct H as [Hid [Hne [Hd [Hattrs _]]]].
  unfold DotReader.parseNodeDefinition.
  rewrite node_str_shape by exact Hne.
  rewrite node_re_match; [|exact Hid|discriminate|].
  - rewrite parseAttributes_written by assumption. cbn [bind].
    unfold DirectedGraph.addNode, Node.set_add. cbn [bind].
    assert (Hm : Node.mem (Node.mk (Node.id n) [] (Node.attributes n))
                          (DirectedGraph.nodes g) = true)
      by (apply Node_mem_In; exact Hin).
    rewrite Hm. destruct g; reflexivity.
  - apply raw_attributes_forallb; auto.
    + intros c Hc. apply word_not_char; [reflexivity | exact Hc].
    + intros c Hc. apply value_char_inv in Hc. tauto.
Qed.

(** A node statement for an id that the graph read so far already holds
    is accepted and changes nothing: the node declared first stays, with
    its attributes and edges, and reading goes on with the next line. *)
Theorem node_statement_twice (g : DirectedGraph.t) (resident : list str)
        (n : Node.t) (rest : list str) :
  node_ok resident n = true -> In (Node.id n) (ids g) ->
  DotReader.parseNodeDefinition g (DotEmitter.node_str n) = Ok (true, g)
  /\ DotReader.statements g (DotEmitter.node_str n :: rest)
     = DotReader.statements g rest.
Proof.
  intros H Hin. pose proof (node_redeclared g resident n H Hin) as E.
  split; [exact E|]. simpl. rewrite E. reflexivity.
Qed.

Lemma node_statement_twice_witness :
  DotReader.parseNodeDefinition Examples.labelled
    (DotEmitter.node_str Examples.dup_a)
  = Ok (true, Examples.labelled)
  /\ DotReader.statements Examples.labelled
       (DotEmitter.node_str Examples.dup_a :: [lit "}"])
     = DotReader.statements Examples.labelled [lit "}"].
Proof.
  apply (node_statement_twice Examples.labelled [] Examples.dup_a).
  - reflexivity.
  - simpl; auto.
Defined.

(** An edge statement is refused with [AssertionError] unless node
    statements for both of its ends come before it: whatever follows,
    the text of an introducer, node statements and an edge statement
    with an end that none of them declares does not parse. *)
Theorem edge_before_node (nm : str) (ns : list Node.t) (a b : str)
        (tail : str) :
  name_ok nm = true -> forallb (node_ok []) ns = true ->
  NoDup (map Node.id ns) ->
  word_ok a = true -> word_ok b = true ->
  ~ In a (map Node.id ns) \/ ~ In b (map Node.id ns) ->
  fromDot (introducer_line nm
           ++ LF :: block (node_lines ns ++ [DotEmitter.edge_str a b])
           ++ LF :: tail)
  = Raise AssertionError.
Proof.
  intros Hnm Hns Hnd Ha Hb Habsent.
  destruct (node_lines_facts _ _ Hns) as [Hnt Hnl].
  unfold fromDot, DotReader.parse.
  rewrite nonblank_lines_line by (apply introducer_line_char; exact Hnm).
  rewrite (strip_tidy_id _ (introducer_line_tidy nm)).
  rewrite (nonempty_tidy _ (introducer_line_tidy nm)).
  rewrite nonblank_lines_block.
  - cbn [app]. unfold DotReader.parse_lines.
    rewrite parseIntroducer_written by exact Hnm.
    cbn [negb].
    unfold DotReader.init, DirectedGraph.init, DirectedGraph.setName.
    cbn [DirectedGraph.nodes]. rewrite <- app_assoc.
    rewrite (statements_nodes []) by (assumption || (simpl; exact Hnd)).
    cbn [DirectedGraph.name DirectedGraph.nodes app].
    rewrite statements_edge by assumption.
    rewrite addEdge_absent; [reflexivity|].
    unfold ids. cbn [DirectedGraph.nodes]. rewrite map_map.
    exact Habsent.
  - apply Forall_app. split; [exact Hnt|].
    constructor; [apply edge_str_tidy; exact Ha | constructor].
  - apply Forall_app. split; [exact Hnl|].
    constructor; [apply edge_str_line_char; assumption | constructor].
Qed.

Lemma edge_before_node_witness :
  fromDot (introducer_line (lit "g")
           ++ LF :: block (node_lines [Examples.same_x]
                           ++ [DotEmitter.edge_str (lit "x") (lit "y")])
           ++ LF :: block (node_lines [Examples.same_y])
           ++ LF :: lit "}")
  = Raise AssertionError.
Proof.
  apply (edge_before_node (lit "g") [Examples.same_x] (lit "x") (lit "y"));
    try reflexivity.
  - apply distinct_NoDup. reflexivity.
  - right. simpl. intros [H|[]]. discriminate H.
Defined.

Lemma statements_more (J : list str) (L : list str) :
  forall g g' l r,
    DotReader.statements g L = Ok (g', l :: r) ->
    DotReader.statements g (L ++ J) = Ok (g', (l :: r) ++ J).
Proof.
  induction L as [|x L IH]; intros g g' l r H; [discriminate|].
  cbn [DotReader.statements app] in *.
  destruct (DotReader.parseNodeDefinition g x) as [[isnode g1]|];
    cbn [bind] in *; [|discriminate].
  destruct isnode; [apply IH; exact H|].
  destruct (DotReader.parseEdgeDefinition g1 x) as [[isedge g2]|];
    cbn [bind] in *; [|discriminate].
  destruct isedge; [apply IH; exact H|].
  inversion H; subst. reflexivity.
Qed.

Lemma parse_lines_more (g g' : DirectedGraph.t) (L J : list str) :
  DotReader.parse_lines g L = Ok g' ->
  DotReader.parse_lines g (L ++ J) = Ok g'.
Proof.
  unfold DotReader.parse_lines. destruct L as [|l0 rest]; [discriminate|].
  cbn [app]. destruct (DotReader.parseIntroducer g l0) as [ok g0].
  destruct (negb ok); [discriminate|].
  destruct (DotReader.statements g0 rest) as [[g1 remaining]|] eqn:E;
    cbn [bind]; [|discriminate].
  destruct remaining as [|l r]; [discriminate|].
  rewrite (statements_more J rest g0 g1 l r E). cbn [bind app].
  destruct (DotReader.parseCloser l); [tauto | discriminate].
Qed.

Lemma splitlines_nonempty (s : str) : s <> [] -> splitlines s <> [].
Proof.
  destruct s as [|c s]; [congruence|]. intros _. simpl.
  destruct (is_linebreak c); [discriminate|].
  destruct (splitlines s); discriminate.
Qed.

Lemma splitlines_cut_upto (b : str) (n : nat) :
  forall a, length a <= n ->
            splitlines (a ++ LF :: b) = splitlines (a ++ [LF]) ++ splitlines b.
Proof.
  induction n as [|n IH]; intros a Hn.
  - destruct a; [reflexivity | simpl in Hn; lia].
  - destruct a as [|c a]; [reflexivity|]. simpl in Hn.
    cbn [app splitlines].
    destruct (is_linebreak c).
    + destruct (ascii_eqb c CR).
      * destruct a as [|c' a]; [reflexivity|]. cbn [app].
        destruct (ascii_eqb c' LF).
        -- simpl in Hn. rewrite (IH a) by lia. reflexivity.
        -- change (c' :: a ++ LF :: b) with ((c' :: a) ++ LF :: b).
           change (c' :: a ++ [LF]) with ((c' :: a) ++ [LF]).
           rewrite (IH (c' :: a)) by lia. reflexivity.
      * rewrite (IH a) by lia. reflexivity.
    + rewrite (IH a) by lia.
      destruct (splitlines (a ++ [LF])) as [|l ls] eqn:E; [|reflexivity].
      exfalso. apply (splitlines_nonempty (a ++ [LF])); [|exact E].
      destruct a; discriminate.
Qed.

Lemma splitlines_end_upto (n : nat) :
  forall a, length a <= n ->
            splitlines (a ++ [LF]) = splitlines a
            \/ splitlines (a ++ [LF]) = splitlines a ++ [[]].
Proof.
  induction n as [|n IH]; intros a Hn.
  - destruct a; [right; reflexivity | simpl in Hn; lia].
  - destruct a as [|c a]; [right; reflexivity|]. simpl in Hn.
    cbn [app splitlines].
    destruct (is_linebreak c).
    + destruct (ascii_eqb c CR).
      * destruct a as [|c' a]; [left; reflexivity|]. cbn [app].
        simpl in Hn.
        destruct (ascii_eqb c' LF).
        -- destruct (IH a ltac:(lia)) as [-> | ->]; auto.
        -- change (c' :: a ++ [LF]) with ((c' :: a) ++ [LF]).
           destruct (IH (c' :: a) ltac:(simpl; lia)) as [-> | ->]; auto.
      * destruct (IH a ltac:(lia)) as [-> | ->]; auto.
    + destruct (IH a ltac:(lia)) as [-> | ->].
      * left; reflexivity.
      * destruct (splitlines a); [left|right]; reflexivity.
Qed.

Lemma nonblank_lines_cut (a b : str) :
  DotReader.nonblank_lines (a ++ LF :: b)
  = DotReader.nonblank_lines a ++ DotReader.nonblank_lines b.
Proof.
  unfold DotReader.nonblank_lines.
  rewrite (splitlines_cut_upto b (length a) a (le_n _)).
  rewrite map_app, filter_app. f_equal.
  destruct (splitlines_end_upto (length a) a (le_n _)) as [-> | ->];
    [reflexivity|].
  rewrite map_app, filter_app. simpl. rewrite app_nil_r. reflexivity.
Qed.

(** Whatever follows the line of the closing brace is not read: a text
    that parses still parses, to the same graph, with any further lines
    after it. *)
Theorem fromDot_ignores_tail (text tail : str) (g : DirectedGraph.t) :
  fromDot text = Ok g -> fromDot (text ++ LF :: tail) = Ok g.
Proof.
  unfold fromDot, DotReader.parse. intros H.
  rewrite nonblank_lines_cut. apply parse_lines_more. exact H.
Qed.

Lemma fromDot_ignores_tail_witness :
  fromDot (dot_text (lit "g") [] [] ++ LF :: lit "a -> b; no statement")
  = Ok (DirectedGraph.mk (Some (lit "g")) []).
Proof.
  apply (fromDot_ignores_tail (dot_text (lit "g") [] [])).
  reflexivity.
Defined.

(** ** Attribute lists *)

Lemma dict_get_set (V : Type) (d : list (str * V)) (k k' : str) (v : V) :
  Py.dict_get (Py.dict_set d k v) k'
  = if str_eqb k k' then Some v else Py.dict_get d k'.
Proof.
  induction d as [|[k0 v0] d IH]; simpl; [reflexivity|].
  destruct (str_eqb k0 k) eqn:E; simpl.
  - apply str_eqb_eq in E. subst k0.
    destruct (str_eqb k k'); reflexivity.
  - rewrite IH. destruct (str_eqb k0 k') eqn:E'; [|reflexivity].
    apply str_eqb_eq in E'. subst k0. rewrite str_eqb_sym, E. reflexivity.
Qed.

Lemma dict_get_app (V : Type) (a b : list (str * V)) (k : str) :
  Py.dict_get (a ++ b) k
  = match Py.dict_get a k with
    | Some v => Some v
    | None => Py.dict_get b k
    end.
Proof.
  induction a as [|[k0 v0] a IH]; simpl; [reflexivity|].
  destruct (str_eqb k0 k); [reflexivity | exact IH].
Qed.

Lemma dict_set_keys (V : Type) (d : list (str * V)) (k : str) (v : V) :
  map fst (Py.dict_set d k v) = Py.set_add k (map fst d).
Proof.
  unfold Py.set_add. induction d as [|[k0 v0] d IH]; simpl; [reflexivity|].
  destruct (str_eqb k0 k) eqn:E; simpl; [reflexivity|].
  rewrite IH. destruct (Py.mem k (map fst d)); reflexivity.
Qed.

Lemma py_set_add_NoDup (x : str) (l : list str) :
  NoDup l -> NoDup (Py.set_add x l).
Proof.
  intros H. unfold Py.set_add. destruct (Py.mem x l) eqn:E; [exact H|].
  apply Py_mem_false in E. apply NoDup_snoc; assumption.
Qed.

Lemma assigned_fold (k : str) (kvs : list (str * str)) :
  forall acc,
    NoDup (map fst acc) ->
    let d := fold_left (fun d kv => Py.dict_set d (fst kv) (snd kv)) kvs acc in
    NoDup (map fst d)
    /\ Py.dict_get d k
       = match Py.dict_get (rev kvs) k with
         | Some v => Some v
         | None => Py.dict_get acc k
         end.
Proof.
  induction kvs as [|[k0 v0] kvs IH]; intros acc Hacc; simpl.
  - split; [exact Hacc | reflexivity].
  - destruct (IH (Py.dict_set acc k0 v0)) as [H1 H2].
    + rewrite dict_set_keys. apply py_set_add_NoDup. exact Hacc.
    + split; [exact H1|]. simpl in H2. rewrite H2, dict_get_app.
      destruct (Py.dict_get (rev kvs) k); [reflexivity|].
      rewrite dict_get_set. simpl. destruct (str_eqb k0 k); reflexivity.
Qed.

Lemma parseAttributes_loop_assigns (attrs : list (str * str)) :
  forallb attr_ok attrs = true ->
  forall acc,
    DotReader.parseAttributes_loop (map DotEmitter.attr_str attrs) acc
    = Ok (fold_left (fun d kv => Py.dict_set d (fst kv) (snd kv)) attrs acc).
Proof.
  induction attrs as [|kv attrs IH]; intros Hok acc; [reflexivity|].
  cbn [forallb] in Hok. apply andb_true_iff in Hok.
  destruct Hok as [Hkv Hok].
  cbn [map DotReader.parseAttributes_loop fold_left].
  rewrite (attr_str_match kv Hkv). apply IH. exact Hok.
Qed.

(** An attribute list in which a key comes more than once is accepted:
    the dict that [parseAttributes] returns holds every key once, with
    the value that was written last for it. *)
Theorem attribute_written_last_wins (attrs : list (str * str)) :
  attrs <> [] -> forallb attr_ok attrs = true ->
  DotReader.parseAttributes
    ([SP] ++ join (lit ", ") (map DotEmitter.attr_str attrs) ++ [SP])
  = Ok (assigned attrs)
  /\ NoDup (map fst (assigned attrs))
  /\ forall k, Py.dict_get (assigned attrs) k = Py.dict_get (rev attrs) k.
Proof.
  intros Hne Hok. split.
  - unfold DotReader.parseAttributes. rewrite stripped_parts_join.
    + apply (parseAttributes_loop_assigns attrs Hok []).
    + destruct attrs; [congruence | discriminate].
    + apply attrs_tidy; exact Hok.
    + apply attrs_facts; auto.
      * intros c Hc. apply word_not_char; [reflexivity | exact Hc].
      * intros c Hc. apply value_char_inv in Hc. tauto.
    + reflexivity.
    + reflexivity.
  - split.
    + apply (assigned_fold [] attrs [] (NoDup_nil _)).
    + intros k.
      destruct (assigned_fold k attrs [] (NoDup_nil _)) as [_ H].
      unfold assigned. simpl in H. rewrite H.
      destruct (Py.dict_get (rev attrs) k); reflexivity.
Qed.

Lemma attribute_written_last_wins_witness :
  DotReader.parseAttributes
    ([SP] ++ join (lit ", ")
               (map DotEmitter.attr_str
                    [(lit "k", lit "1"); (lit "j", lit "2");
                     (lit "k", lit "3")])
     ++ [SP])
  = Ok [(lit "k", lit "3"); (lit "j", lit "2")].
Proof.
  apply (proj1 (attribute_written_last_wins
                  [(lit "k", lit "1"); (lit "j", lit "2");
                   (lit "k", lit "3")]
                  ltac:(discriminate) eq_refl)).
Defined.

Lemma lstrip_app_outside (w y : str) :
  y <> [] -> starts_outside is_space y ->
  exists j, lstrip (w ++ y) = j ++ y
            /\ forall P, forallb P w = true -> forallb P j = true.
Proof.
  intros Hne Hy. induction w as [|c w IH].
  - exists []. split; [|reflexivity]. simpl.
    destruct y as [|d y]; [congruence|]. simpl in *. rewrite Hy. reflexivity.
  - simpl. destruct (is_space c).
    + destruct IH as [j [H1 H2]]. exists j. split; [exact H1|].
      intros P HP. simpl in HP. apply andb_true_iff in HP. apply H2. tauto.
    + exists (c :: w). split; [reflexivity | tauto].
Qed.

Lemma strip_tidy_prefix (x j : str) :
  tidy x ->
  exists j', strip (x ++ j) = x ++ j'
             /\ forall P, forallb P j = true -> forallb P j' = true.
Proof.
  intros [Hne [Hs He]]. unfold strip, rstrip.
  assert (Hl : lstrip (x ++ j) = x ++ j).
  { destruct x as [|c x]; [congruence|]. simpl in *. rewrite Hs.
    reflexivity. }
  rewrite Hl, rev_app_distr.
  destruct (lstrip_app_outside (rev j) (rev x)) as [j0 [H1 H2]].
  - intros E. apply Hne. rewrite <- (rev_involutive x), E. reflexivity.
  - exact He.
  - exists (rev j0). rewrite H1, rev_app_distr, rev_involutive.
    split; [reflexivity|]. intros P HP. rewrite forallb_rev.
    apply H2. rewrite forallb_rev. exact HP.
Qed.

Lemma attribute_re_match_more (k v junk : str) :
  word_ok k = true -> v <> [] ->
  forallb (not_char DQUOTE) v = true ->
  rmatch DotReader.attribute_re
         (k ++ lit "=" ++ [DQUOTE] ++ v ++ [DQUOTE] ++ junk)
  = Some [k; v].
Proof.
  intros Hk Hne Hv.
  destruct (word_ok_inv k Hk) as [Hk1 [Hk2 Hk3]].
  unfold rmatch, DotReader.attribute_re. cbn [seq].
  rewrite run_Star_skip
    by (destruct k; [congruence | exact Hk3]).
  rewrite run_Group by regex_side.
  rewrite run_Lit, run_Lit.
  rewrite run_Group by regex_side.
  reflexivity.
Qed.

(** The pattern of an attribute is not anchored at its end: whatever
    follows the closing quote of an attribute, up to the next comma, is
    accepted and dropped. *)
Theorem attribute_tail_dropped (kv : str * str) (junk : str) :
  attr_ok kv = true -> forallb (not_char COMMA) junk = true ->
  DotReader.parseAttributes (DotEmitter.attr_str kv ++ junk) = Ok [kv].
Proof.
  intros Hok Hjunk.
  destruct (strip_tidy_prefix (DotEmitter.attr_str kv) junk
              (attr_str_tidy kv Hok)) as [j' [Hs _]].
  unfold DotReader.parseAttributes, DotReader.stripped_parts.
  rewrite split_whole.
  - cbn [map filter]. rewrite Hs.
    assert (Hn : nonempty (DotEmitter.attr_str kv ++ j') = true).
    { destruct (attr_str_tidy kv Hok) as [Hne _].
      destruct (DotEmitter.attr_str kv); [congruence | reflexivity]. }
    rewrite Hn. cbn [DotReader.parseAttributes_loop].
    apply attr_ok_inv in Hok. destruct Hok as [Hk Hval].
    destruct (value_ok_inv _ Hval) as [Hne Hv].
    unfold DotEmitter.attr_str. rewrite <- !app_assoc.
    rewrite attribute_re_match_more; [destruct kv; reflexivity| | |];
      try assumption.
    apply forallb_impl with (P := value_char); [|exact Hv].
    intros c Hc. apply value_char_inv in Hc. tauto.
  - rewrite forallb_app, Hjunk, andb_true_r.
    apply attr_str_forallb; auto.
    + intros c Hc. apply word_not_char; [reflexivity | exact Hc].
    + intros c Hc. apply value_char_inv in Hc. tauto.
Qed.

Lemma attribute_tail_dropped_witness :
  DotReader.parseAttributes
    (DotEmitter.attr_str (lit "label", lit "A x") ++ lit "] -> !")
  = Ok [(lit "label", lit "A x")].
Proof.
  apply (attribute_tail_dropped (lit "label", lit "A x") (lit "] -> !"));
    reflexivity.
Defined.

Lemma many_starved (R : Type) (cls : ascii -> bool) (p : str)
      (k : str -> option R) :
  forallb cls p = true -> k [] = None ->
  (forall c s, cls c = true -> k (c :: s) = None) ->
  many cls p k = None.
Proof.
  intros Hp Hnil Hk. induction p as [|c p IH]; [exact Hnil|].
  simpl in *. apply andb_true_iff in Hp. destruct Hp as [Hc Hp].
  rewrite Hc, (IH Hp). apply Hk. exact Hc.
Qed.

Lemma run_Group_starved (cls : ascii -> bool) (r : regex) (p : str)
      (caps : captures) (k : str -> captures -> option captures) :
  forallb cls p = true ->
  (forall caps' k', run r [] caps' k' = None) ->
  (forall c, cls c = true -> rejects r c) ->
  run (Seq (Group (Plus cls)) r) p caps k = None.
Proof.
  intros Hp Hnil Hrej. cbn [run].
  destruct p as [|c p]; [reflexivity|].
  cbn [forallb] in Hp. apply andb_true_iff in Hp. destruct Hp as [Hc Hp].
  rewrite Hc. apply many_starved; [exact Hp | apply Hnil |].
  intros d s Hd. apply (Hrej d Hd).
Qed.

(** A comma inside the quotes of a value cuts the attribute list all
    the same, and the piece before it, left without its closing quote,
    aborts the parse as a bad attribute. *)
Theorem comma_in_value_aborts (k v rest : str) :
  word_ok k = true ->
  forallb (not_char DQUOTE) v = true -> forallb (not_char COMMA) v = true ->
  DotReader.parseAttributes (k ++ lit "=" ++ [DQUOTE] ++ v ++ COMMA :: rest)
  = Raise (Exception (lit "Bad attribute " ++ [DQUOTE]
                      ++ strip (k ++ lit "=" ++ [DQUOTE] ++ v)
                      ++ [DQUOTE])).
Proof.
  intros Hk Hq Hc.
  destruct (word_ok_inv k Hk) as [Hk1 [Hk2 Hk3]].
  assert (Hx : tidy (k ++ lit "=" ++ [DQUOTE]))
    by (apply tidy_word_end; [exact Hk | reflexivity]).
  destruct (strip_tidy_prefix _ v Hx) as [j [Hs Hj]].
  replace (k ++ lit "=" ++ [DQUOTE] ++ v ++ COMMA :: rest)
    with (((k ++ lit "=" ++ [DQUOTE]) ++ v) ++ COMMA :: rest)
    by (rewrite <- !app_assoc; reflexivity).
  replace (k ++ lit "=" ++ [DQUOTE] ++ v)
    with ((k ++ lit "=" ++ [DQUOTE]) ++ v)
    by (rewrite <- !app_assoc; reflexivity).
  unfold DotReader.parseAttributes, DotReader.stripped_parts.
  rewrite split_app.
  - cbn [map filter]. rewrite Hs.
    assert (Hn : nonempty ((k ++ lit "=" ++ [DQUOTE]) ++ j) = true)
      by (destruct k; [congruence | reflexivity]).
    rewrite Hn. cbn [DotReader.parseAttributes_loop].
    assert (Hnone : rmatch DotReader.attribute_re
                           ((k ++ lit "=" ++ [DQUOTE]) ++ j) = None).
    { unfold rmatch, DotReader.attribute_re. cbn [seq].
      rewrite <- !app_assoc.
      rewrite run_Star_skip
        by (destruct k; [congruence | exact Hk3]).
      rewrite run_Group by regex_side.
      rewrite run_Lit, run_Lit.
      apply run_Group_starved; [apply (Hj _ Hq) | reflexivity |].
      apply rejects_Lit_not_char. }
    rewrite Hnone. reflexivity.
  - rewrite !forallb_app, Hc, andb_true_r.
    rewrite (forallb_impl _ _ _ (fun c => word_not_char COMMA c eq_refl) Hk2).
    reflexivity.
Qed.

Lemma comma_in_value_aborts_witness :
  DotReader.parseAttributes
    (lit "label=" ++ [DQUOTE] ++ lit "x,y" ++ [DQUOTE])
  = Raise (Exception (lit "Bad attribute " ++ [DQUOTE]
                      ++ lit "label=" ++ [DQUOTE] ++ lit "x"
                      ++ [DQUOTE])).
Proof.
  apply (comma_in_value_aborts (lit "label") (lit "x") (lit "y" ++ [DQUOTE]));
    reflexivity.
Defined.

(** ** Layout of the text *)

Lemma lstrip_blank (w : str) : forallb is_space w = true -> lstrip w = [].
Proof.
  intros H. rewrite <- (app_nil_r w). rewrite lstrip_spaces by exact H.
  reflexivity.
Qed.

Lemma strip_padded (w1 l w2 : str) :
  forallb is_space w1 = true -> forallb is_space w2 = true ->
  strip (w1 ++ l ++ w2) = strip l.
Proof.
  intros H1 H2. unfold strip. rewrite lstrip_spaces by exact H1.
  induction l as [|c l IH].
  - simpl. rewrite lstrip_blank by exact H2. reflexivity.
  - cbn [app lstrip]. destruct (is_space c); [exact IH|].
    unfold rstrip.
    change (c :: l ++ w2) with ((c :: l) ++ w2).
    rewrite rev_app_distr, lstrip_spaces
      by (rewrite forallb_rev; exact H2).
    reflexivity.
Qed.

Lemma splitlines_one (l : str) :
  forallb line_char l = true ->
  splitlines l = if nonempty l then [l] else [].
Proof.
  induction l as [|c l IH]; [reflexivity|]. intros H.
  cbn [forallb] in H. apply andb_true_iff in H. destruct H as [Hc Hl].
  unfold line_char in Hc. apply negb_true_iff in Hc.
  cbn [splitlines nonempty]. rewrite Hc, (IH Hl).
  destruct l; reflexivity.
Qed.

Lemma nonblank_lines_one (l : str) :
  forallb line_char l = true ->
  DotReader.nonblank_lines l = if nonempty (strip l) then [strip l] else [].
Proof.
  intros H. unfold DotReader.nonblank_lines. rewrite (splitlines_one l H).
  destruct l as [|c l]; [reflexivity|]. reflexivity.
Qed.

Lemma splitlines_forallb_upto (P : ascii -> bool) (n : nat) :
  forall s, length s <= n -> forallb P s = true ->
            Forall (fun l => forallb P l = true) (splitlines s).
Proof.
  induction n as [|n IH]; intros s Hn Hs.
  - destruct s; [constructor | simpl in Hn; lia].
  - destruct s as [|c s]; [constructor|]. simpl in Hn.
    cbn [forallb] in Hs. apply andb_true_iff in Hs. destruct Hs as [Hc Hs].
    cbn [splitlines]. destruct (is_linebreak c).
    + constructor; [reflexivity|]. destruct (ascii_eqb c CR).
      * destruct s as [|c' s]; [constructor|]. simpl in Hn.
        destruct (ascii_eqb c' LF).
        -- apply IH; [lia|]. cbn [forallb] in Hs.
           apply andb_true_iff in Hs. tauto.
        -- apply IH; [simpl; lia | exact Hs].
      * apply IH; [lia | exact Hs].
    + pose proof (IH s ltac:(lia) Hs) as H.
      destruct (splitlines s) as [|l ls].
      * constructor; [simpl; rewrite Hc; reflexivity | constructor].
      * inversion H; subst. constructor; [|assumption].
        simpl. rewrite Hc. assumption.
Qed.

Lemma nonblank_lines_blank (w : str) :
  forallb is_space w = true -> DotReader.nonblank_lines w = [].
Proof.
  intros H. unfold DotReader.nonblank_lines.
  pose proof (splitlines_forallb_upto is_space (length w) w (le_n _) H) as HF.
  induction HF as [|l ls Hl _ IH]; [reflexivity|].
  cbn [map filter]. unfold strip. rewrite (lstrip_blank l Hl). exact IH.
Qed.

(** The layout of the text is not significant: white space before and
    after a line is dropped, and a line of white space only is skipped,
    wherever it stands. *)
Theorem layout_not_significant (a b : str) :
  (forall w1 l w2,
      forallb line_char (w1 ++ l ++ w2) = true ->
      forallb is_space w1 = true -> forallb is_space w2 = true ->
      fromDot (a ++ LF :: (w1 ++ l ++ w2) ++ LF :: b)
      = fromDot (a ++ LF :: l ++ LF :: b))
  /\ (forall w,
         forallb is_space w = true ->
         fromDot (a ++ LF :: w ++ LF :: b) = fromDot (a ++ LF :: b)).
Proof.
  unfold fromDot, DotReader.parse. split.
  - intros w1 l w2 Hline H1 H2.
    assert (Hl : forallb line_char l = true).
    { rewrite !forallb_app in Hline. apply andb_true_iff in Hline.
      destruct Hline as [_ Hline]. apply andb_true_iff in Hline. tauto. }
    rewrite !nonblank_lines_cut.
    rewrite (nonblank_lines_one _ Hline), (nonblank_lines_one _ Hl).
    rewrite (strip_padded w1 l w2 H1 H2). reflexivity.
  - intros w Hw. rewrite !nonblank_lines_cut.
    rewrite (nonblank_lines_blank w Hw). reflexivity.
Qed.

Lemma layout_not_significant_witness :
  fromDot (introducer_line (lit "g")
           ++ LF :: (lit "    " ++ lit "}" ++ lit "  ") ++ LF :: [])
  = Ok (DirectedGraph.mk (Some (lit "g")) []).
Proof.
  rewrite (proj1 (layout_not_significant (introducer_line (lit "g")) [])
                 (lit "    ") (lit "}") (lit "  "));
    reflexivity.
Defined.

(** ** The emitter *)

(** [DotEmitter.addNode] never takes a node with attributes: asking
    the attribute [dict] for [iteritems] raises [AttributeError] before
    the id is looked at.  A node without attributes it takes once: under
    an id it holds no statement for it stores the id followed by a
    semicolon, and it raises [AssertionError] exactly for an id it
    already holds a statement for.  After it took a node it takes no
    node with the same id. *)
Theorem emitter_addNode_once (e : DotEmitter.t) (n : Node.t) :
  (Node.attributes n <> [] ->
   DotEmitter.addNode e n = Raise AttributeError)
  /\ (Node.attributes n = [] ->
      (DotEmitter.addNode e n = Raise AssertionError
       <-> In (Node.id n) (Py.dict_keys (DotEmitter.node_strings e)))
      /\ (~ In (Node.id n) (Py.dict_keys (DotEmitter.node_strings e)) ->
          DotEmitter.addNode e n
          = Ok (DotEmitter.mk (DotEmitter.name e)
                  (Py.dict_set (DotEmitter.node_strings e) (Node.id n)
                               (Node.id n ++ lit ";"))
                  (DotEmitter.edge_strings e))))
  /\ (forall e' m,
         DotEmitter.addNode e n = Ok e' -> Node.id m = Node.id n ->
         DotEmitter.addNode e' m
         = Raise (match Node.attributes m with
                  | [] => AssertionError
                  | _ :: _ => AttributeError
                  end)).
Proof.
  pose proof (addNode_cases e n) as Hn.
  split; [|split].
  - intros Ha. destruct (Node.attributes n); [congruence | exact Hn].
  - intros Ha. rewrite Ha in Hn.
    destruct (Py.mem (Node.id n)
                     (Py.dict_keys (DotEmitter.node_strings e))) eqn:E;
      rewrite Hn.
    + apply Py_mem_In in E. split; [tauto|]. intros Hc. contradiction.
    + apply Py_mem_false in E. split; [|reflexivity].
      split; [discriminate | contradiction].
  - intros e' m H Hid. pose proof (addNode_cases e' m) as Hm.
    destruct (Node.attributes m); [|exact Hm]. rewrite Hm.
    destruct (Node.attributes n); [|rewrite Hn in H; discriminate].
    destruct (Py.mem (Node.id n)
                     (Py.dict_keys (DotEmitter.node_strings e))) eqn:E;
      rewrite Hn in H; [discriminate|].
    inversion H; subst e'. cbn [DotEmitter.node_strings].
    unfold Py.dict_keys. rewrite dict_set_keys, Hid.
    assert (Hin : Py.mem (Node.id n)
                    (Py.set_add (Node.id n)
                       (map fst (DotEmitter.node_strings e))) = true).
    { apply Py_mem_In. unfold Py.set_add, Py.dict_keys in *. rewrite E.
      apply in_or_app. right. left. reflexivity. }
    rewrite Hin. reflexivity.
Qed.

Lemma emitter_addNode_once_witness :
  DotEmitter.addNode
    (DotEmitter.mk None [(lit "a", lit "a;")] [])
    Examples.bare_a
  = Raise AssertionError.
Proof.
  apply (proj2 (proj2 (emitter_addNode_once (DotEmitter.init None)
                         Examples.bare_a))
               _ Examples.bare_a);
    reflexivity.
Defined.

(** [node_key] fails for every id the reader can produce: its assertion
    asks for the six characters of a pattern at the start of the id, the
    first of them a backslash, and an id made of word characters starts
    with none. *)
Theorem node_key_refuses_words (n : Node.t) :
  word_ok (Node.id n) = true ->
  DotEmitter.node_key n = Raise AssertionError.
Proof.
  intros H. destruct (word_ok_inv _ H) as [Hne [Hw _]].
  unfold DotEmitter.node_key.
  destruct (Node.id n) as [|c s]; [congruence|].
  cbn [forallb] in Hw. apply andb_true_iff in Hw. destruct Hw as [Hc _].
  assert (E : ascii_eqb "\"%char c = false).
  { destruct (ascii_eqb "\"%char c) eqn:E; [|reflexivity].
    apply ascii_eqb_eq in E. subst c. discriminate Hc. }
  change (lit "\w*\d+") with ("\"%char :: lit "w*\d+").
  cbn [DotEmitter.startswith]. rewrite E. reflexivity.
Qed.

Lemma node_key_refuses_words_witness :
  DotEmitter.node_key Examples.lab_a = Raise AssertionError.
Proof.
  apply (node_key_refuses_words Examples.lab_a). reflexivity.
Defined.

(** ** How the cycle finder ends *)

Lemma resident_unique (g : DirectedGraph.t) (a b : Node.t) :
  NoDup (ids g) -> In a (DirectedGraph.nodes g) ->
  In b (DirectedGraph.nodes g) -> Node.id a = Node.id b -> a = b.
Proof.
  unfold ids. intros Hnd Ha Hb E.
  induction (DirectedGraph.nodes g) as [|x l IH]; [destruct Ha|].
  simpl in Hnd. inversion Hnd as [|? ? Hx Hl]; subst.
  destruct Ha as [->|Ha]; destruct Hb as [->|Hb].
  - reflexivity.
  - exfalso. apply Hx. rewrite E. apply in_map; exact Hb.
  - exfalso. apply Hx. rewrite <- E. apply in_map; exact Ha.
  - apply IH; assumption.
Qed.

Lemma visit_edge_tracing (g : DirectedGraph.t) (s n : Node.t)
      (st st' : CycleFinder.state) (e : str) :
  In n (DirectedGraph.nodes g) -> walk g (Node.id s) (Node.id n) ->
  In e (Node.edges n) ->
  tracing g s st ->
  CycleFinder.visit_edge g n st e = Ok st' ->
  tracing g s st'.
Proof.
  intros Hn Hw He Htc H. apply visit_edge_inv in H.
  destruct H as [en [Hen [[[_ [Hb _]]|[_ [p [_ [Hb _]]]]] _]]].
  - split; rewrite Hb.
    + apply (@tc_queue _ _ _ Htc).
    + apply (@tc_visited _ _ _ Htc).
  - destruct (getNode_Some _ _ _ Hen) as [Hres Hid].
    split; rewrite Hb; simpl; intros m Hm; apply in_app_or in Hm;
      destruct Hm as [Hm|[<-|[]]].
    + apply (@tc_queue _ _ _ Htc m Hm).
    + split; [exact Hres|]. rewrite Hid.
      apply walk_step with (b := Node.id n); [exact Hw|].
      exists n. auto.
    + apply (@tc_visited _ _ _ Htc m Hm).
    + exact Hres.
Qed.

Lemma visit_edges_tracing (g : DirectedGraph.t) (s n : Node.t)
      (es : list str) :
  In n (DirectedGraph.nodes g) -> walk g (Node.id s) (Node.id n) ->
  incl es (Node.edges n) ->
  forall st st',
    tracing g s st ->
    CycleFinder.visit_edges g n st es = Ok st' ->
    tracing g s st'.
Proof.
  intros Hn Hw. induction es as [|e es IH]; intros Hincl st st' Htc H;
    simpl in H.
  - inversion H; subst. exact Htc.
  - destruct (CycleFinder.visit_edge g n st e) as [st1|] eqn:E;
      simpl in H; [|discriminate].
    apply (IH (fun x Hx => Hincl x (or_intror Hx)) st1 st'); [|exact H].
    apply (visit_edge_tracing g s n st st1 e Hn Hw
             (Hincl e (or_introl eq_refl)) Htc E).
Qed.

Lemma popped_tracing (g : DirectedGraph.t) (s n : Node.t)
      (rest : list Node.t) (st : CycleFinder.state) :
  tracing g s st -> BFS.to_visit (CycleFinder.bfs st) = n :: rest ->
  tracing g s
    (CycleFinder.mk
       (BFS.mk (BFS.visited (CycleFinder.bfs st)) rest
               (BFS.start (CycleFinder.bfs st)))
       (CycleFinder.all_paths st) (CycleFinder.all_cycles st)).
Proof.
  intros Htc Hq. split; simpl.
  - intros m Hm. apply (@tc_queue _ _ _ Htc). rewrite Hq. right; exact Hm.
  - apply (@tc_visited _ _ _ Htc).
Qed.

Lemma initial_tracing (g : DirectedGraph.t) (n : Node.t) :
  In n (DirectedGraph.nodes g) ->
  tracing g n (CycleFinder.mk (BFS.mk [n] [n] n) [(n, [n])] []).
Proof.
  intros Hn. split; simpl.
  - intros m [<-|[]]. split; [exact Hn | apply walk_nil].
  - intros m [<-|[]]. exact Hn.
Qed.

Lemma settled_kept (g : DirectedGraph.t) (n : Node.t)
      (st st' : CycleFinder.state) (e e0 : str) :
  CycleFinder.visit_edge g n st e = Ok st' ->
  settled st e0 -> settled st' e0.
Proof.
  unfold settled. intros H Hv. apply visit_edge_inv in H.
  destruct H as [en [_ [[[_ [-> _]]|[_ [p [_ [-> _]]]]] _]]]; [exact Hv|].
  simpl. rewrite map_app, Py_mem_app, Hv. reflexivity.
Qed.

Lemma visit_edge_settles (g : DirectedGraph.t) (n : Node.t)
      (st st' : CycleFinder.state) (e : str) :
  CycleFinder.visit_edge g n st e = Ok st' ->
  settled st' e.
Proof.
  unfold settled. intros H. apply visit_edge_inv in H.
  destruct H as [en [Hen [Hpush _]]].
  destruct (getNode_Some _ _ _ Hen) as [_ Hid].
  rewrite <- Hid, <- Node_mem_ids.
  destruct Hpush as [[Hseen [-> _]]|[_ [p [_ [-> _]]]]]; [exact Hseen|].
  simpl. rewrite Node_mem_app. simpl.
  rewrite Node_eqb_refl, orb_true_r. reflexivity.
Qed.

Lemma visit_edge_explored (g : DirectedGraph.t) (s n : Node.t) (i : str)
      (st st' : CycleFinder.state) (e : str) (es : list str) :
  explored g s i (e :: es) st ->
  CycleFinder.visit_edge g n st e = Ok st' ->
  explored g s i es st'.
Proof.
  intros [Hsv Hall] H.
  pose proof (visit_edge_settles g n st st' e H) as Hnew.
  pose proof (fun e0 => settled_kept g n st st' e e0 H) as Hkept.
  apply visit_edge_inv in H. destruct H as [en [Hen [Hpush _]]].
  assert (Hold : forall m,
             In m (DirectedGraph.nodes g) ->
             Node.mem m (BFS.visited (CycleFinder.bfs st)) = true ->
             Node.mem m (BFS.to_visit (CycleFinder.bfs st')) = true
             \/ forall e0, In e0 (Node.edges m) ->
                           settled st' e0 \/ (Node.id m = i /\ In e0 es)).
  { intros m Hm Hv. destruct (Hall m Hm Hv) as [Hq|He].
    - left. destruct Hpush as [[_ [-> _]]|[_ [p [_ [-> _]]]]]; [exact Hq|].
      simpl. rewrite Node_mem_app, Hq. reflexivity.
    - right. intros e0 He0. destruct (He e0 He0) as [Hd|[Hi [<-|Hin]]].
      + left. apply Hkept. exact Hd.
      + left. exact Hnew.
      + right. split; assumption. }
  destruct Hpush as [[_ [Hb _]]|[_ [p [_ [Hb _]]]]].
  - split; [rewrite Hb; exact Hsv|].
    intros m Hm Hv. rewrite Hb in Hv. apply (Hold m Hm Hv).
  - split; [rewrite Hb; simpl; rewrite Node_mem_app, Hsv; reflexivity|].
    intros m Hm Hv. rewrite Hb in Hv. simpl in Hv.
    rewrite Node_mem_app in Hv. apply orb_true_iff in Hv.
    destruct Hv as [Hv|Hv]; [apply (Hold m Hm Hv)|].
    left. rewrite Hb. simpl. rewrite Node_mem_app, Hv, orb_true_r.
    reflexivity.
Qed.

Lemma visit_edges_explored (g : DirectedGraph.t) (s n : Node.t) (i : str)
      (es : list str) :
  forall st st',
    explored g s i es st ->
    CycleFinder.visit_edges g n st es = Ok st' ->
    explored g s i [] st'.
Proof.
  induction es as [|e es IH]; intros st st' Hex H; simpl in H.
  - inversion H; subst. exact Hex.
  - destruct (CycleFinder.visit_edge g n st e) as [st1|] eqn:E;
      simpl in H; [|discriminate].
    apply (IH st1 st'); [|exact H].
    apply (visit_edge_explored g s n i st st1 e es Hex E).
Qed.

(** Once the queue is empty, the target of every edge that a walk from
    the start node reaches is marked visited. *)
Lemma explored_reach (g : DirectedGraph.t) (s : Node.t) (i : str)
      (st : CycleFinder.state) :
  explored g s i [] st ->
  BFS.to_visit (CycleFinder.bfs st) = [] ->
  forall b, walk g (Node.id s) b ->
            forall c, edge g b c -> settled st c.
Proof.
  intros [Hsv Hall] Hq.
  assert (Hstep : forall b,
             Py.mem b (map Node.id (BFS.visited (CycleFinder.bfs st))) = true ->
             forall c, edge g b c -> settled st c).
  { intros b Hb c [n [Hn [Hid Hc]]].
    rewrite <- Hid, <- Node_mem_ids in Hb.
    destruct (Hall n Hn Hb) as [Hp|He].
    - rewrite Hq in Hp. discriminate.
    - destruct (He c Hc) as [Hd|[_ []]]. exact Hd. }
  intros b Hw. remember (Node.id s) as a eqn:Ea.
  induction Hw as [a|a b c Hw IH He].
  - apply Hstep. rewrite Ea, <- Node_mem_ids. exact Hsv.
  - apply Hstep. apply (IH Ea c He).
Qed.

Lemma popped_explored (g : DirectedGraph.t) (s n : Node.t) (i : str)
      (rest : list Node.t) (st : CycleFinder.state) :
  NoDup (ids g) -> In n (DirectedGraph.nodes g) ->
  explored g s i [] st -> BFS.to_visit (CycleFinder.bfs st) = n :: rest ->
  explored g s (Node.id n) (Node.edges n)
    (CycleFinder.mk
       (BFS.mk (BFS.visited (CycleFinder.bfs st)) rest
               (BFS.start (CycleFinder.bfs st)))
       (CycleFinder.all_paths st) (CycleFinder.all_cycles st)).
Proof.
  intros Hnd Hn [Hsv Hall] Hq.
  split; [exact Hsv|]. simpl.
  intros m Hm Hv. destruct (Hall m Hm Hv) as [Hp|He].
  - rewrite Hq in Hp. simpl in Hp. apply orb_true_iff in Hp.
    destruct Hp as [Hp|Hp]; [|left; exact Hp].
    right. intros e He. right. apply Node_eqb_eq in Hp.
    assert (Hmn : n = m) by (apply (resident_unique g); assumption).
    subst m. split; [reflexivity | exact He].
  - right. intros e He0. destruct (He e He0) as [Hd|[_ []]].
    left. exact Hd.
Qed.

Lemma initial_explored (g : DirectedGraph.t) (n : Node.t) (i : str) :
  explored g n i [] (CycleFinder.mk (BFS.mk [n] [n] n) [(n, [n])] []).
Proof.
  split; simpl.
  - rewrite Node_eqb_refl. reflexivity.
  - intros m _ Hm. left. exact Hm.
Qed.

(** The two ways in which the loop ends, told apart by the graph: with
    the [AttributeError] of an edge that leads nowhere when a walk from
    the start node reaches one, and with the [AssertionError] of
    [pop_front] when none does. *)
Lemma loop_outcome (g : DirectedGraph.t) (s : Node.t) :
  NoDup (ids g) ->
  forall fuel st i,
    tracing g s st -> explored g s i [] st -> booked st ->
    work g st < fuel ->
    (CycleFinder.loop fuel g st = Some (Raise AssertionError)
     /\ ~ dangling g (Node.id s))
    \/ (CycleFinder.loop fuel g st = Some (Raise AttributeError)
        /\ dangling g (Node.id s)).
Proof.
  intros Hnd. induction fuel as [|fuel IH]; intros st i Htc Hex Hbk Hw;
    [lia|].
  destruct (BFS.to_visit (CycleFinder.bfs st)) as [|n rest] eqn:Hq.
  - left. split; [apply loop_done; exact Hq|].
    intros [b [e [Hwalk [He Hout]]]]. apply Hout.
    pose proof (explored_reach g s i st Hex Hq b Hwalk e He) as Hv.
    unfold settled in Hv. apply Py_mem_In in Hv.
    apply in_map_iff in Hv. destruct Hv as [m [Hid Hm]].
    rewrite <- Hid. apply in_map. apply (@tc_visited _ _ _ Htc m Hm).
  - rewrite (loop_step fuel _ _ _ _ Hq).
    destruct (popped_has_path n rest st Hbk Hq) as [Hnv Hp].
    rewrite Hp. cbn [assert bind].
    destruct (@tc_queue _ _ _ Htc n ltac:(rewrite Hq; left; reflexivity))
      as [Hn Hwalk].
    destruct (visit_edges_steps g n (Node.edges n) _
                (popped_booked n rest st Hbk Hq) Hnv)
      as [[st' [H1 [Hbk' _]]]|[Hraise [e [He Hout]]]].
    + rewrite H1. apply (IH st' (Node.id n)).
      * apply (visit_edges_tracing g s n (Node.edges n) Hn Hwalk
                 (incl_refl _) _ st'
                 (popped_tracing g s n rest st Htc Hq) H1).
      * apply (visit_edges_explored g s n (Node.id n) (Node.edges n) _ st'
                 (popped_explored g s n i rest st Hnd Hn Hex Hq) H1).
      * exact Hbk'.
      * apply visit_edges_work in H1. unfold work in *. simpl in H1.
        rewrite Hq in Hw. simpl in Hw. lia.
    + right. rewrite Hraise. split; [reflexivity|].
      exists (Node.id n), e. split; [exact Hwalk|]. split; [|exact Hout].
      exists n. auto.
Qed.

(** In a graph with distinct ids, [findCycleForNode] for a resident
    node raises [AttributeError] when a walk from the node reaches an
    edge to an id that is not resident, and the [AssertionError] of
    [pop_front] when no walk does; it ends in no other way, and never
    with a witness list. *)
Theorem findCycleForNode_outcome (g : DirectedGraph.t) (s : Node.t) :
  NoDup (ids g) -> In s (DirectedGraph.nodes g) ->
  (dangling g (Node.id s) ->
   CycleFinder.findCycleForNode g s = Some (Raise AttributeError))
  /\ (~ dangling g (Node.id s) ->
      CycleFinder.findCycleForNode g s = Some (Raise AssertionError)).
Proof.
  intros Hnd Hs.
  assert (Hid : In (Node.id s) (ids g)) by (apply in_map; exact Hs).
  unfold CycleFinder.findCycleForNode.
  rewrite findCycleForNode_fuel_unfold by exact Hid.
  destruct (loop_outcome g s Hnd (CycleFinder.turns g) _ (Node.id s)
              (initial_tracing g s Hs) (initial_explored g s (Node.id s))
              (initial_booked s) (initial_work g s Hid))
    as [[H Hd]|[H Hd]].
  - split; [intros Hd'; contradiction | intros _; exact H].
  - split; [intros _; exact H | intros Hn; contradiction].
Qed.

Lemma findCycleForNode_outcome_witness :
  CycleFinder.findCycleForNode
    (DirectedGraph.mk None [Examples.chainA; Examples.chainC])
    Examples.chainA
  = Some (Raise AttributeError).
Proof.
  apply (proj1 (findCycleForNode_outcome
                  (DirectedGraph.mk None [Examples.chainA; Examples.chainC])
                  Examples.chainA
                  ltac:(apply distinct_NoDup; reflexivity)
                  ltac:(simpl; auto))).
  exists (lit "A"), (lit "B"). split; [apply walk_nil|]. split.
  - exists Examples.chainA. simpl. auto.
  - simpl. intros [H|[H|[]]]; discriminate H.
Defined.

(** ** What [removeNode] leaves of the other nodes *)

Lemma removeNode_find (i j : str) (ns : list Node.t) :
  j <> i ->
  find (fun s => Node.eqb_id s j)
       (filter (fun m => negb (str_eqb (Node.id m) i))
               (map (DirectedGraph.strip_edges i) ns))
  = option_map (DirectedGraph.strip_edges i)
               (find (fun s => Node.eqb_id s j) ns).
Proof.
  intros Hne. induction ns as [|m ns IH]; [reflexivity|].
  cbn [map filter find]. rewrite strip_edges_id.
  destruct (str_eqb (Node.id m) i) eqn:E; cbn [negb].
  - apply str_eqb_eq in E.
    assert (F : Node.eqb_id m j = false).
    { unfold Node.eqb_id. apply str_eqb_neq. congruence. }
    rewrite F. exact IH.
  - cbn [find]. unfold Node.eqb_id at 1. rewrite strip_edges_id.
    fold (Node.eqb_id m j).
    destruct (Node.eqb_id m j); [reflexivity | exact IH].
Qed.

(** A successful [removeNode(i)] keeps the name, takes the id [i] away
    and keeps every other id; the node found under another id has its
    id and attributes as before, and its edge set holds the edges it
    held before but for [i]. *)
Theorem removeNode_effect (g g' : DirectedGraph.t) (i : str) :
  DirectedGraph.removeNode g i = Ok g' ->
  DirectedGraph.name g' = DirectedGraph.name g
  /\ (forall j, In j (ids g') <-> In j (ids g) /\ j <> i)
  /\ forall j, j <> i ->
       match DirectedGraph.getNode g j with
       | None => DirectedGraph.getNode g' j = None
       | Some m =>
           exists m',
             DirectedGraph.getNode g' j = Some m'
             /\ Node.id m' = Node.id m
             /\ Node.attributes m' = Node.attributes m
             /\ forall e, In e (Node.edges m')
                          <-> In e (Node.edges m) /\ e <> i
       end.
Proof.
  intros H. pose proof (removeNode_ids g g' i H) as Hids.
  apply removeNode_inv in H. destruct H as [_ ->].
  split; [reflexivity|]. split.
  - intros j. rewrite Hids, filter_In, negb_true_iff.
    split; intros [H1 H2]; (split; [exact H1|]).
    + apply str_eqb_neq. exact H2.
    + apply str_eqb_neq. exact H2.
  - intros j Hj. unfold DirectedGraph.getNode. cbn [DirectedGraph.nodes].
    rewrite (removeNode_find i j _ Hj).
    destruct (find (fun s => Node.eqb_id s j) (DirectedGraph.nodes g))
      as [m|] eqn:E; [|reflexivity].
    cbn [option_map]. exists (DirectedGraph.strip_edges i m).
    split; [reflexivity|].
    assert (F : Node.eqb_id m i = false).
    { apply find_some in E. destruct E as [_ E]. unfold Node.eqb_id in *.
      apply str_eqb_eq in E. apply str_eqb_neq. congruence. }
    unfold DirectedGraph.strip_edges. rewrite F. cbn.
    split; [reflexivity|]. split; [reflexivity|].
    intros e. rewrite filter_In, negb_true_iff.
    split; intros [H1 H2]; (split; [exact H1|]); apply str_eqb_neq;
      exact H2.
Qed.

Lemma removeNode_effect_witness :
  exists g',
    DirectedGraph.removeNode Examples.labelled (lit "a") = Ok g'
    /\ forall j, In j (ids g')
                 <-> In j (ids Examples.labelled) /\ j <> lit "a".
Proof.
  eexists. split; [reflexivity|].
  apply (proj1 (proj2 (removeNode_effect Examples.labelled _ (lit "a")
                         eq_refl))).
Defined.

(** ** Lookup by label in a graph with unlabelled nodes *)

Lemma getNodeByLabel_loop_unlabelled (l : str) (ns : list Node.t) :
  (exists n, In n ns /\ ~ has_label n) ->
  forall found,
    DirectedGraph.getNodeByLabel_loop l ns found = Raise KeyError
    \/ DirectedGraph.getNodeByLabel_loop l ns found = Raise AssertionError.
Proof.
  induction ns as [|s ns IH]; intros [n [Hn Hl]] found; [destruct Hn|].
  cbn [DirectedGraph.getNodeByLabel_loop].
  destruct (Py.dict_get (Node.attributes s) (lit "label")) as [v|] eqn:E;
    [|left; reflexivity].
  assert (Hrest : exists n, In n ns /\ ~ has_label n).
  { exists n. split; [|exact Hl]. destruct Hn as [<-|Hn]; [|exact Hn].
    exfalso. apply Hl. unfold has_label. rewrite E. discriminate. }
  destruct (str_eqb v l); [|apply IH; exact Hrest].
  destruct found; [right; reflexivity | apply IH; exact Hrest].
Qed.

(** [getNodeByLabel] returns nothing for a graph in which some node has
    no ["label"] attribute: whatever the label asked for, it raises
    [KeyError] or [AssertionError]. *)
Theorem getNodeByLabel_needs_labels (g : DirectedGraph.t) (l : str)
        (n : Node.t) :
  In n (DirectedGraph.nodes g) ->
  Py.dict_get (Node.attributes n) (lit "label") = None ->
  DirectedGraph.getNodeByLabel g l = Raise KeyError
  \/ DirectedGraph.getNodeByLabel g l = Raise AssertionError.
Proof.
  intros Hn Hl. apply getNodeByLabel_loop_unlabelled.
  exists n. split; [exact Hn|]. unfold has_label. rewrite Hl. tauto.
Qed.

Lemma getNodeByLabel_needs_labels_witness :
  DirectedGraph.getNodeByLabel
    (DirectedGraph.mk None [Examples.lab_a; Examples.bare_a]) (lit "A x")
  = Raise KeyError
  \/ DirectedGraph.getNodeByLabel
       (DirectedGraph.mk None [Examples.lab_a; Examples.bare_a]) (lit "A x")
     = Raise AssertionError.
Proof.
  apply (getNodeByLabel_needs_labels
           (DirectedGraph.mk None [Examples.lab_a; Examples.bare_a])
           (lit "A x") Examples.bare_a).
  - simpl; auto.
  - reflexivity.
Defined.

(** ** The ways in which reading a text fails *)

Lemma parseAttributes_loop_raises (parts : list str) :
  forall acc e,
    DotReader.parseAttributes_loop parts acc = Raise e ->
    exists a, e = Exception (lit "Bad attribute " ++ [DQUOTE] ++ a
                             ++ [DQUOTE]).
Proof.
  induction parts as [|a parts IH]; intros acc e H; [discriminate|].
  cbn [DotReader.parseAttributes_loop] in H.
  destruct (rmatch DotReader.attribute_re a) as [[|k [|v [|x caps]]]|];
    try (unfold DotReader.abortParse in H; injection H as <-;
         eexists; reflexivity).
  apply (IH _ _ H).
Qed.

Lemma parseNodeDefinition_raises (g : DirectedGraph.t) (l : str) (e : exn) :
  DotReader.parseNodeDefinition g l = Raise e ->
  exists a, e = Exception (lit "Bad attribute " ++ [DQUOTE] ++ a
                           ++ [DQUOTE]).
Proof.
  unfold DotReader.parseNodeDefinition. intros H.
  destruct (rmatch DotReader.node_definition_re l)
    as [[|i [|raw [|x caps]]]|]; try discriminate.
  destruct (DotReader.parseAttributes raw) as [attrs|e'] eqn:E;
    cbn [bind] in H; [discriminate|].
  injection H as <-. apply (parseAttributes_loop_raises _ _ _ E).
Qed.

Lemma addEdge_raises (g : DirectedGraph.t) (a b : str) (e : exn) :
  DirectedGraph.addEdge g a b = Raise e -> e = AssertionError.
Proof.
  intros H.
  destruct (Py.mem a (ids g)) eqn:Ha;
    [apply Py_mem_In in Ha | apply Py_mem_false in Ha].
  - destruct (Py.mem b (ids g)) eqn:Hb;
      [apply Py_mem_In in Hb | apply Py_mem_false in Hb].
    + rewrite addEdge_present in H by assumption. discriminate.
    + rewrite addEdge_absent in H by tauto. inversion H. reflexivity.
  - rewrite addEdge_absent in H by tauto. inversion H. reflexivity.
Qed.

Lemma parseEdgeDefinition_raises (g : DirectedGraph.t) (l : str) (e : exn) :
  DotReader.parseEdgeDefinition g l = Raise e -> e = AssertionError.
Proof.
  unfold DotReader.parseEdgeDefinition. intros H.
  destruct (rmatch DotReader.edge_re l) as [[|n1 [|n2 [|x caps]]]|];
    try discriminate.
  destruct (DirectedGraph.addEdge g n1 n2) as [g1|e'] eqn:E;
    cbn [bind] in H; [discriminate|].
  injection H as <-. apply (addEdge_raises _ _ _ _ E).
Qed.

Lemma statements_raises (lines : list str) :
  forall g e,
    DotReader.statements g lines = Raise e ->
    parse_failure e /\ e <> IndexError.
Proof.
  induction lines as [|l lines IH]; intros g e H; [discriminate|].
  cbn [DotReader.statements] in H.
  destruct (DotReader.parseNodeDefinition g l) as [[isnode g1]|e1] eqn:En;
    cbn [bind] in H.
  - destruct isnode; [apply (IH _ _ H)|].
    destruct (DotReader.parseEdgeDefinition g1 l) as [[isedge g2]|e2] eqn:Ee;
      cbn [bind] in H.
    + destruct isedge; [apply (IH _ _ H) | discriminate].
    + injection H as <-. apply parseEdgeDefinition_raises in Ee. subst e2.
      split; [right; left; reflexivity | discriminate].
  - injection H as <-.
    destruct (parseNodeDefinition_raises _ _ _ En) as [a ->].
    split; [do 4 right; eauto | discriminate].
Qed.

(** Reading a text ends in a graph or in one of five ways: with
    [IndexError], exactly when the text has no line with anything but
    white space on it; with [AssertionError]; or with an [Exception]
    that says that the introducer failed to parse, that no closing brace
    was found, or which attribute is bad. *)
Theorem fromDot_raises_only (text : str) :
  (forall e, fromDot text = Raise e -> parse_failure e)
  /\ (fromDot text = Raise IndexError
      <-> DotReader.nonblank_lines text = []).
Proof.
  unfold fromDot, DotReader.parse, DotReader.parse_lines.
  destruct (DotReader.nonblank_lines text) as [|l0 rest].
  - split; [|tauto]. intros e H. inversion H. left. reflexivity.
  - destruct (DotReader.parseIntroducer DotReader.init l0) as [ok g0].
    destruct ok; cbn [negb].
    + destruct (DotReader.statements g0 rest) as [[g1 remaining]|e1] eqn:E;
        cbn [bind].
      * assert (Hclose :
                  forall e,
                    match remaining with
                    | [] => DotReader.abortParse (lit "no closing } found")
                    | l :: _ =>
                        if DotReader.parseCloser l then Ok g1
                        else DotReader.abortParse (lit "no closing } found")
                    end = Raise e ->
                    e = Exception (lit "no closing } found")).
        { intros e H. destruct remaining as [|l r].
          - inversion H. reflexivity.
          - destruct (DotReader.parseCloser l); [discriminate|].
            inversion H. reflexivity. }
        split.
        -- intros e H. do 3 right. left. apply (Hclose e H).
        -- split; [|discriminate]. intros H. apply Hclose in H.
           discriminate.
      * destruct (statements_raises _ _ _ E) as [H1 H2]. split.
        -- intros e H. inversion H; subst. exact H1.
        -- split; [|discriminate]. intros H. inversion H. contradiction.
    + split.
      * intros e H. inversion H. do 2 right. left. reflexivity.
      * split; discriminate.
Qed.

Lemma fromDot_raises_only_witness :
  parse_failure (Exception (lit "no closing } found")).
Proof.
  apply (proj1 (fromDot_raises_only Examples.bare_text)). reflexivity.
Defined.

(** ** The cycle finder comes to an end *)

(** [findCycleForNode] ends for every graph and every node, and it
    ends by raising: the loop runs at most one turn for each resident
    node and one more, which finds the queue empty and raises the
    [AssertionError] of [pop_front], unless an edge that leads nowhere
    raised [AttributeError] before; further turns change nothing.  For
    a node that is not resident it ends at once with
    [AssertionError]. *)
Theorem findCycleForNode_ends (g : DirectedGraph.t) (n : Node.t) :
  (exists e,
      (e = AssertionError \/ e = AttributeError)
      /\ CycleFinder.findCycleForNode g n = Some (Raise e)
      /\ forall fuel, CycleFinder.turns g <= fuel ->
                      CycleFinder.findCycleForNode_fuel fuel g n
                      = Some (Raise e))
  /\ (~ In (Node.id n) (ids g) ->
      CycleFinder.findCycleForNode g n = Some (Raise AssertionError)).
Proof.
  split.
  - unfold CycleFinder.findCycleForNode.
    destruct (Node.mem n (DirectedGraph.nodes g)) eqn:Hm.
    + apply Node_mem_In in Hm.
      assert (Hr : exists e,
                 (e = AssertionError \/ e = AttributeError)
                 /\ CycleFinder.loop (CycleFinder.turns g) g
                      (CycleFinder.mk (BFS.mk [n] [n] n) [(n, [n])] [])
                    = Some (Raise e)).
      { destruct (loop_raises g (CycleFinder.turns g) _
                    (initial_booked n) (initial_work g n Hm)) as [H|H];
          eauto. }
      destruct Hr as [e [He Hr]]. exists e. split; [exact He|].
      rewrite findCycleForNode_fuel_unfold by exact Hm.
      split; [exact Hr|]. intros fuel Hle.
      rewrite findCycleForNode_fuel_unfold by exact Hm.
      apply (loop_fuel_mono g _ _ _ _ Hr Hle).
    + exists AssertionError. split; [left; reflexivity|].
      unfold CycleFinder.findCycleForNode_fuel. rewrite Hm.
      split; [reflexivity|]. intros fuel _. reflexivity.
  - intros Hout. apply Node_mem_false in Hout.
    unfold CycleFinder.findCycleForNode, CycleFinder.findCycleForNode_fuel.
    fold (ids g) in Hout. unfold ids in Hout. rewrite Hout. reflexivity.
Qed.

Lemma findCycleForNode_ends_witness :
  CycleFinder.findCycleForNode Examples.chain Examples.fresh_z
  = Some (Raise AssertionError).
Proof.
  apply (proj2 (findCycleForNode_ends Examples.chain Examples.fresh_z)).
  simpl. intros [H|[H|[H|[]]]]; discriminate H.
Defined.

(** ** The shape of what the reader builds *)

Lemma many_inv (R : Type) (cls : ascii -> bool) (s : str)
      (k : str -> option R) (r : R) :
  many cls s k = Some r ->
  exists p s', s = p ++ s' /\ forallb cls p = true /\ k s' = Some r.
Proof.
  induction s as [|c t IH]; simpl.
  - intros H. exists [], []. auto.
  - destruct (cls c) eqn:E.
    + destruct (many cls t k) as [r'|] eqn:M; intros H.
      * inversion H; subst r'. destruct (IH eq_refl) as [p [s' [-> [Hp Hk]]]].
        exists (c :: p), s'. simpl. rewrite E, Hp. auto.
      * exists [], (c :: t). auto.
    + intros H. exists [], (c :: t). auto.
Qed.

Lemma eat_inv (l s s' : str) : eat l s = Some s' -> s = l ++ s'.
Proof.
  revert s. induction l as [|x l IH]; intros s H; simpl in H.
  - inversion H. reflexivity.
  - destruct s as [|y s]; [discriminate|].
    destruct (ascii_eqb x y) eqn:E; [|discriminate].
    apply ascii_eqb_eq in E. subst y. rewrite (IH s H). reflexivity.
Qed.

Lemma run_Star_inv (cls : ascii -> bool) (r : regex) (s : str)
      (caps res : captures) (k : str -> captures -> option captures) :
  run (Seq (Star cls) r) s caps k = Some res ->
  exists p s', s = p ++ s' /\ forallb cls p = true
               /\ run r s' caps k = Some res.
Proof. cbn [run]. apply many_inv. Qed.

Lemma run_Plus_inv (cls : ascii -> bool) (r : regex) (s : str)
      (caps res : captures) (k : str -> captures -> option captures) :
  run (Seq (Plus cls) r) s caps k = Some res ->
  exists p s', s = p ++ s' /\ p <> [] /\ forallb cls p = true
               /\ run r s' caps k = Some res.
Proof.
  cbn [run]. destruct s as [|c t]; [discriminate|].
  destruct (cls c) eqn:E; [|discriminate]. intros H.
  apply many_inv in H. destruct H as [p [s' [-> [Hp Hk]]]].
  exists (c :: p), s'. simpl. rewrite E, Hp.
  split; [reflexivity|]. split; [discriminate|]. auto.
Qed.

Lemma run_Group_inv (cls : ascii -> bool) (r : regex) (s : str)
      (caps res : captures) (k : str -> captures -> option captures) :
  run (Seq (Group (Plus cls)) r) s caps k = Some res ->
  exists p s', s = p ++ s' /\ p <> [] /\ forallb cls p = true
               /\ run r s' (caps ++ [p]) k = Some res.
Proof.
  cbn [run]. destruct s as [|c t]; [discriminate|].
  destruct (cls c) eqn:E; [|discriminate]. intros H.
  apply many_inv in H. destruct H as [p [s' [-> [Hp Hk]]]].
  exists (c :: p), s'.
  change (c :: p ++ s') with ((c :: p) ++ s') in Hk.
  rewrite firstn_prefix in Hk. simpl. rewrite E, Hp.
  split; [reflexivity|]. split; [discriminate|]. auto.
Qed.

Lemma run_Lit_inv (l : str) (r : regex) (s : str)
      (caps res : captures) (k : str -> captures -> option captures) :
  run (Seq (Lit l) r) s caps k = Some res ->
  exists s', s = l ++ s' /\ run r s' caps k = Some res.
Proof.
  cbn [run]. destruct (eat l s) as [s'|] eqn:E; [|discriminate].
  intros H. exists s'. split; [apply eat_inv; exact E | exact H].
Qed.

Lemma run_Eos_inv (s : str) (caps res : captures)
      (k : str -> captures -> option captures) :
  run Eos s caps k = Some res -> k s caps = Some res.
Proof.
  cbn [run]. destruct s as [|c [|d t]]; try discriminate; [tauto|].
  destruct (ascii_eqb c LF); [tauto | discriminate].
Qed.

Lemma word_ok_of (p : str) :
  p <> [] -> forallb is_word p = true -> word_ok p = true.
Proof.
  intros Hne Hp. unfold word_ok. rewrite Hp.
  destruct p; [congruence | reflexivity].
Qed.

Lemma node_re_inv (l : str) (caps : captures) :
  rmatch DotReader.node_definition_re l = Some caps ->
  exists i raw a b,
    caps = [i; raw] /\ word_ok i = true /\ raw <> []
    /\ forallb (not_char RBRACKET) raw = true /\ l = a ++ raw ++ b.
Proof.
  unfold rmatch, DotReader.node_definition_re. cbn [seq]. intros H.
  apply run_Star_inv in H. destruct H as [w [s1 [-> [_ H]]]].
  apply run_Group_inv in H. destruct H as [i [s2 [-> [Hi [Hiw H]]]]].
  apply run_Plus_inv in H. destruct H as [w' [s3 [-> [_ [_ H]]]]].
  apply run_Lit_inv in H. destruct H as [s4 [-> H]].
  apply run_Group_inv in H. destruct H as [raw [s5 [-> [Hr [Hrw H]]]]].
  apply run_Lit_inv in H. destruct H as [s6 [-> H]].
  apply run_Star_inv in H. destruct H as [w2 [s7 [-> [_ H]]]].
  apply run_Lit_inv in H. destruct H as [s8 [-> H]].
  apply run_Star_inv in H. destruct H as [w3 [s9 [-> [_ H]]]].
  apply run_Eos_inv in H. inversion H; subst caps.
  exists i, raw, (w ++ i ++ w' ++ lit "["),
    (lit "]" ++ w2 ++ lit ";" ++ w3 ++ s9).
  split; [reflexivity|]. split; [apply word_ok_of; assumption|].
  split; [exact Hr|]. split; [exact Hrw|].
  rewrite <- !app_assoc. reflexivity.
Qed.

Lemma attribute_re_inv (x : str) (caps : captures) :
  rmatch DotReader.attribute_re x = Some caps ->
  exists k v a b,
    caps = [k; v] /\ word_ok k = true /\ v <> []
    /\ forallb (not_char DQUOTE) v = true /\ x = a ++ v ++ b.
Proof.
  unfold rmatch, DotReader.attribute_re. cbn [seq]. intros H.
  apply run_Star_inv in H. destruct H as [w [s1 [-> [_ H]]]].
  apply run_Group_inv in H. destruct H as [k [s2 [-> [Hk [Hkw H]]]]].
  apply run_Lit_inv in H. destruct H as [s3 [-> H]].
  apply run_Lit_inv in H. destruct H as [s4 [-> H]].
  apply run_Group_inv in H. destruct H as [v [s5 [-> [Hv [Hvw H]]]]].
  cbn [run] in H. destruct (eat [DQUOTE] s5) as [s6|] eqn:E; [|discriminate].
  inversion H; subst caps.
  exists k, v, (w ++ k ++ lit "=" ++ [DQUOTE]), s5.
  split; [reflexivity|]. split; [apply word_ok_of; assumption|].
  split; [exact Hv|]. split; [exact Hvw|].
  rewrite <- !app_assoc. reflexivity.
Qed.

Lemma introducer_re_inv (l : str) (caps : captures) :
  rmatch DotReader.introducer_re l = Some caps ->
  exists nm a b,
    caps = [nm] /\ nm <> [] /\ forallb (not_char DQUOTE) nm = true
    /\ l = a ++ nm ++ b.
Proof.
  unfold rmatch, DotReader.introducer_re. cbn [seq]. intros H.
  apply run_Star_inv in H. destruct H as [w [s1 [-> [_ H]]]].
  apply run_Lit_inv in H. destruct H as [s2 [-> H]].
  apply run_Lit_inv in H. destruct H as [s3 [-> H]].
  apply run_Group_inv in H. destruct H as [nm [s4 [-> [Hn [Hnw H]]]]].
  apply run_Lit_inv in H. destruct H as [s5 [-> H]].
  apply run_Plus_inv in H. destruct H as [w1 [s6 [-> [_ [_ H]]]]].
  apply run_Lit_inv in H. destruct H as [s7 [-> H]].
  apply run_Star_inv in H. destruct H as [w2 [s8 [-> [_ H]]]].
  apply run_Eos_inv in H. inversion H; subst caps.
  exists nm, (w ++ lit "digraph " ++ [DQUOTE]),
    ([DQUOTE] ++ w1 ++ lit "{" ++ w2 ++ s8).
  split; [reflexivity|]. split; [exact Hn|]. split; [exact Hnw|].
  rewrite <- !app_assoc. reflexivity.
Qed.

Lemma forallb_middle (P : ascii -> bool) (a x b : str) :
  forallb P (a ++ x ++ b) = true -> forallb P x = true.
Proof.
  rewrite !forallb_app. intros H. apply andb_true_iff in H.
  destruct H as [_ H]. apply andb_true_iff in H. tauto.
Qed.

Lemma lstrip_forallb (P : ascii -> bool) (s : str) :
  forallb P s = true -> forallb P (lstrip s) = true.
Proof.
  induction s as [|c s IH]; [reflexivity|]. intros H. simpl.
  destruct (is_space c); [|exact H].
  simpl in H. apply andb_true_iff in H. apply IH. tauto.
Qed.

Lemma strip_forallb (P : ascii -> bool) (s : str) :
  forallb P s = true -> forallb P (strip s) = true.
Proof.
  intros H. unfold strip, rstrip. rewrite forallb_rev.
  apply lstrip_forallb. rewrite forallb_rev. apply lstrip_forallb. exact H.
Qed.

Lemma split_forallb (P : ascii -> bool) (sep : ascii) (s : str) :
  forallb P s = true ->
  Forall (fun x => forallb P x = true) (split sep s).
Proof.
  induction s as [|c s IH]; intros H; [repeat constructor|].
  simpl in H. apply andb_true_iff in H. destruct H as [Hc Hs].
  specialize (IH Hs). cbn [split].
  destruct (ascii_eqb c sep); [constructor; [reflexivity | exact IH]|].
  destruct (split sep s) as [|l ls].
  - constructor; [simpl; rewrite Hc; reflexivity | constructor].
  - inversion IH; subst. constructor; [|assumption].
    simpl. rewrite Hc. assumption.
Qed.

Lemma split_no_sep (sep : ascii) (s : str) :
  Forall (fun x => forallb (not_char sep) x = true) (split sep s).
Proof.
  induction s as [|c s IH]; [repeat constructor|]. cbn [split].
  destruct (ascii_eqb c sep) eqn:E; [constructor; [reflexivity | exact IH]|].
  assert (Hc : not_char sep c = true) by (unfold not_char; rewrite E;
                                          reflexivity).
  destruct (split sep s) as [|l ls].
  - constructor; [simpl; rewrite Hc; reflexivity | constructor].
  - inversion IH; subst. constructor; [|assumption].
    simpl. rewrite Hc. assumption.
Qed.

Lemma stripped_parts_chars (raw : str) :
  forallb (not_char RBRACKET) raw = true -> forallb line_char raw = true ->
  Forall (fun x => forallb part_char x = true)
         (DotReader.stripped_parts COMMA raw).
Proof.
  intros Hr Hl. unfold DotReader.stripped_parts.
  pose proof (split_no_sep COMMA raw) as H1.
  pose proof (split_forallb _ COMMA raw Hr) as H2.
  pose proof (split_forallb _ COMMA raw Hl) as H3.
  induction (split COMMA raw) as [|x xs IH]; [constructor|].
  inversion H1; inversion H2; inversion H3; subst.
  cbn [map filter].
  destruct (nonempty (strip x)); [|apply IH; assumption].
  constructor; [|apply IH; assumption].
  assert (Hx : forallb part_char x = true).
  { rewrite forallb_forall in *. intros c Hc. unfold part_char.
    rewrite H4, H8, H12 by exact Hc. reflexivity. }
  apply strip_forallb. exact Hx.
Qed.

Lemma dict_set_attr_ok (d : list (str * str)) (k v : str) :
  attr_ok (k, v) = true -> forallb attr_ok d = true ->
  forallb attr_ok (Py.dict_set d k v) = true.
Proof.
  intros Hkv. induction d as [|[k0 v0] d IH]; intros Hd; simpl.
  - rewrite Hkv. reflexivity.
  - simpl in Hd. apply andb_true_iff in Hd. destruct Hd as [H0 Hd].
    destruct (str_eqb k0 k) eqn:E; simpl.
    + apply str_eqb_eq in E. subst k0. rewrite Hkv, Hd. reflexivity.
    + rewrite H0, (IH Hd). reflexivity.
Qed.

Lemma parseAttributes_loop_parsed (parts : list str) :
  Forall (fun x => forallb part_char x = true) parts ->
  forall acc d,
    DotReader.parseAttributes_loop parts acc = Ok d ->
    forallb attr_ok acc = true -> NoDup (map fst acc) ->
    forallb attr_ok d = true /\ NoDup (map fst d).
Proof.
  induction 1 as [|x parts Hx _ IH]; intros acc d H Hacc Hnd.
  - inversion H; subst. auto.
  - cbn [DotReader.parseAttributes_loop] in H.
    destruct (rmatch DotReader.attribute_re x) as [caps|] eqn:E;
      [|discriminate].
    destruct (attribute_re_inv x caps E)
      as [k [v [a [b [-> [Hk [Hv [Hq ->]]]]]]]].
    apply (IH _ _ H).
    + apply dict_set_attr_ok; [|exact Hacc].
      unfold attr_ok, value_ok. cbn [fst snd]. rewrite Hk.
      apply forallb_middle in Hx.
      assert (Hval : forallb value_char v = true).
      { rewrite forallb_forall in *. intros c Hc.
        specialize (Hx c Hc). specialize (Hq c Hc).
        unfold part_char, line_char in Hx. unfold value_char.
        apply andb_true_iff in Hx. destruct Hx as [Hx1 Hx3].
        apply andb_true_iff in Hx1. destruct Hx1 as [Hx1 Hx2].
        rewrite Hq, Hx1, Hx2, Hx3. reflexivity. }
      rewrite Hval. destruct v; [congruence | reflexivity].
    + rewrite dict_set_keys. apply py_set_add_NoDup. exact Hnd.
Qed.

Lemma parseNodeDefinition_parsed (g g' : DirectedGraph.t) (l : str) :
  forallb line_char l = true ->
  DotReader.parseNodeDefinition g l = Ok (true, g') ->
  exists n, parsed_node n /\ Node.edges n = []
            /\ DirectedGraph.addNode g n = Ok g'.
Proof.
  intros Hl. unfold DotReader.parseNodeDefinition. intros H.
  destruct (rmatch DotReader.node_definition_re l) as [caps|] eqn:E;
    [|discriminate].
  destruct (node_re_inv l caps E) as [i [raw [a [b [-> [Hi [_ [Hr ->]]]]]]]].
  destruct (DotReader.parseAttributes raw) as [attrs|] eqn:Ea;
    cbn [bind] in H; [|discriminate].
  inversion H; subst g'. exists (Node.mk i [] attrs).
  split; [|split; reflexivity].
  unfold DotReader.parseAttributes in Ea.
  destruct (parseAttributes_loop_parsed _
              (stripped_parts_chars raw Hr (forallb_middle _ _ _ _ Hl))
              [] attrs Ea eq_refl (NoDup_nil _)) as [H1 H2].
  split; [exact Hi|]. split; [exact H1|]. split; [exact H2 | constructor].
Qed.

Lemma addNode_parsed (g g' : DirectedGraph.t) (n : Node.t) :
  parsed_node n ->
  (forall m, In m (DirectedGraph.nodes g) -> parsed_node m) ->
  DirectedGraph.addNode g n = Ok g' ->
  forall m, In m (DirectedGraph.nodes g') -> parsed_node m.
Proof.
  intros Hn Hall H. inversion H; subst g'. cbn [DirectedGraph.nodes].
  unfold Node.set_add. destruct (Node.mem n (DirectedGraph.nodes g));
    [exact Hall|].
  intros m Hm. apply in_app_or in Hm.
  destruct Hm as [Hm|[<-|[]]]; [apply Hall; exact Hm | exact Hn].
Qed.

Lemma addEdge_parsed (g g' : DirectedGraph.t) (a b : str) :
  (forall m, In m (DirectedGraph.nodes g) -> parsed_node m) ->
  DirectedGraph.addEdge g a b = Ok g' ->
  forall m, In m (DirectedGraph.nodes g') -> parsed_node m.
Proof.
  intros Hall H. apply addEdge_inv in H. destruct H as [_ [_ ->]].
  cbn [DirectedGraph.nodes]. intros m Hm.
  apply update_first_In in Hm. destruct Hm as [Hm|[m0 [Hm0 [_ ->]]]];
    [apply Hall; exact Hm|].
  destruct (Hall m0 Hm0) as [H1 [H2 [H3 H4]]].
  split; [exact H1|]. split; [exact H2|]. split; [exact H3|].
  simpl. apply py_set_add_NoDup. exact H4.
Qed.

Lemma statements_parsed (lines : list str) :
  Forall (fun l => forallb line_char l = true) lines ->
  forall g g' rest,
    NoDup (ids g) -> closed g ->
    (forall m, In m (DirectedGraph.nodes g) -> parsed_node m) ->
    DotReader.statements g lines = Ok (g', rest) ->
    DirectedGraph.name g' = DirectedGraph.name g
    /\ NoDup (ids g') /\ closed g'
    /\ forall m, In m (DirectedGraph.nodes g') -> parsed_node m.
Proof.
  induction 1 as [|l lines Hl _ IH]; intros g g' rest Hnd Hcl Hall H.
  - inversion H; subst. auto.
  - cbn [DotReader.statements] in H.
    destruct (DotReader.parseNodeDefinition g l) as [[isnode g1]|] eqn:En;
      cbn [bind] in H; [|discriminate].
    destruct isnode.
    + destruct (parseNodeDefinition_parsed g g1 l Hl En)
        as [n [Hn [He Hadd]]].
      destruct (IH g1 g' rest) as [H1 H2]; try exact H.
      * apply (addNode_NoDup g g1 n Hnd Hadd).
      * apply (addNode_closed g g1 n Hcl); [|exact Hadd].
        rewrite He. intros e [].
      * apply (addNode_parsed g g1 n Hn Hall Hadd).
      * split; [|exact H2]. rewrite H1. inversion Hadd. reflexivity.
    + apply parseNodeDefinition_inv in En.
      destruct En as [[_ ->]|[F _]]; [|discriminate].
      destruct (DotReader.parseEdgeDefinition g l) as [[isedge g2]|] eqn:Ee;
        cbn [bind] in H; [|discriminate].
      apply parseEdgeDefinition_inv in Ee.
      destruct Ee as [[-> ->]|[-> [a [b Hadd]]]].
      * inversion H; subst. auto.
      * destruct (IH g2 g' rest) as [H1 H2]; try exact H.
        -- rewrite (addEdge_ids g g2 a b Hadd). exact Hnd.
        -- apply (addEdge_closed g g2 a b Hcl Hadd).
        -- apply (addEdge_parsed g g2 a b Hall Hadd).
        -- split; [|exact H2]. rewrite H1.
           apply addEdge_inv in Hadd. destruct Hadd as [_ [_ ->]].
           reflexivity.
Qed.

Lemma splitlines_line_char_upto (n : nat) :
  forall s, length s <= n ->
            Forall (fun l => forallb line_char l = true) (splitlines s).
Proof.
  induction n as [|n IH]; intros s Hn.
  - destruct s; [constructor | simpl in Hn; lia].
  - destruct s as [|c s]; [constructor|]. simpl in Hn.
    cbn [splitlines]. destruct (is_linebreak c) eqn:E.
    + constructor; [reflexivity|]. destruct (ascii_eqb c CR).
      * destruct s as [|c' s]; [constructor|]. simpl in Hn.
        destruct (ascii_eqb c' LF); apply IH; simpl; lia.
      * apply IH; lia.
    + pose proof (IH s ltac:(lia)) as H.
      assert (Hc : line_char c = true)
        by (unfold line_char; rewrite E; reflexivity).
      destruct (splitlines s) as [|l ls].
      * constructor; [simpl; rewrite Hc; reflexivity | constructor].
      * inversion H; subst. constructor; [|assumption].
        simpl. rewrite Hc. assumption.
Qed.

Lemma nonblank_lines_line_char (text : str) :
  Forall (fun l => forallb line_char l = true)
         (DotReader.nonblank_lines text).
Proof.
  unfold DotReader.nonblank_lines.
  pose proof (splitlines_line_char_upto (length text) text (le_n _)) as H.
  induction H as [|l ls Hl _ IH]; [constructor|]. cbn [map filter].
  destruct (nonempty (strip l)); [|exact IH].
  constructor; [apply strip_forallb; exact Hl | exact IH].
Qed.

Lemma fromDot_parsed (text : str) (g : DirectedGraph.t) :
  fromDot text = Ok g ->
  (exists nm, DirectedGraph.name g = Some nm /\ name_ok nm = true)
  /\ NoDup (ids g) /\ closed g
  /\ forall m, In m (DirectedGraph.nodes g) -> parsed_node m.
Proof.
  unfold fromDot, DotReader.parse, DotReader.parse_lines. intros H.
  pose proof (nonblank_lines_line_char text) as Hlines.
  destruct (DotReader.nonblank_lines text) as [|l0 rest]; [discriminate|].
  inversion Hlines as [|? ? Hl0 Hrest]; subst.
  unfold DotReader.parseIntroducer in H.
  destruct (rmatch DotReader.introducer_re l0) as [caps|] eqn:E;
    [|discriminate].
  destruct (introducer_re_inv l0 caps E) as [nm [a [b [-> [Hne [Hq ->]]]]]].
  cbn [negb] in H.
  destruct (DotReader.statements _ rest) as [[g1 remaining]|] eqn:Es;
    cbn [bind] in H; [|discriminate].
  assert (Hg : g1 = g).
  { destruct remaining as [|l r]; [discriminate|].
    destruct (DotReader.parseCloser l); [|discriminate].
    inversion H; reflexivity. }
  subst g1.
  destruct (statements_parsed rest Hrest
              (DirectedGraph.setName DotReader.init nm) g remaining)
    as [H1 H2]; try exact Es.
  - constructor.
  - intros n e [].
  - intros m [].
  - split; [|exact H2]. exists nm. split; [exact H1|].
    unfold name_ok. apply forallb_middle in Hl0.
    assert (Hc : forallb name_char nm = true).
    { rewrite forallb_forall in *. intros c Hc. unfold name_char.
      rewrite (Hq c Hc). specialize (Hl0 c Hc). unfold line_char in Hl0.
      rewrite Hl0. reflexivity. }
    rewrite Hc. destruct nm; [congruence | reflexivity].
Qed.

(** What [fromDot] returns: a graph under a name within NAME whose
    nodes have a word for their id, attributes with distinct word keys
    and values within VALUE, and an edge set without repetition.
    [toDot] writes no such graph: it ends with [AttributeError]. *)
Theorem fromDot_shape (text : str) (g : DirectedGraph.t) :
  fromDot text = Ok g ->
  (exists nm, DirectedGraph.name g = Some nm /\ name_ok nm = true)
  /\ (forall m, In m (DirectedGraph.nodes g) -> parsed_node m)
  /\ DirectedGraph.toDot g = Raise AttributeError.
Proof.
  intros H.
  destruct (fromDot_parsed text g H) as [Hname [Hnd [_ Hall]]].
  split; [exact Hname|]. split; [exact Hall|].
  apply toDot_distinct. exact Hnd.
Qed.

Lemma fromDot_shape_witness :
  parsed_node Examples.lab_a
  /\ DirectedGraph.toDot Examples.labelled = Raise AttributeError.
Proof.
  destruct (fromDot_shape
              (dot_text (lit "deps")
                        (node_lines (DirectedGraph.nodes Examples.labelled))
                        (edge_lines (DirectedGraph.nodes Examples.labelled)))
              Examples.labelled eq_refl)
    as [_ [H1 H2]].
  split; [apply H1; left; reflexivity | exact H2].
Defined.
